(** * Student notes maker: a shallow embedding of the rotation, invocation,
      chunking, scoring and profile-store code, with its specification.

    The development follows the source files:
    - [JsString]        the string primitives of the language the code relies on
    - [AiService]       src/services/aiService.js
    - [TextProcessing]  src/utils/textProcessing.js
    - [Storage]         src/utils/storage.js
    - [Quiz]            the output screen component (handleShowAnswer)
    - [Dashboard]       src/components/Dashboard.jsx
    - [UserManagement]  the user management dialog (handleCreateUser)
    - [App]             the first step of the pipeline and the key points

    Definitions come first, theorems after them. *)

From Stdlib Require Import ZArith NArith Lia List String Ascii.
From Stdlib Require Import Floats.SpecFloat.
From stdpp Require Import base tactics option list numbers gmap pretty.

Local Open Scope Z_scope.
Local Open Scope nat_scope.

(* ===================================================================== *)
(** * Strings *)
(* ===================================================================== *)

(** A string of the source language is a sequence of 16-bit code units.
    The model keeps the code units as numbers, so that every text the
    generative backend may return is covered. *)
Module JsString.

Abbreviation jsstring := (list N).

(** A literal of the source, written as a Rocq string of ASCII characters. *)
Definition lit (s : string) : jsstring :=
  N_of_ascii <$> list_ascii_of_string s.

(** [WhiteSpace] and [LineTerminator] of the language: what [trim] strips
    and what the class [\s] of a regular expression matches. *)
Definition is_space (c : N) : bool :=
  match c with
  | 9%N | 10%N | 11%N | 12%N | 13%N | 32%N | 160%N
  | 5760%N | 8232%N | 8233%N | 8239%N | 8287%N | 12288%N | 65279%N => true
  | _ => (8192 <=? c)%N && (c <=? 8202)%N
  end.

Fixpoint trimStart (s : jsstring) : jsstring :=
  match s with
  | [] => []
  | c :: s' => if is_space c then trimStart s' else s
  end.

Definition trimEnd (s : jsstring) : jsstring :=
  reverse (trimStart (reverse s)).

(** [s.trim()] *)
Definition trim (s : jsstring) : jsstring := trimEnd (trimStart s).

(** [String.prototype.split] with the separator ["\n"]: the accumulator
    [cur] is the piece being read. *)
Fixpoint splitLinesFrom (cur : jsstring) (s : jsstring) : list jsstring :=
  match s with
  | [] => [cur]
  | c :: s' =>
      if (c =? 10)%N then cur :: splitLinesFrom [] s'
      else splitLinesFrom (cur ++ [c]) s'
  end.

Definition splitLines (s : jsstring) : list jsstring := splitLinesFrom [] s.

(** [s.split(/\s+/)]: the separators are the maximal runs of white space;
    [inSep] tells that the previous code unit belonged to a separator. *)
Fixpoint splitWsFrom (inSep : bool) (cur : jsstring) (s : jsstring)
  : list jsstring :=
  match s with
  | [] => [cur]
  | c :: s' =>
      if is_space c then
        if inSep then splitWsFrom true [] s'
        else cur :: splitWsFrom true [] s'
      else splitWsFrom false (cur ++ [c]) s'
  end.

Definition splitWs (s : jsstring) : list jsstring := splitWsFrom false [] s.

(** [words.join(sep)] *)
Fixpoint join (sep : jsstring) (l : list jsstring) : jsstring :=
  match l with
  | [] => []
  | [w] => w
  | w :: l' => w ++ sep ++ join sep l'
  end.

Fixpoint startsWith (p s : jsstring) : bool :=
  match p, s with
  | [], _ => true
  | a :: p', b :: s' => (a =? b)%N && startsWith p' s'
  | _ :: _, [] => false
  end.

(** [s.includes(p)] *)
Fixpoint includes (p s : jsstring) : bool :=
  startsWith p s ||
  match s with
  | [] => false
  | _ :: s' => includes p s'
  end.

(** Upper-case form of an ASCII letter; every other code unit is left
    alone.  Under the flag [i] (without [u]) a code unit of value 128 or more
    never matches an ASCII letter, so this is the comparison the regular
    expressions of the source perform on their ASCII patterns. *)
Definition asciiUpper (c : N) : N :=
  if (97 <=? c)%N && (c <=? 122)%N then (c - 32)%N else c.

Fixpoint startsWithCI (p s : jsstring) : bool :=
  match p, s with
  | [], _ => true
  | a :: p', b :: s' => (asciiUpper a =? asciiUpper b)%N && startsWithCI p' s'
  | _ :: _, [] => false
  end.

(** The template-literal rendering of a non-negative integer. *)
Definition ofNat (n : nat) : jsstring := lit (pretty n).
Definition ofN (n : N) : jsstring := lit (pretty n).

(** Truthiness of a string value: the empty string is falsy. *)
Definition truthy (s : jsstring) : bool :=
  match s with [] => false | _ => true end.

(** A word: a string that is not empty and holds no white space. *)
Definition isWord (w : jsstring) : Prop :=
  w ≠ [] ∧ Forall (λ c, is_space c = false) w.

End JsString.

Import JsString.

(* ===================================================================== *)
(** * Numbers *)
(* ===================================================================== *)

(** A number of the source language is an IEEE 754 binary64 value.  Counts,
    indices, sums of scores and identifiers hold integers far below [2^53],
    on which addition, subtraction and multiplication are exact: they are
    modelled as [nat] or [Z].  Division, the product by a quotient and the
    decimal rendering are modelled on binary64 itself, with the operations
    of the Standard Library's [SpecFloat]. *)
Module JsNumber.

Definition prec : Z := 53.
Definition emax : Z := 1024.

(** The binary64 value of an integer. *)
Definition ofZ (z : Z) : spec_float := binary_normalize prec emax z 0 false.

Definition div (x y : spec_float) : spec_float := SFdiv prec emax x y.
Definition mul (x y : spec_float) : spec_float := SFmul prec emax x y.

(** [Math.floor(x)]; [None] when [x] is an infinity or NaN. *)
Definition floor (x : spec_float) : option Z :=
  match x with
  | S754_zero _ => Some 0%Z
  | S754_finite s m e => Some (Z.shiftl (if s then Z.neg m else Z.pos m) e)
  | _ => None
  end.

(** [parseFloat(x.toFixed(1))], as a number of tenths.  [toFixed(1)] takes
    the integer [n] for which [n / 10] is closest to the magnitude of [x],
    the larger one of two equally close, and prints [n / 10] with the sign
    of [x]; [parseFloat] reads that decimal back.  The model keeps the
    decimal itself, as the signed integer [n].  [None] is "NaN" or
    "Infinity". *)
Definition toFixed1 (x : spec_float) : option Z :=
  match x with
  | S754_zero _ => Some 0%Z
  | S754_finite s m e =>
      let n :=
        match e with
        | Z.neg p => ((20 * Z.pos m + 2 ^ Z.pos p) / 2 ^ (Z.pos p + 1))%Z
        | _ => (10 * Z.pos m * 2 ^ e)%Z
        end in
      Some (if s then (- n)%Z else n)
  | _ => None
  end.

(** ** Notions used by the specification of the roundings *)

(** The part shifted out of a mantissa is not zero. *)
Definition inexact (mrs : shr_record) : bool := shr_r mrs || shr_s mrs.

(** [mrs'] is [mrs] shifted right by [k] places: the mantissa is divided by
    [2 ^ k] and the record remembers whether anything was lost. *)
Definition shifted (k : Z) (mrs mrs' : shr_record) : Prop :=
  (shr_m mrs' = shr_m mrs / 2 ^ k)%Z ∧
  inexact mrs' = inexact mrs || negb (shr_m mrs mod 2 ^ k =? 0)%Z.

End JsNumber.

(* ===================================================================== *)
(** * src/services/aiService.js *)
(* ===================================================================== *)

Module AiService.

(** An [Error] object: only its message is observed. *)
Record JsError := mkError { message : jsstring }.

(** The 4-tier model priority of the source. *)
Definition MODELS : list jsstring :=
  [ lit "gemini-2.5-flash-lite"; lit "gemini-2.5-flash";
    lit "gemini-2.5-pro"; lit "gemini-2.0-flash" ].

(** [currentKeyIndex] and [currentModelIndex], the module-level cursor. *)
Record Cursor := mkCursor { currentKeyIndex : nat; currentModelIndex : nat }.

(** What one [fetch] gives back.  A body is read with [response.json()]. *)
Inductive JsonBody :=
  | BodyUnparseable (e : JsError)
      (** [response.json()] rejects with [e] *)
  | BodyNull (e : JsError)
      (** the body is [null]: reading a property of it throws [e] *)
  | BodyJson (errorMessage : option jsstring)
             (candidateText : option jsstring)
             (finishReason : option jsstring).
      (** [error?.message], [candidates[0]?.content?.parts?.[0]?.text] and
          [candidates?.[0]?.finishReason]; [None] is [undefined] *)

Inductive FetchOutcome :=
  | FetchRejected (e : JsError)
  | HttpResponse (status : N) (body : JsonBody).

(** [response.ok] *)
Definition ok (status : N) : bool := (200 <=? status)%N && (status <=? 299)%N.

(** How one pass through the [try] block ends. *)
Inductive AttemptOutcome :=
  | Returned (text : jsstring)
  | Continued (e : JsError)   (** [lastError = e; continue] of the status checks *)
  | Thrown (e : JsError).     (** an exception, handled by the [catch] block *)

(** [m || dflt] for an optional string [m]. *)
Definition orElse (m : option jsstring) (dflt : jsstring) : jsstring :=
  match m with
  | Some s => if truthy s then s else dflt
  | None => dflt
  end.

(** Lines 109-153: the classification of a response. *)
Definition classify (r : FetchOutcome) : AttemptOutcome :=
  match r with
  | FetchRejected e => Thrown e
  | HttpResponse status body =>
      if negb (ok status) then
        match body with
        | BodyNull e => Thrown e
        | _ =>
            let errorMessage :=
              match body with
              | BodyJson m _ _ => m
              | _ => None
              end in
            if (status =? 429)%N || (status =? 403)%N then
              Continued (mkError (orElse errorMessage
                                    (lit "Rate limit: " ++ ofN status)))
            else if (status =? 404)%N || (status =? 400)%N then
              Continued (mkError (orElse errorMessage
                                    (lit "Model error: " ++ ofN status)))
            else
              Thrown (mkError (orElse errorMessage
                        (lit "API request failed with status " ++ ofN status)))
        end
      else
        match body with
        | BodyUnparseable e => Thrown e
        | BodyNull e => Thrown e
        | BodyJson _ candidateText finishReason =>
            match candidateText with
            | Some ((_ :: _) as text) => Returned text
            | _ =>
                if bool_decide (finishReason = Some (lit "SAFETY")) then
                  Thrown (mkError (lit "Content blocked by safety filters"))
                else
                  Thrown (mkError (lit "Invalid response format from Gemini API"))
            end
        end
  end.

(** Lines 158-162: the errors the [catch] block retries without a delay. *)
Definition isRateLimit (e : JsError) : bool :=
  includes (lit "429") (message e) ||
  includes (lit "quota") (message e) ||
  includes (lit "rate limit") (message e).

(** The result of a call, with what an observer of the network sees: the
    pairs used, in order, the number of 500 ms delays, and the cursor the
    call leaves behind. *)
Inductive Completion :=
  | Resolved (text : jsstring)
  | Rejected (e : JsError)
  | Diverged.   (** the model ran out of fuel *)

Record Run := mkRun {
  completion : Completion;
  attempts : list (option jsstring * option jsstring);
  delays : nat;
  cursor : Cursor
}.

Section Keys.
(** [API_KEYS] is read from the environment when the module is loaded; the
    model list is a parameter as well, [MODELS] being its value in the
    source. *)
Context (API_KEYS MODELS : list jsstring).

(** Lines 30-50.  An array read out of range is [undefined], that is [None]. *)
Definition getNextKeyAndModel (c : Cursor)
  : JsError + (option jsstring * option jsstring) * Cursor :=
  if bool_decide (length API_KEYS = 0) then
    inl (mkError (lit
      "No Gemini API keys configured. Please add your API keys to .env file."))
  else
    let apiKey := API_KEYS !! currentKeyIndex c in
    let model := MODELS !! currentModelIndex c in
    let m := S (currentModelIndex c) in
    if bool_decide (length MODELS ≤ m) then
      inr ((apiKey, model),
           mkCursor ((currentKeyIndex c + 1) `mod` length API_KEYS) 0)
    else
      inr ((apiKey, model), mkCursor (currentKeyIndex c) m).

(** The next [n] results of [getNextKeyAndModel], with the cursor threaded
    through; the list stops at a call that throws. *)
Fixpoint nextPairs (n : nat) (c : Cursor)
  : list (option jsstring * option jsstring) :=
  match n with
  | 0 => []
  | S n' =>
      match getNextKeyAndModel c with
      | inl _ => []
      | inr (p, c') => p :: nextPairs n' c'
      end
  end.

(** The cursor positions at which those calls are made. *)
Fixpoint nextPositions (n : nat) (c : Cursor) : list (nat * nat) :=
  match n with
  | 0 => []
  | S n' =>
      match getNextKeyAndModel c with
      | inl _ => []
      | inr (_, c') =>
          (currentKeyIndex c, currentModelIndex c) :: nextPositions n' c'
      end
  end.

(** The cursor stays inside both lists. *)
Definition inBounds (c : Cursor) : Prop :=
  currentKeyIndex c < length API_KEYS ∧ currentModelIndex c < length MODELS.

(** The rank of a cursor in the cycle of all pairs, and the cursor of a
    rank. *)
Definition linear (c : Cursor) : nat :=
  currentKeyIndex c * length MODELS + currentModelIndex c.

Definition position (p : nat) : nat * nat :=
  (p `div` length MODELS, p `mod` length MODELS).

(** The pair read at a cursor position. *)
Definition pairAt (p : nat * nat) : option jsstring * option jsstring :=
  (API_KEYS !! p.1, MODELS !! p.2).

(** The network, as the call sees it: the response to the attempt of a
    given number (counted from 1) made with a given pair. *)
Context (fetch : nat → option jsstring → option jsstring → FetchOutcome).

Definition totalCombinations : nat := length API_KEYS * length MODELS.

(** Lines 174-179: what the [throw] after the loop raises,
    [lastError || new Error(...)]. *)
Definition exhausted (lastError : option JsError) : JsError :=
  match lastError with
  | Some e => e
  | None =>
      mkError (lit "All " ++ ofNat totalCombinations ++
        lit " API key/model combinations exhausted. Please wait before retrying.")
  end.

(** Lines 72-171, the [while] loop.  Every pass takes one unit of [fuel]. *)
Fixpoint attemptLoop (fuel : nat) (attemptCount : nat)
    (lastError : option JsError) (c : Cursor)
    (tried : list (option jsstring * option jsstring)) (slept : nat) : Run :=
  if bool_decide (attemptCount < totalCombinations) then
    match fuel with
    | 0 => mkRun Diverged tried slept c
    | S fuel' =>
        match getNextKeyAndModel c with
        | inl e =>
            (* thrown before [attemptCount++] and caught below *)
            if isRateLimit e then
              attemptLoop fuel' attemptCount (Some e) c tried slept
            else
              attemptLoop fuel' attemptCount (Some e) c tried
                (if bool_decide (attemptCount < totalCombinations)
                 then S slept else slept)
        | inr ((apiKey, model), c') =>
            let attemptCount' := S attemptCount in
            let tried' := tried ++ [(apiKey, model)] in
            match classify (fetch attemptCount' apiKey model) with
            | Returned text => mkRun (Resolved text) tried' slept c'
            | Continued e =>
                attemptLoop fuel' attemptCount' (Some e) c' tried' slept
            | Thrown e =>
                if isRateLimit e then
                  attemptLoop fuel' attemptCount' (Some e) c' tried' slept
                else
                  attemptLoop fuel' attemptCount' (Some e) c' tried'
                    (if bool_decide (attemptCount' < totalCombinations)
                     then S slept else slept)
            end
        end
    end
  else
    mkRun (Rejected (exhausted lastError)) tried slept c.

(** Lines 56-180.  The call starts from the cursor the previous call left. *)
Definition callGemini (c : Cursor) : Run :=
  if bool_decide (length API_KEYS = 0) then
    mkRun
      (Rejected (mkError (lit
         "Gemini API keys not configured. Please add your API keys to .env file.")))
      [] 0 c
  else attemptLoop totalCombinations 0 None c [] 0.

(** ** Observations used by the specification *)

(** The outcomes of the [n] attempts that follow attempt number [a], when
    none of them ends the loop: attempt [a + 1 + i] is made with the [i]-th
    pair handed out from the cursor [c]. *)
Definition outcomes (a n : nat) (c : Cursor) : list AttemptOutcome :=
  imap (λ i p, classify (fetch (S (a + i)) p.1 p.2)) (nextPairs n c).

(** The error an attempt records in [lastError], if it fails. *)
Definition failureOf (o : AttemptOutcome) : option JsError :=
  match o with
  | Returned _ => None
  | Continued e | Thrown e => Some e
  end.

(** The first successful outcome of a list, with its index. *)
Fixpoint firstReturned (os : list AttemptOutcome) : option (nat * jsstring) :=
  match os with
  | [] => None
  | Returned text :: _ => Some (0, text)
  | _ :: os' => prod_map S id <$> firstReturned os'
  end.

(** The value of [lastError] after a list of outcomes. *)
Definition lastFailure (lastError : option JsError) (os : list AttemptOutcome)
  : option JsError :=
  foldl (λ acc o, match failureOf o with Some e => Some e | None => acc end)
        lastError os.

End Keys.

(** The statuses the loop retries with the next pair: 429, 403, 404, 400. *)
Definition retryableStatus (status : N) : bool :=
  (status =? 429)%N || (status =? 403)%N ||
  (status =? 404)%N || (status =? 400)%N.

Definition isRetryable (r : FetchOutcome) : Prop :=
  match r with
  | HttpResponse status _ => retryableStatus status = true
  | FetchRejected _ => False
  end.


(** ** Fallback parsers (lines 458-499) *)

Record Flashcard := mkFlashcard { question : jsstring; answer : jsstring }.

(** A multiple-choice question.  The records come from [JSON.parse] of the
    model output, so the correct letter may be missing. *)
Record Question := mkQuestion {
  mcqType : jsstring;
  mcqQuestion : jsstring;
  mcqOptions : list jsstring;
  mcqCorrect : option jsstring;
  mcqExplanation : jsstring
}.

(** [line.match(/^p/i)], with what [line.replace(/^p/i, "")] leaves. *)
Definition matchPrefix (p line : jsstring) : option jsstring :=
  if startsWithCI p line then Some (drop (length p) line) else None.

(** [/^(Q|Question):/i] *)
Definition matchQ (line : jsstring) : option jsstring :=
  match matchPrefix (lit "Q:") line with
  | Some rest => Some rest
  | None => matchPrefix (lit "Question:") line
  end.

(** [/^(A|Answer):/i] *)
Definition matchA (line : jsstring) : option jsstring :=
  match matchPrefix (lit "A:") line with
  | Some rest => Some rest
  | None => matchPrefix (lit "Answer:") line
  end.

(** [text.split("\n").filter((line) => line.trim())] *)
Definition nonBlankLines (text : jsstring) : list jsstring :=
  filter (λ line, truthy (trim line) = true) (splitLines text).

(** One pass of the [for] loop over the lines; the state is the array
    [flashcards] and the variable [currentQ]. *)
Definition flashcardStep (st : list Flashcard * option Flashcard)
    (line : jsstring) : list Flashcard * option Flashcard :=
  let '(flashcards, currentQ) := st in
  match matchQ line with
  | Some rest =>
      (match currentQ with
       | Some q => flashcards ++ [q]
       | None => flashcards
       end,
       Some (mkFlashcard (trim rest) []))
  | None =>
      match matchA line, currentQ with
      | Some rest, Some q => (flashcards, Some (mkFlashcard (question q) (trim rest)))
      | _, _ => (flashcards, currentQ)
      end
  end.

(** The array [flashcards] when the function reaches its [return]. *)
Definition extractFlashcards (text : jsstring) : list Flashcard :=
  let '(flashcards, currentQ) :=
    foldl flashcardStep ([], None) (nonBlankLines text) in
  match currentQ with
  | Some q => if truthy (answer q) then flashcards ++ [q] else flashcards
  | None => flashcards
  end.

Definition placeholderFlashcard : Flashcard :=
  mkFlashcard (lit "Sample Question")
              (lit "Sample Answer - Generation failed, please try again.").

Definition parseFlashcardsManually (text : jsstring) : list Flashcard :=
  let flashcards := extractFlashcards text in
  if bool_decide (0 < length flashcards) then flashcards
  else [placeholderFlashcard].

Definition placeholderQuestion : Question :=
  mkQuestion (lit "mcq")
    (lit "Sample question - Generation failed, please try again.")
    [lit "A) Option 1"; lit "B) Option 2"; lit "C) Option 3"; lit "D) Option 4"]
    (Some (lit "A"))
    (lit "Please regenerate questions.").

Definition parseQuestionsManually (text : jsstring) : list Question :=
  [placeholderQuestion].

(** A card read off the lines: its question is what follows the marker of a
    question line, trimmed, and its answer is empty or what follows the
    marker of an answer line, trimmed. *)
Definition readFrom (lines : list jsstring) (card : Flashcard) : Prop :=
  (∃ line rest, line ∈ lines ∧ matchQ line = Some rest
                ∧ question card = trim rest) ∧
  (answer card = [] ∨
   ∃ line rest, line ∈ lines ∧ matchA line = Some rest
                ∧ answer card = trim rest).

(** A model output that is not JSON: two cards, the second one after a
    line that is neither a question nor an answer. *)
Definition sampleCards : jsstring :=
  lit "Q: What is 2+2?" ++ [10%N] ++ lit "A: 4" ++ [10%N; 10%N] ++
  lit "Here is another one" ++ [10%N] ++
  lit "question:  Capital of France? " ++ [10%N] ++ lit "Answer: Paris".

(** ** The cards a list of lines spells out *)

(** The answer of a card, read off the lines that follow its question
    line: the text of the last answer line before the next question line,
    trimmed; [found] is the answer read so far, the empty string at first. *)
Fixpoint answerAmong (lines : list jsstring) (found : jsstring) : jsstring :=
  match lines with
  | [] => found
  | line :: rest =>
      match matchQ line with
      | Some _ => found
      | None =>
          match matchA line with
          | Some a => answerAmong rest (trim a)
          | None => answerAmong rest found
          end
      end
  end.

(** One card for every question line, in the order of the lines: the
    question is what follows the marker, trimmed, and the answer is read off
    the lines up to the next question line. *)
Fixpoint cardsOfLines (lines : list jsstring) : list Flashcard :=
  match lines with
  | [] => []
  | line :: rest =>
      match matchQ line with
      | Some q => mkFlashcard (trim q) (answerAmong rest []) :: cardsOfLines rest
      | None => cardsOfLines rest
      end
  end.

(** The last card counts only when it has an answer. *)
Definition answeredLast (cards : list Flashcard) : list Flashcard :=
  match last cards with
  | Some q => if truthy (answer q) then cards else take (length cards - 1) cards
  | None => []
  end.

(** A line that is neither a question line nor an answer line. *)
Definition plainLine (line : jsstring) : Prop :=
  matchQ line = None ∧ matchA line = None.

(** ** The parse of a model output (lines 340-351 and 443-452) *)

(** The longest prefix of [s] that ends with a closing bracket. *)
Fixpoint upToLastBracket (s : jsstring) : option jsstring :=
  match s with
  | [] => None
  | c :: s' =>
      match upToLastBracket s' with
      | Some m => Some (c :: m)
      | None => if (c =? 93)%N then Some [c] else None
      end
  end.

(** [response.match(/\[[\s\S]*\]/)], the text matched: the match is tried
    at every position from the left, and at an opening bracket the greedy
    star runs to the last closing bracket that follows. *)
Fixpoint matchBrackets (s : jsstring) : option jsstring :=
  match s with
  | [] => None
  | c :: s' =>
      if (c =? 91)%N then
        match upToLastBracket s' with
        | Some m => Some (c :: m)
        | None => matchBrackets s'
        end
      else matchBrackets s'
  end.

Section Json.
(** [JSON.parse], which returns a value or throws. *)
Context {JsonValue : Type} (jsonParse : jsstring → JsError + JsonValue).

(** Lines 340-351 of [generateFlashcards]: what the function returns for the
    response of the model, the parsed value or the cards of the fallback. *)
Definition flashcardsOfResponse (response : jsstring)
  : JsonValue + list Flashcard :=
  match matchBrackets response with
  | Some jsonMatch =>
      match jsonParse jsonMatch with
      | inr value => inl value
      | inl _ => inr (parseFlashcardsManually response)
      end
  | None => inr (parseFlashcardsManually response)
  end.

(** Lines 443-452 of [generatePracticeQuestions]. *)
Definition questionsOfResponse (response : jsstring)
  : JsonValue + list Question :=
  match matchBrackets response with
  | Some jsonMatch =>
      match jsonParse jsonMatch with
      | inr value => inl value
      | inl _ => inr (parseQuestionsManually response)
      end
  | None => inr (parseQuestionsManually response)
  end.

End Json.

(** ** Sample networks, used to run the loop on concrete inputs *)

(** Every attempt answers 429 with an empty JSON object. *)
Definition fetchAll429 (i : nat) (apiKey model : option jsstring) : FetchOutcome :=
  HttpResponse 429 (BodyJson None None None).

(** The first attempt answers 500, every later one succeeds. *)
Definition fetch500ThenOk (i : nat) (apiKey model : option jsstring)
  : FetchOutcome :=
  if bool_decide (i = 1) then HttpResponse 500 (BodyJson None None None)
  else HttpResponse 200 (BodyJson None (Some (lit "ok")) None).

End AiService.

(* ===================================================================== *)
(** * src/utils/textProcessing.js *)
(* ===================================================================== *)

Module TextProcessing.

(** [replace(/\r\n/g, "\n")] *)
Fixpoint replaceCrLf (s : jsstring) : jsstring :=
  match s with
  | [] => []
  | c :: t =>
      match t with
      | d :: t' =>
          if (c =? 13)%N && (d =? 10)%N then 10%N :: replaceCrLf t'
          else c :: replaceCrLf t
      | [] => [c]
      end
  end.

(** [replace(/\n{3,}/g, "\n\n")]: of a run of line feeds only the first
    two are kept; [run] is the length of the run read so far. *)
Fixpoint collapseNewlines (run : nat) (s : jsstring) : jsstring :=
  match s with
  | [] => []
  | c :: s' =>
      if (c =? 10)%N then
        if bool_decide (run < 2) then c :: collapseNewlines (S run) s'
        else collapseNewlines (S run) s'
      else c :: collapseNewlines 0 s'
  end.

(** [replace(/[ \t]+/g, " ")]: a run of spaces and tabs becomes one space. *)
Fixpoint collapseBlanks (inRun : bool) (s : jsstring) : jsstring :=
  match s with
  | [] => []
  | c :: s' =>
      if (c =? 32)%N || (c =? 9)%N then
        if inRun then collapseBlanks true s'
        else 32%N :: collapseBlanks true s'
      else c :: collapseBlanks false s'
  end.

(** Lines 8-14. *)
Definition normalizeText (text : jsstring) : jsstring :=
  trim (collapseBlanks false (collapseNewlines 0 (replaceCrLf text))).

(** [words.slice(start, end)] for integral arguments: a negative index
    counts from the end of the array. *)
Definition slice {A} (l : list A) (start stop : Z) : list A :=
  let len := Z.of_nat (length l) in
  let k := if (start <? 0)%Z then Z.max (len + start) 0 else Z.min start len in
  let final := if (stop <? 0)%Z then Z.max (len + stop) 0 else Z.min stop len in
  take (Z.to_nat (final - k)) (drop (Z.to_nat k) l).

(** Line 33: [Math.floor(maxWords * (overlapPercent / 100))]. *)
Definition overlapWordsOf (maxWords overlapPercent : Z) : option Z :=
  JsNumber.floor
    (JsNumber.mul (JsNumber.ofZ maxWords)
       (JsNumber.div (JsNumber.ofZ overlapPercent) (JsNumber.ofZ 100))).

(** Lines 36-44, the [while] loop; every pass takes one unit of [fuel], and
    [None] is a loop that has not ended when the fuel is spent. *)
Fixpoint chunkLoop (fuel : nat) (words : list jsstring)
    (maxWords overlapWords : Z) (startIdx : Z) (chunks : list jsstring)
  : option (list jsstring) :=
  let len := Z.of_nat (length words) in
  if (startIdx <? len)%Z then
    match fuel with
    | 0 => None
    | S fuel' =>
        let endIdx := Z.min (startIdx + maxWords) len in
        let chunk := join (lit " ") (slice words startIdx endIdx) in
        let chunks' := chunks ++ [chunk] in
        if (len <=? endIdx)%Z then Some chunks'
        else chunkLoop fuel' words maxWords overlapWords
               (endIdx - overlapWords) chunks'
    end
  else Some chunks.

(** Lines 23-47.  When the loop advances at all it ends within
    [length words] passes; [None] stands for the call that never returns
    (or whose overlap is not a finite number). *)
Definition chunkText (text : jsstring) (maxWords overlapPercent : Z)
  : option (list jsstring) :=
  let normalized := normalizeText text in
  let words := splitWs normalized in
  if (Z.of_nat (length words) <=? maxWords)%Z then Some [normalized]
  else
    overlapWords ← overlapWordsOf maxWords overlapPercent;
    chunkLoop (S (length words)) words maxWords overlapWords 0 [].

(** [text.trim().split(/\s+/).length] *)
Definition countWords (text : jsstring) : nat := length (splitWs (trim text)).

(** A text of [n] one-letter words separated by single spaces. *)
Definition sampleText (n : nat) : jsstring :=
  join (lit " ") (replicate n (lit "w")).

End TextProcessing.

(* ===================================================================== *)
(** * src/utils/storage.js *)
(* ===================================================================== *)

(** The store is [localStorage].  Every value the code keeps there is
    written with [JSON.stringify] and read back with [JSON.parse]; the model
    keeps the values themselves.  Identifiers are the integers [Date.now()]
    returns; instants ([new Date().toISOString()]) are kept as the clock
    reading they print. *)
Module Storage.
Import AiService.

Record UserProfile := mkUserProfile {
  userId : Z;
  userName : jsstring;
  userEmail : jsstring;
  userCreatedAt : Z
}.

(** What the content pipeline hands to [saveNoteToHistory]; the fields
    [id], [userId] and [createdAt] of a stored note are set by the store. *)
Record NoteData := mkNoteData {
  title : jsstring;
  subject : jsstring;
  summary : jsstring;
  keyPoints : list jsstring;
  flashcards : list Flashcard;
  questions : list Question;
  rawText : jsstring;
  wordCount : nat
}.

Record Note := mkNote {
  noteId : Z;
  noteUserId : Z;
  noteCreatedAt : Z;
  noteData : NoteData
}.

Record QuizResult := mkQuizResult {
  resultNoteId : Z;
  resultNoteTitle : jsstring;
  resultNoteSubject : jsstring;
  questionIndex : nat;
  questionType : jsstring;
  questionText : jsstring;
  userAnswer : option jsstring;
  correctAnswer : option jsstring;
  isCorrect : bool;
  score : Z;
  timestamp : Z;
  resultUserId : option Z
}.

(** The saved state of the quiz of one note. *)
Record QuizProgress := mkQuizProgress {
  selectedAnswers : gmap nat jsstring;
  showAnswers : gmap nat bool;
  questionScores : gmap nat Z;
  allQuestionsChecked : bool;
  lastUpdated : option Z
}.

Record Settings := mkSettings {
  defaultDepth : jsstring;
  preferredLanguage : jsstring;
  defaultFormat : jsstring
}.

(** The per-user blob.  A field that is absent from the stored object is
    [None]: [quizProgress] is absent until the first quiz is saved, and the
    code guards the reads of [notes] and [quizResults] with [|| []]. *)
Record UserData := mkUserData {
  profile : option UserProfile;
  notes : option (list Note);
  quizResults : option (list QuizResult);
  quizProgress : option (gmap Z QuizProgress);
  settings : option Settings
}.

Record LocalStorage := mkLocalStorage {
  usersList : list UserProfile;       (** key [student_notes_users] *)
  currentUser : option Z;             (** key [student_notes_current_user] *)
  userBlobs : gmap Z UserData         (** keys [student_notes_user_<id>] *)
}.

Definition defaultSettings : Settings :=
  mkSettings (lit "medium") (lit "english") (lit "bullets").

(** Lines 15-18. *)
Definition getAllUsers (st : LocalStorage) : list UserProfile := usersList st.

(** Lines 64-70. *)
Definition getCurrentUser (st : LocalStorage) : option UserProfile :=
  match currentUser st with
  | None => None
  | Some id => snd <$> list_find (λ u, userId u = id) (getAllUsers st)
  end.

(** Lines 109-123. *)
Definition getUserData (st : LocalStorage) (id : Z) : UserData :=
  match userBlobs st !! id with
  | Some data => data
  | None => mkUserData None (Some []) (Some []) None (Some defaultSettings)
  end.

(** Lines 128-133. *)
Definition saveUserData (st : LocalStorage) (id : Z) (data : UserData)
  : LocalStorage :=
  mkLocalStorage (usersList st) (currentUser st) (<[id := data]> (userBlobs st)).

(** [userData.notes || []], [userData.quizResults || []] and
    [userData.quizProgress?.[noteId]]. *)
Definition notesOf (data : UserData) : list Note := default [] (notes data).

Definition quizResultsOf (data : UserData) : list QuizResult :=
  default [] (quizResults data).

Definition progressOf (data : UserData) (id : Z) : option QuizProgress :=
  quizProgress data ≫= (λ m, m !! id).

(** Lines 165-187.  [nowId] is the value of [Date.now()] and [nowDate] the
    instant of [new Date()]. *)
Definition saveNoteToHistory (st : LocalStorage) (note : NoteData)
    (nowId nowDate : Z) : JsError + Note * LocalStorage :=
  match getCurrentUser st with
  | None =>
      inl (mkError (lit
        "No user selected. Please create or select a user first."))
  | Some user =>
      let userData := getUserData st (userId user) in
      let noteWithTimestamp := mkNote nowId (userId user) nowDate note in
      let unshifted := noteWithTimestamp :: notesOf userData in
      let userData' :=
        mkUserData (profile userData) (Some (take 50 unshifted))
          (quizResults userData) (quizProgress userData) (settings userData) in
      inr (noteWithTimestamp, saveUserData st (userId user) userData')
  end.

(** Lines 192-230. *)
Definition deleteNoteFromHistory (st : LocalStorage) (id : Z) : LocalStorage :=
  match getCurrentUser st with
  | None => st
  | Some user =>
      let userData := getUserData st (userId user) in
      let notes' := filter (λ note, noteId note ≠ id) (notesOf userData) in
      let quizResults' :=
        filter (λ result, resultNoteId result ≠ id) (quizResultsOf userData) in
      let quizProgress' :=
        match quizProgress userData with
        | Some m =>
            match m !! id with
            | Some _ => Some (delete id m)
            | None => Some m
            end
        | None => None
        end in
      saveUserData st (userId user)
        (mkUserData (profile userData) (Some notes') (Some quizResults')
           quizProgress' (settings userData))
  end.

(** The key of a quiz result. *)
Definition resultKey (r : QuizResult) : Z * nat :=
  (resultNoteId r, questionIndex r).

(** Lines 282-327.  [now] is the instant of [new Date()]. *)
Definition saveQuizResult (st : LocalStorage) (result : QuizResult) (now : Z)
  : LocalStorage :=
  match getCurrentUser st with
  | None => st
  | Some user =>
      let userData := getUserData st (userId user) in
      let results := quizResultsOf userData in
      let existingIndex :=
        fst <$> list_find (λ r, resultNoteId r = resultNoteId result
                                ∧ questionIndex r = questionIndex result)
                          results in
      let resultToSave :=
        mkQuizResult (resultNoteId result) (resultNoteTitle result)
          (resultNoteSubject result) (questionIndex result)
          (questionType result) (questionText result) (userAnswer result)
          (correctAnswer result) (isCorrect result) (score result)
          now (Some (userId user)) in
      let results' :=
        match existingIndex with
        | Some i => <[i := resultToSave]> results
        | None => results ++ [resultToSave]
        end in
      saveUserData st (userId user)
        (mkUserData (profile userData) (notes userData) (Some results')
           (quizProgress userData) (settings userData))
  end.

(** Lines 261-277. *)
Definition getQuizResults (st : LocalStorage) : list QuizResult :=
  match getCurrentUser st with
  | None => []
  | Some user => quizResultsOf (getUserData st (userId user))
  end.

(** Lines 363-375. *)
Definition saveQuizProgress (st : LocalStorage) (id : Z)
    (progress : QuizProgress) (now : Z) : LocalStorage :=
  match getCurrentUser st with
  | None => st
  | Some user =>
      let userData := getUserData st (userId user) in
      let entry :=
        mkQuizProgress (selectedAnswers progress) (showAnswers progress)
          (questionScores progress) (allQuestionsChecked progress) (Some now) in
      saveUserData st (userId user)
        (mkUserData (profile userData) (notes userData) (quizResults userData)
           (Some (<[id := entry]> (default ∅ (quizProgress userData))))
           (settings userData))
  end.

(** ** Users (lines 23-77 and 138-149) *)

(** Lines 23-59.  [nowId] is the value of [Date.now()] and [nowDate] the
    instant of [new Date()]; the blob of a new user has no [quizProgress]. *)
Definition createUser (st : LocalStorage) (name email : jsstring)
    (nowId nowDate : Z) : JsError + UserProfile * LocalStorage :=
  let users := getAllUsers st in
  match list_find (λ u, userEmail u = email) users with
  | Some _ => inl (mkError (lit "User with this email already exists"))
  | None =>
      let newUser := mkUserProfile nowId name email nowDate in
      let userData :=
        mkUserData (Some newUser) (Some []) (Some []) None
          (Some defaultSettings) in
      inr (newUser,
           mkLocalStorage (users ++ [newUser]) (currentUser st)
             (<[nowId := userData]> (userBlobs st)))
  end.

(** A safe integer: every number of this magnitude is an integer that
    [toString] renders in decimal. *)
Definition safeId (id : Z) : Prop := (Z.abs id < 2 ^ 53)%Z.

(** Lines 75-77.  The code writes [userId.toString()], which
    [getCurrentUser] reads back with [parseInt].  For a safe integer (below
    [2^53] in magnitude, as every value of [Date.now()] is) the rendering is
    the decimal one and [parseInt] gives the identifier back; the model is
    this case, and stores the identifier.  From [10^21] on the rendering is
    in exponent notation, of which [parseInt] reads the first digit only:
    what is proved of [switchUser] on an identifier that is not a clock
    reading assumes [safeId]. *)
Definition switchUser (st : LocalStorage) (id : Z) : LocalStorage :=
  mkLocalStorage (usersList st) (Some id) (userBlobs st).

(** Lines 138-149. *)
Definition deleteUser (st : LocalStorage) (id : Z) : LocalStorage :=
  let filtered := filter (λ u, userId u ≠ id) (getAllUsers st) in
  mkLocalStorage filtered
    (if decide (currentUser st = Some id) then None else currentUser st)
    (delete id (userBlobs st)).

(** ** History, progress and settings of the current user *)

(** Lines 154-160. *)
Definition getNotesHistory (st : LocalStorage) : list Note :=
  match getCurrentUser st with
  | None => []
  | Some user => notesOf (getUserData st (userId user))
  end.

(** Lines 235-256. *)
Definition clearHistory (st : LocalStorage) : LocalStorage :=
  match getCurrentUser st with
  | None => st
  | Some user =>
      let userData := getUserData st (userId user) in
      saveUserData st (userId user)
        (mkUserData (profile userData) (Some []) (Some []) (Some ∅)
           (settings userData))
  end.

(** Lines 352-358; [None] is [null]. *)
Definition getQuizProgress (st : LocalStorage) (id : Z) : option QuizProgress :=
  match getCurrentUser st with
  | None => None
  | Some user => progressOf (getUserData st (userId user)) id
  end.

(** Lines 380-419. *)
Definition resetNoteQuizData (st : LocalStorage) (id : Z) : LocalStorage :=
  match getCurrentUser st with
  | None => st
  | Some user =>
      let userData := getUserData st (userId user) in
      let quizResults' :=
        filter (λ result, resultNoteId result ≠ id) (quizResultsOf userData) in
      let quizProgress' :=
        match quizProgress userData with
        | Some m =>
            match m !! id with
            | Some _ => Some (delete id m)
            | None => Some m
            end
        | None => None
        end in
      saveUserData st (userId user)
        (mkUserData (profile userData) (notes userData) (Some quizResults')
           quizProgress' (settings userData))
  end.

(** Lines 424-442. *)
Definition getSettings (st : LocalStorage) : Settings :=
  match getCurrentUser st with
  | None => defaultSettings
  | Some user => default defaultSettings (settings (getUserData st (userId user)))
  end.

(** Lines 447-454. *)
Definition saveSettings (st : LocalStorage) (s : Settings) : LocalStorage :=
  match getCurrentUser st with
  | None => st
  | Some user =>
      let userData := getUserData st (userId user) in
      saveUserData st (userId user)
        (mkUserData (profile userData) (notes userData) (quizResults userData)
           (quizProgress userData) (Some s))
  end.

(** The object [exportAllData] builds: the current user, the fields of the
    user's blob spread beside it, and the instant of the export. *)
Record Exported := mkExported {
  exportedUser : UserProfile;
  exportedData : UserData;
  exportedAt : Z
}.

(** Lines 459-469; [None] is [null]. *)
Definition exportAllData (st : LocalStorage) (now : Z) : option Exported :=
  match getCurrentUser st with
  | None => None
  | Some user => Some (mkExported user (getUserData st (userId user)) now)
  end.

(** Lines 474-485: a field of [data] that is absent is not taken over, and
    [quizProgress] is never read. *)
Definition importData (st : LocalStorage) (data : Exported) : LocalStorage :=
  match getCurrentUser st with
  | None => st
  | Some user =>
      let userData := getUserData st (userId user) in
      let notes' :=
        match notes (exportedData data) with
        | Some l => Some l
        | None => notes userData
        end in
      let quizResults' :=
        match quizResults (exportedData data) with
        | Some l => Some l
        | None => quizResults userData
        end in
      let settings' :=
        match settings (exportedData data) with
        | Some s => Some s
        | None => settings userData
        end in
      saveUserData st (userId user)
        (mkUserData (profile userData) notes' quizResults'
           (quizProgress userData) settings')
  end.

(** ** A sample store, used to run the operations on concrete inputs *)

Definition sampleUser : UserProfile :=
  mkUserProfile 1700000000000 (lit "Asha") (lit "asha@example.org") 1700000000000.

Definition sampleNoteData (name : string) : NoteData :=
  mkNoteData (lit name) (lit "General") (lit "- a point") [lit "a point"]
    [mkFlashcard (lit "What?") (lit "That.")]
    [mkQuestion (lit "mcq") (lit "Which one?")
       [lit "A) one"; lit "B) two"; lit "C) three"; lit "D) four"]
       (Some (lit "B")) (lit "Two it is.")]
    (lit "a text") 2.

Definition sampleResult (note : Z) (index : nat) (answer : string)
    (mark : Z) : QuizResult :=
  mkQuizResult note (lit "First") (lit "General") index (lit "mcq")
    (lit "Which one?") (Some (lit answer)) (Some (lit "B"))
    (bool_decide (mark = 1%Z)) mark 1700000005000 (Some 1700000000000%Z).

(** One user, two notes, three quiz results and the quiz progress of the
    note 1700000001000. *)
Definition sampleStore : LocalStorage :=
  mkLocalStorage [sampleUser] (Some 1700000000000%Z)
    {[ 1700000000000%Z :=
         mkUserData (Some sampleUser)
           (Some [ mkNote 1700000002000 1700000000000 1700000002000
                     (sampleNoteData "Second");
                   mkNote 1700000001000 1700000000000 1700000001000
                     (sampleNoteData "First") ])
           (Some [ sampleResult 1700000001000 0 "B" 1;
                   sampleResult 1700000002000 0 "A" (-1);
                   sampleResult 1700000001000 1 "C" (-1) ])
           (Some {[ 1700000001000%Z :=
                      mkQuizProgress {[ 0 := lit "B" ]} {[ 0 := true ]}
                        {[ 0 := 1%Z ]} false (Some 1700000005000%Z) ]})
           (Some defaultSettings) ]}.

(** ** Notions used by the specification *)

(** Two stores show the same to the user [b]: the list of users and the
    blob of [b] are the same. *)
Definition sameFor (b : Z) (st st' : LocalStorage) : Prop :=
  getAllUsers st' = getAllUsers st ∧ getUserData st' b = getUserData st b.

(** The sample store after a second user was created, selected, given a
    note of its own, and the first user selected again. *)
Definition sampleStoreTwo : LocalStorage :=
  match createUser sampleStore (lit "Ravi") (lit "ravi@example.org")
          1700000100000 1700000100001 with
  | inr (ravi, st1) =>
      match saveNoteToHistory (switchUser st1 (userId ravi))
              (sampleNoteData "Of Ravi") 1700000100002 1700000100003 with
      | inr (_, st2) => switchUser st2 (userId sampleUser)
      | inl _ => sampleStore
      end
  | inl _ => sampleStore
  end.

(** The sample store after three more notes were saved: five notes. *)
Definition sampleStoreFive : LocalStorage :=
  foldl (λ st n,
           match saveNoteToHistory st (sampleNoteData "More")
                   (1700000003000 + n) (1700000003000 + n) with
           | inr (_, st') => st'
           | inl _ => st
           end)
        sampleStore [0%Z; 1%Z; 2%Z].

End Storage.

(* ===================================================================== *)
(** * The output screen component *)
(* ===================================================================== *)

Module Quiz.
Import AiService Storage.

(** The state variables of the component. *)
Record QuizState := mkQuizState {
  uiSelectedAnswers : gmap nat jsstring;
  uiShowAnswers : gmap nat bool;
  uiQuestionScores : gmap nat Z;
  uiAllQuestionsChecked : bool
}.

(** The scoring of one answer in [handleShowAnswer]: [userAnswer] is
    [selectedAnswers[questionIndex]], [None] when nothing is selected, and
    the comparison is [===]. *)
Definition scoreAnswer (userAnswer correct : option jsstring) : Z * bool :=
  if decide (userAnswer = correct) then (1%Z, true) else ((-1)%Z, false).

(** [handleShowAnswer(questionIndex)].  The three clock readings are the
    ones of the result, of [saveQuizResult] and of [saveQuizProgress].
    [None] is the [TypeError] of reading [correct] off a question that does
    not exist. *)
Definition handleShowAnswer (st : LocalStorage) (ui : QuizState)
    (notesData : Note) (index : nat) (tResult tSaved tProgress : Z)
  : option (QuizResult * QuizState * LocalStorage) :=
  question ← questions (noteData notesData) !! index;
  let userAnswer := uiSelectedAnswers ui !! index in
  let '(score, isCorrect) := scoreAnswer userAnswer (mcqCorrect question) in
  let quizResultData :=
    mkQuizResult (noteId notesData) (title (noteData notesData))
      (subject (noteData notesData)) index (mcqType question)
      (mcqQuestion question) userAnswer (mcqCorrect question)
      isCorrect score tResult None in
  let st1 := saveQuizResult st quizResultData tSaved in
  let newShowAnswers := <[index := true]> (uiShowAnswers ui) in
  let newQuestionScores := <[index := score]> (uiQuestionScores ui) in
  let allChecked :=
    bool_decide (size newShowAnswers = length (questions (noteData notesData))) in
  let updatedSelectedAnswers :=
    match userAnswer with
    | Some a => <[index := a]> (uiSelectedAnswers ui)
    | None => uiSelectedAnswers ui
    end in
  let st2 :=
    saveQuizProgress st1 (noteId notesData)
      (mkQuizProgress updatedSelectedAnswers newShowAnswers newQuestionScores
         allChecked None) tProgress in
  Some (quizResultData,
        mkQuizState (uiSelectedAnswers ui) newShowAnswers newQuestionScores
          allChecked,
        st2).

(** The effect that runs when the component mounts: the saved progress of
    the note, if there is one, becomes the state of the component.  A note
    whose [id] is [0] is skipped by the test [notesData?.id]. *)
Definition loadSavedProgress (st : LocalStorage) (notesData : Note)
    (ui : QuizState) : QuizState :=
  if bool_decide (noteId notesData ≠ 0%Z) then
    match getQuizProgress st (noteId notesData) with
    | Some savedProgress =>
        mkQuizState (selectedAnswers savedProgress) (showAnswers savedProgress)
          (questionScores savedProgress) (allQuestionsChecked savedProgress)
    | None => ui
    end
  else ui.

(** [handleResetQuestions()]; [confirmed] is the answer to
    [window.confirm], [now] the instant of [saveQuizProgress]. *)
Definition handleResetQuestions (st : LocalStorage) (ui : QuizState)
    (notesData : Note) (confirmed : bool) (now : Z) : QuizState * LocalStorage :=
  if confirmed then
    (mkQuizState ∅ ∅ ∅ false,
     saveQuizProgress st (noteId notesData)
       (mkQuizProgress ∅ ∅ ∅ false None) now)
  else (ui, st).

End Quiz.

(* ===================================================================== *)
(** * src/components/Dashboard.jsx *)
(* ===================================================================== *)

Module Dashboard.
Import Storage.

(** [parseFloat((((totalScore + questionsAttempted) /
    (2 * questionsAttempted)) * 100).toFixed(1))] when
    [questionsAttempted > 0], and [0] otherwise.  The value is a number of
    tenths of a percent: [667] is 66.7.  [None] is NaN. *)
Definition percentage (totalScore : Z) (questionsAttempted : nat) : option Z :=
  if bool_decide (0 < questionsAttempted) then
    JsNumber.toFixed1
      (JsNumber.mul
         (JsNumber.div
            (JsNumber.ofZ (totalScore + Z.of_nat questionsAttempted))
            (JsNumber.ofZ (2 * Z.of_nat questionsAttempted)))
         (JsNumber.ofZ 100))
  else Some 0%Z.

(** The sum [totalScore += result.score || 0] over the results. *)
Definition totalScoreOf (results : list QuizResult) : Z :=
  foldl (λ acc result, (acc + score result)%Z) 0%Z results.

Record Stats := mkStats {
  correctAnswers : nat;
  incorrectAnswers : nat;
  totalMarks : Z;
  averageScore : option Z;
  questionsAttempted : nat
}.

(** Lines 43-111, the quiz statistics of [calculateStats]. *)
Definition calculateStats (st : LocalStorage) : Stats :=
  let quizResults := getQuizResults st in
  let totalScore := totalScoreOf quizResults in
  let attempted := length quizResults in
  let correctQuestions := length (filter (λ r, isCorrect r = true) quizResults) in
  let incorrectQuestions :=
    length (filter (λ r, isCorrect r ≠ true) quizResults) in
  mkStats correctQuestions incorrectQuestions totalScore
    (percentage totalScore attempted) attempted.

Record Performance := mkPerformance {
  perfScore : Z;
  perfAttempted : nat;
  perfCorrect : nat;
  perfPercentage : option Z
}.

(** Lines 197-235; [None] is the [null] returned when the note has no
    result. *)
Definition getNotePerformance (st : LocalStorage) (id : Z)
  : option Performance :=
  let noteResults :=
    filter (λ result, resultNoteId result = id) (getQuizResults st) in
  if bool_decide (length noteResults = 0) then None
  else
    let totalScore := totalScoreOf noteResults in
    let attempted := length noteResults in
    let correctCount := length (filter (λ r, isCorrect r = true) noteResults) in
    Some (mkPerformance totalScore attempted correctCount
            (percentage totalScore attempted)).

(** One entry of the recent activity.  The field [date] of the source is
    read off [note.timestamp], a property the stored notes do not have; it
    is left out. *)
Record Activity := mkActivity {
  activityTitle : jsstring;
  activitySubject : jsstring;
  activityFlashcards : nat;
  activityQuestions : nat
}.

(** Lines 116-125: [notesList.slice(-5).reverse().map(...)]. *)
Definition recentActivity (notesList : list Note) : list Activity :=
  (λ note,
     mkActivity
       (AiService.orElse (Some (title (noteData note))) (lit "Untitled"))
       (AiService.orElse (Some (subject (noteData note))) (lit "General"))
       (length (flashcards (noteData note)))
       (length (questions (noteData note))))
  <$> reverse (TextProcessing.slice notesList (-5)
                 (Z.of_nat (length notesList))).

(** ** Notions used by the specification *)

(** The number of tenths [n] is within half a tenth, plus [10^-12] of a
    tenth for the binary64 roundings, of the exact value
    [1000 * (S + N) / (2 * N)] of the percentage. *)
Definition withinHalfTenth (n totalScore : Z) (questionsAttempted : nat) : Prop :=
  (Z.abs (n * (2 * Z.of_nat questionsAttempted)
          - 1000 * (totalScore + Z.of_nat questionsAttempted)) * 10 ^ 12
   ≤ 2 * Z.of_nat questionsAttempted * (5 * 10 ^ 11 + 1))%Z.

(** Every result carries the score of an answered question. *)
Definition scoredAnswers (results : list QuizResult) : Prop :=
  Forall (λ result, score result = 1%Z ∨ score result = (-1)%Z) results.

(** Every result carries the score the quiz gives to its correctness:
    [+1] with [isCorrect], [-1] without. *)
Definition consistentScores (results : list QuizResult) : Prop :=
  Forall (λ result, score result = if isCorrect result then 1%Z else (-1)%Z)
         results.

End Dashboard.

(* ===================================================================== *)
(** * The user management dialog (src/components/LoadingScreen.jsx) *)
(* ===================================================================== *)

Module UserManagement.
Import AiService Storage.

(** [handleCreateUser] (lines 108-131): the message handed to [setError],
    if any, and the store the handler leaves.  The form fields are
    [newUser.name] and [newUser.email]. *)
Definition handleCreateUser (st : LocalStorage) (newName newEmail : jsstring)
    (nowId nowDate : Z) : option jsstring * LocalStorage :=
  if negb (truthy (trim newName)) || negb (truthy (trim newEmail)) then
    (Some (lit "Please enter both name and email"), st)
  else if negb (includes (lit "@") newEmail) then
    (Some (lit "Please enter a valid email address"), st)
  else
    match createUser st (trim newName) (trim newEmail) nowId nowDate with
    | inr (user, st') => (None, switchUser st' (userId user))
    | inl err => (Some (message err), st)
    end.

End UserManagement.

(* ===================================================================== *)
(** * The processing pipeline (App.jsx) *)
(* ===================================================================== *)

Module App.
Import AiService TextProcessing.

(** The first step of [processInput] (lines 355-359): the normalized text,
    its number of words and the chunks; [None] stands for chunks that are
    never returned. *)
Definition analyze (inputText : jsstring)
  : jsstring * nat * option (list jsstring) :=
  let normalizedText := normalizeText inputText in
  let wordCount := countWords normalizedText in
  let chunks := chunkText normalizedText 1500 25 in
  (normalizedText, wordCount, chunks).

(** [line.replace(/^[-•*]\s*/, "")]: a leading hyphen, bullet (U+2022) or
    asterisk is taken away, with the white space that follows it. *)
Definition stripBullet (line : jsstring) : jsstring :=
  match line with
  | c :: rest =>
      if (c =? 45)%N || (c =? 8226)%N || (c =? 42)%N then trimStart rest
      else line
  | [] => []
  end.

(** The key points read off the model output (lines 396-400). *)
Definition parseKeyPoints (keyPointsText : jsstring) : list jsstring :=
  filter (λ line, 0 < length line)
    ((λ line, trim (stripBullet line)) <$> nonBlankLines keyPointsText).

End App.

(* ===================================================================== *)
(** * Properties of the string primitives *)
(* ===================================================================== *)

Module JsStringFacts.

Lemma trimStart_suffix s :
  ∃ w, s = w ++ trimStart s ∧ Forall (λ c, is_space c = true) w.
Proof.
  induction s as [|c s (w & Hs & Hw)]; [by exists []|].
  cbn [trimStart]. destruct (is_space c) eqn:Hc.
  - exists (c :: w). split; [by rewrite Hs at 1|by constructor].
  - by exists [].
Qed.

Lemma trimStart_head s c : head (trimStart s) = Some c → is_space c = false.
Proof.
  induction s as [|d s IH]; [done|]. cbn [trimStart].
  destruct (is_space d) eqn:Hd; [done|]. by intros [= <-].
Qed.

Lemma trimStart_id s :
  (∀ c, head s = Some c → is_space c = false) → trimStart s = s.
Proof.
  destruct s as [|c s]; [done|]. intros Hc. cbn [trimStart].
  by rewrite (Hc c eq_refl).
Qed.

Lemma trimEnd_prefix s :
  ∃ w, s = trimEnd s ++ w ∧ Forall (λ c, is_space c = true) w.
Proof.
  unfold trimEnd. destruct (trimStart_suffix (reverse s)) as (w & Hs & Hw).
  exists (reverse w). split; [|by apply Forall_reverse].
  by rewrite <-reverse_app, <-Hs, reverse_involutive.
Qed.

Lemma trimEnd_last s c : last (trimEnd s) = Some c → is_space c = false.
Proof. unfold trimEnd. rewrite last_reverse. apply trimStart_head. Qed.

Lemma trimEnd_id s :
  (∀ c, last s = Some c → is_space c = false) → trimEnd s = s.
Proof.
  intros Hc. unfold trimEnd. rewrite trimStart_id; [apply reverse_involutive|].
  intros c. rewrite head_reverse. apply Hc.
Qed.

Lemma trimEnd_head s c :
  head s = Some c → is_space c = false → head (trimEnd s) = Some c.
Proof.
  intros Hhead Hc. destruct (trimEnd_prefix s) as (w & Hs & Hw).
  destruct (trimEnd s) as [|d t] eqn:Ht.
  - simpl in Hs. subst w. destruct s as [|e s]; [done|].
    injection Hhead as ->. apply Forall_cons in Hw as [Hw _]. congruence.
  - rewrite Hs in Hhead. done.
Qed.

Lemma trim_head s c : head (trim s) = Some c → is_space c = false.
Proof.
  unfold trim. intros Hhead.
  destruct (trimEnd_prefix (trimStart s)) as (w & Hs & Hw).
  apply (trimStart_head s). rewrite Hs.
  destruct (trimEnd (trimStart s)); [done|]. done.
Qed.

Lemma trim_last s c : last (trim s) = Some c → is_space c = false.
Proof. apply trimEnd_last. Qed.

Lemma trim_id s :
  (∀ c, head s = Some c → is_space c = false) →
  (∀ c, last s = Some c → is_space c = false) → trim s = s.
Proof.
  intros Hhead Hlast. unfold trim. rewrite trimStart_id by done.
  by apply trimEnd_id.
Qed.

Lemma trim_idemp s : trim (trim s) = trim s.
Proof. apply trim_id; [apply trim_head|apply trim_last]. Qed.

(** The trimmed string is the string without a run of white space at
    either end. *)
Lemma trim_infix s :
  ∃ w1 w2, s = w1 ++ trim s ++ w2 ∧
           Forall (λ c, is_space c = true) w1 ∧
           Forall (λ c, is_space c = true) w2.
Proof.
  destruct (trimStart_suffix s) as (w1 & Hs & Hw1).
  destruct (trimEnd_prefix (trimStart s)) as (w2 & Hs' & Hw2).
  exists w1, w2. unfold trim. by rewrite <-Hs', <-Hs.
Qed.

Lemma length_trim s : length (trim s) ≤ length s.
Proof.
  destruct (trim_infix s) as (w1 & w2 & Hs & _).
  rewrite Hs at 2. rewrite !length_app. lia.
Qed.

Lemma trim_nil_iff s : trim s = [] ↔ Forall (λ c, is_space c = true) s.
Proof.
  split.
  - intros Hnil. destruct (trim_infix s) as (w1 & w2 & Hs & Hw1 & Hw2).
    rewrite Hs, Hnil. apply Forall_app. split; [done|]. by rewrite app_nil_l.
  - intros Hall. destruct (trim s) as [|c t] eqn:Ht; [done|]. exfalso.
    assert (is_space c = false) as Hc by (apply (trim_head s); by rewrite Ht).
    destruct (trim_infix s) as (w1 & w2 & Hs & _). rewrite Ht in Hs.
    rewrite Forall_forall in Hall. rewrite (Hall c) in Hc; [done|].
    rewrite Hs. apply elem_of_app. right. apply elem_of_cons. by left.
Qed.

(** ** Splitting at white space and joining with spaces *)

Lemma splitWsFrom_word inSep cur w s :
  Forall (λ c, is_space c = false) w → w ≠ [] ∨ inSep = false →
  splitWsFrom inSep cur (w ++ s) = splitWsFrom false (cur ++ w) s.
Proof.
  intros Hw. revert inSep cur.
  induction Hw as [|c w Hc Hw IH]; intros inSep cur Hne.
  - destruct Hne as [Hne| ->]; [done|]. by rewrite app_nil_r.
  - cbn [app splitWsFrom]. rewrite Hc.
    rewrite IH by (by right). by rewrite <-app_assoc.
Qed.

(** The words of a string that neither starts nor ends with white space. *)
Lemma splitWsFrom_words inSep cur s :
  Forall (λ c, is_space c = false) cur →
  (inSep = true → cur = [] ∧ s ≠ []) →
  (inSep = false → cur = [] → ∃ c, head s = Some c ∧ is_space c = false) →
  (∀ c, last s = Some c → is_space c = false) →
  Forall isWord (splitWsFrom inSep cur s).
Proof.
  revert inSep cur. induction s as [|c s IH]; intros inSep cur Hcur Hsep Hhead Hlast.
  - cbn [splitWsFrom]. apply Forall_singleton. split; [|done].
    intros ->. destruct inSep.
    + by destruct (Hsep eq_refl).
    + by destruct (Hhead eq_refl eq_refl) as (c & ? & _).
  - assert (s ≠ [] → ∀ d, last s = Some d → is_space d = false) as Hlast'.
    { intros Hs d Hd. apply Hlast. destruct s; [done|]. done. }
    assert (is_space c = true → s ≠ []) as Hs.
    { intros Hc ->. specialize (Hlast c eq_refl). congruence. }
    cbn [splitWsFrom]. destruct (is_space c) eqn:Hc.
    + assert (Forall isWord (splitWsFrom true [] s)) as Hrest.
      { apply IH; [done|by intros _; split; [|apply Hs]|done|].
        intros d. by apply Hlast', Hs. }
      destruct inSep; [done|]. constructor; [|done]. split; [|done].
      intros ->. destruct (Hhead eq_refl eq_refl) as (d & [= <-] & Hd).
      congruence.
    + apply IH.
      * apply Forall_app. split; [done|]. by apply Forall_singleton.
      * done.
      * intros _ Hnil. by destruct cur.
      * intros d Hd. destruct s as [|e s]; [done|]. by apply Hlast'.
Qed.

Lemma splitWs_words s :
  s ≠ [] →
  (∀ c, head s = Some c → is_space c = false) →
  (∀ c, last s = Some c → is_space c = false) →
  Forall isWord (splitWs s).
Proof.
  intros Hs Hhead Hlast. apply splitWsFrom_words; [done|done| |done].
  intros _ _. destruct s as [|c s]; [done|]. exists c. split; [done|].
  by apply Hhead.
Qed.

Lemma splitWsFrom_join inSep ws :
  Forall isWord ws → ws ≠ [] →
  splitWsFrom inSep [] (join (lit " ") ws) = ws.
Proof.
  intros Hws. revert inSep.
  induction Hws as [|w ws [Hne Hw] Hws IH]; intros inSep Hnil; [done|].
  destruct ws as [|w2 ws].
  - cbn [join]. rewrite <-(app_nil_r w) at 1.
    rewrite splitWsFrom_word by (done || by left). done.
  - change (join (lit " ") (w :: w2 :: ws))
      with (w ++ 32%N :: join (lit " ") (w2 :: ws)).
    rewrite splitWsFrom_word by (done || by left).
    cbn [splitWsFrom app]. change (is_space 32) with true. cbn match.
    f_equal. by apply IH.
Qed.

Lemma join_head_last ws :
  Forall isWord ws → ws ≠ [] →
  (∀ c, head (join (lit " ") ws) = Some c → is_space c = false) ∧
  (∀ c, last (join (lit " ") ws) = Some c → is_space c = false).
Proof.
  intros Hws. induction Hws as [|w ws [Hne Hw] Hws IH]; intros _; [done|].
  rewrite Forall_forall in Hw.
  destruct ws as [|w2 ws].
  - cbn [join]. split; intros c Hc; apply Hw.
    + destruct w; [done|]. injection Hc as ->. by left.
    + apply last_Some in Hc as [l ->]. apply elem_of_app. right.
      by apply list_elem_of_singleton.
  - change (join (lit " ") (w :: w2 :: ws))
      with (w ++ 32%N :: join (lit " ") (w2 :: ws)).
    destruct (IH ltac:(done)) as [_ IHlast]. split; intros c Hc.
    + apply Hw. destruct w; [done|]. injection Hc as ->. by left.
    + apply IHlast. rewrite last_app in Hc. rewrite last_cons in Hc.
      destruct (last (join (lit " ") (w2 :: ws))) as [d|] eqn:Hd; [done|].
      apply last_None in Hd. apply Forall_cons in Hws as [[Hw2 _] _].
      destruct w2; [done|]. destruct ws; done.
Qed.

(** Joining words with spaces and splitting at white space gives the words
    back. *)
Lemma splitWs_trim_join ws :
  Forall isWord ws → ws ≠ [] →
  splitWs (trim (join (lit " ") ws)) = ws.
Proof.
  intros Hws Hne. destruct (join_head_last ws Hws Hne) as [Hhead Hlast].
  rewrite trim_id by done. by apply splitWsFrom_join.
Qed.

End JsStringFacts.

(* ===================================================================== *)
(** * Properties of the rotation (src/services/aiService.js) *)
(* ===================================================================== *)

Module AiServiceFacts.
Import AiService.

Section Rotation.
Context (API_KEYS MODELS : list jsstring).

Abbreviation N := (length API_KEYS).
Abbreviation M := (length MODELS).
Abbreviation next := (getNextKeyAndModel API_KEYS MODELS).
Abbreviation inBounds := (inBounds API_KEYS MODELS).
Abbreviation linear := (linear MODELS).
Abbreviation position := (position MODELS).
Abbreviation pairAt := (pairAt API_KEYS MODELS).

Lemma linear_lt c : inBounds c → linear c < N * M.
Proof. unfold AiService.inBounds, AiService.linear. nia. Qed.

Lemma position_linear c :
  inBounds c → position (linear c) = (currentKeyIndex c, currentModelIndex c).
Proof.
  intros [Hk Hm]. unfold position, linear. f_equal.
  - rewrite Nat.div_add_l by lia. rewrite Nat.div_small by done. lia.
  - rewrite Nat.add_comm, Nat.Div0.mod_add. by apply Nat.mod_small.
Qed.

Lemma getNextKeyAndModel_inBounds c :
  inBounds c →
  ∃ c', next c = inr (pairAt (currentKeyIndex c, currentModelIndex c), c')
        ∧ inBounds c' ∧ linear c' = (linear c + 1) `mod` (N * M).
Proof.
  intros [Hk Hm]. unfold getNextKeyAndModel.
  rewrite bool_decide_eq_false_2 by lia.
  case_bool_decide as Hwrap.
  - eexists. split; [reflexivity|]. unfold inBounds, linear. simpl.
    assert (currentModelIndex c = M - 1) as Hm' by lia.
    pose proof (Nat.mod_upper_bound (currentKeyIndex c + 1) N ltac:(lia)).
    split; [lia|]. rewrite Hm'.
    replace (currentKeyIndex c * M + (M - 1) + 1)
      with ((currentKeyIndex c + 1) * M) by nia.
    rewrite Nat.Div0.mul_mod_distr_r. lia.
  - eexists. split; [reflexivity|]. unfold inBounds, linear. simpl.
    split; [lia|]. rewrite Nat.mod_small by nia. lia.
Qed.

Lemma nextPositions_linear n c :
  inBounds c →
  nextPositions API_KEYS MODELS n c =
  (λ i, position ((linear c + i) `mod` (N * M))) <$> seq 0 n.
Proof.
  revert c. induction n as [|n IH]; intros c Hc; [done|].
  destruct (getNextKeyAndModel_inBounds c Hc) as (c' & Hnext & Hc' & Hlin).
  pose proof (linear_lt c Hc) as Hlt.
  cbn [nextPositions]. rewrite Hnext. cbn [seq fmap list_fmap].
  rewrite Nat.add_0_r, Nat.mod_small, position_linear by done. f_equal.
  rewrite IH by done. rewrite <-fmap_S_seq, <-list_fmap_compose.
  apply list_fmap_ext; intros _ i _. simpl. f_equal.
  rewrite Hlin, Nat.Div0.add_mod_idemp_l. f_equal. lia.
Qed.

Lemma nextPairs_positions n c :
  inBounds c →
  nextPairs API_KEYS MODELS n c = pairAt <$> nextPositions API_KEYS MODELS n c.
Proof.
  revert c. induction n as [|n IH]; intros c Hc; [done|].
  destruct (getNextKeyAndModel_inBounds c Hc) as (c' & Hnext & Hc' & _).
  cbn [nextPairs nextPositions]. rewrite Hnext. cbn [fmap list_fmap].
  by rewrite IH.
Qed.

(** One full cycle read from an arbitrary position is a rotation of the
    cycle read from position 0. *)
Lemma rotate_nat_add_mod (p i T : nat) :
  0 < T → rotate_nat_add p i T = (p + i) `mod` T.
Proof.
  intros HT. unfold rotate_nat_add.
  rewrite <-Nat2Z.inj_add, <-Nat2Z.inj_mod. apply Nat2Z.id.
Qed.

Lemma cycle_rotate (T p : nat) :
  (λ i, (p + i) `mod` T) <$> seq 0 T = rotate p (seq 0 T).
Proof.
  apply list_eq; intros i. rewrite list_lookup_fmap.
  destruct (decide (i < T)) as [Hi|Hi].
  - rewrite lookup_rotate_r by (by rewrite length_seq).
    rewrite length_seq, rotate_nat_add_mod by lia.
    pose proof (Nat.mod_upper_bound (p + i) T ltac:(lia)).
    by rewrite !lookup_seq_lt.
  - rewrite lookup_seq_ge by lia. simpl. symmetry. apply lookup_ge_None.
    rewrite length_rotate, length_seq. lia.
Qed.

Lemma rotate_Permutation {A} (n : nat) (l : list A) : rotate n l ≡ₚ l.
Proof.
  unfold rotate. rewrite Permutation_app_comm. by rewrite take_drop.
Qed.

Lemma cycle_Permutation (T p : nat) :
  (λ i, (p + i) `mod` T) <$> seq 0 T ≡ₚ seq 0 T.
Proof. rewrite cycle_rotate. apply rotate_Permutation. Qed.

(** The cycle read from position 0 is the product of the two lists, key by
    key and, for each key, model by model. *)
Lemma position_elem i j :
  i < N → j < M → (i, j) ∈ position <$> seq 0 (N * M).
Proof.
  intros Hi Hj. apply list_elem_of_fmap. exists (i * M + j). split.
  - unfold AiService.position. f_equal.
    + rewrite Nat.div_add_l by lia. rewrite Nat.div_small by done. lia.
    + rewrite Nat.add_comm, Nat.Div0.mod_add. symmetry. by apply Nat.mod_small.
  - apply elem_of_seq. nia.
Qed.

Lemma position_NoDup T : 0 < M → NoDup (position <$> seq 0 T).
Proof.
  intros HM. apply NoDup_fmap_2_strong; [|apply NoDup_seq].
  intros p q _ _ Hpq. unfold AiService.position in Hpq.
  injection Hpq as Hd Hr.
  rewrite (Nat.div_mod_eq p M), (Nat.div_mod_eq q M). by rewrite Hd, Hr.
Qed.

Lemma pairs_of_cycle (keys : list jsstring) :
  0 < M →
  (λ p, (keys !! (p `div` M), MODELS !! (p `mod` M))) <$> seq 0 (length keys * M)
  = (λ p, (Some p.1, Some p.2)) <$> list_prod keys MODELS.
Proof.
  intros HM. induction keys as [|k keys IH]; [done|].
  cbn [length list_prod]. rewrite fmap_app, <-IH.
  replace (S (length keys) * M) with (M + length keys * M) by lia.
  rewrite seq_app, fmap_app. f_equal.
  - rewrite <-list_fmap_compose. apply list_eq; intros j.
    rewrite !list_lookup_fmap. destruct (decide (j < M)) as [Hj|Hj].
    + rewrite lookup_seq_lt by done. simpl.
      rewrite Nat.div_small, Nat.mod_small by done. simpl.
      destruct (lookup_lt_is_Some_2 MODELS j Hj) as [m Hm].
      by rewrite Hm.
    + rewrite lookup_seq_ge by lia.
      rewrite lookup_ge_None_2 by lia. done.
  - rewrite Nat.add_0_l, <-(Nat.add_0_r M) at 1.
    rewrite <-(fmap_add_seq M 0), <-list_fmap_compose.
    apply list_fmap_ext; intros _ q _. simpl.
    replace (M + q) with (q + 1 * M) by lia.
    rewrite Nat.div_add, Nat.Div0.mod_add by lia.
    by rewrite Nat.add_1_r.
Qed.

(** C1.  From any cursor position inside the two lists (so there is at least
    one credential and one model), [N * M] successive calls of
    [getNextKeyAndModel] all succeed, are made at pairwise distinct cursor
    positions, reach every position [(i, j)] with [i < N] and [j < M], and
    return, up to the order, exactly the pairs of the product of the
    credential list with the model list; the call after those is made at the
    starting position again. *)
Theorem rotation_full_cycle (c : Cursor) :
  inBounds c →
  let visited := nextPositions API_KEYS MODELS (N * M) c in
  let pairs := nextPairs API_KEYS MODELS (N * M) c in
  length pairs = N * M ∧
  pairs = pairAt <$> visited ∧
  NoDup visited ∧
  (∀ i j, i < N → j < M → (i, j) ∈ visited) ∧
  pairs ≡ₚ (λ p, (Some p.1, Some p.2)) <$> list_prod API_KEYS MODELS ∧
  nextPositions API_KEYS MODELS (N * M + 1) c =
    visited ++ [(currentKeyIndex c, currentModelIndex c)].
Proof.
  intros Hc visited pairs.
  assert (0 < M) as HM by (destruct Hc; lia).
  pose proof (linear_lt c Hc) as Hlt.
  assert (visited = position <$> ((λ i, (linear c + i) `mod` (N * M)) <$> seq 0 (N * M)))
    as Hvis.
  { unfold visited. rewrite nextPositions_linear by done.
    by rewrite <-list_fmap_compose. }
  assert (visited ≡ₚ position <$> seq 0 (N * M)) as Hperm.
  { rewrite Hvis. by rewrite cycle_Permutation. }
  assert (pairs = pairAt <$> visited) as Hpairs.
  { unfold pairs, visited. by apply nextPairs_positions. }
  split_and!.
  - rewrite Hpairs, Hvis, !length_fmap. apply length_seq.
  - done.
  - rewrite Hperm. by apply position_NoDup.
  - intros i j Hi Hj. rewrite Hperm. by apply position_elem.
  - rewrite Hpairs, Hperm, <-list_fmap_compose.
    rewrite <-(pairs_of_cycle API_KEYS HM). done.
  - rewrite nextPositions_linear by done.
    rewrite seq_app, fmap_app. f_equal.
    + unfold visited. by rewrite nextPositions_linear.
    + cbn [seq fmap list_fmap]. rewrite Nat.add_0_l.
      replace (linear c + N * M) with (linear c + 1 * (N * M)) by lia.
      rewrite Nat.Div0.mod_add, Nat.mod_small by done.
      by rewrite position_linear.
Qed.

End Rotation.

(** The theorem at two credentials and the four models of the source, from
    the cursor position (1, 2). *)
Lemma rotation_full_cycle_witness :
  inBounds [lit "key-1"; lit "key-2"] MODELS (mkCursor 1 2) ∧
  NoDup (nextPositions [lit "key-1"; lit "key-2"] MODELS 8 (mkCursor 1 2)) ∧
  nextPairs [lit "key-1"; lit "key-2"] MODELS 8 (mkCursor 1 2) ≡ₚ
    (λ p, (Some p.1, Some p.2)) <$> list_prod [lit "key-1"; lit "key-2"] MODELS.
Proof.
  assert (inBounds [lit "key-1"; lit "key-2"] MODELS (mkCursor 1 2)) as Hc
    by (unfold inBounds; simpl; lia).
  split; [exact Hc|].
  destruct (rotation_full_cycle [lit "key-1"; lit "key-2"] MODELS _ Hc)
    as (_ & _ & Hnd & _ & Hperm & _).
  split; [exact Hnd | exact Hperm].
Defined.


(* ===================================================================== *)
(** * Properties of the invocation loop (src/services/aiService.js) *)
(* ===================================================================== *)

Section Invoker.
Context (API_KEYS MODELS : list jsstring).
Context (fetch : nat → option jsstring → option jsstring → FetchOutcome).

Abbreviation T := (totalCombinations API_KEYS MODELS).
Abbreviation inBounds := (inBounds API_KEYS MODELS).
Abbreviation nextPairs := (nextPairs API_KEYS MODELS).
Abbreviation outcomes := (outcomes API_KEYS MODELS fetch).
Abbreviation attemptLoop := (attemptLoop API_KEYS MODELS fetch).
Abbreviation callGemini := (callGemini API_KEYS MODELS fetch).
Abbreviation exhausted := (exhausted API_KEYS MODELS).

Lemma nextPairs_S n c :
  inBounds c →
  ∃ c', getNextKeyAndModel API_KEYS MODELS c
          = inr (pairAt API_KEYS MODELS (currentKeyIndex c, currentModelIndex c), c')
        ∧ inBounds c'
        ∧ nextPairs (S n) c
          = pairAt API_KEYS MODELS (currentKeyIndex c, currentModelIndex c)
            :: nextPairs n c'.
Proof.
  intros Hc.
  destruct (getNextKeyAndModel_inBounds API_KEYS MODELS c Hc)
    as (c' & Hnext & Hc' & _).
  exists c'. split_and!; [done..|]. cbn [AiService.nextPairs]. by rewrite Hnext.
Qed.

Lemma length_nextPairs n c : inBounds c → length (nextPairs n c) = n.
Proof.
  revert c. induction n as [|n IH]; intros c Hc; [done|].
  destruct (nextPairs_S n c Hc) as (c' & _ & Hc' & ->). simpl. by rewrite IH.
Qed.

Lemma outcomes_S a n c p c' :
  nextPairs (S n) c = p :: nextPairs n c' →
  outcomes a (S n) c = classify (fetch (S a) p.1 p.2) :: outcomes (S a) n c'.
Proof.
  intros Hp. unfold AiService.outcomes. rewrite Hp. cbn [imap].
  rewrite Nat.add_0_r. f_equal. apply imap_ext; intros i q _. simpl.
  by rewrite Nat.add_succ_r.
Qed.

Lemma length_outcomes a n c : inBounds c → length (outcomes a n c) = n.
Proof.
  intros Hc. unfold AiService.outcomes. by rewrite length_imap, length_nextPairs.
Qed.

(** The loop is a search for the first successful outcome: it stops there,
    and otherwise goes through every remaining attempt and raises the last
    error recorded. *)
Lemma attemptLoop_outcomes fuel a lastError c tried slept :
  inBounds c → a ≤ T → T - a ≤ fuel →
  let run := attemptLoop fuel a lastError c tried slept in
  let os := outcomes a (T - a) c in
  match firstReturned os with
  | Some (j, text) =>
      completion run = Resolved text ∧
      attempts run = tried ++ nextPairs (S j) c
  | None =>
      completion run = Rejected (exhausted (lastFailure lastError os)) ∧
      attempts run = tried ++ nextPairs (T - a) c
  end.
Proof.
  revert a lastError c tried slept.
  induction fuel as [|fuel IH]; intros a lastError c tried slept Hc Ha Hfuel;
    cbn [AiService.attemptLoop]; case_bool_decide as Hlt; try lia.
  - replace (T - a) with 0 by lia. simpl. by rewrite app_nil_r.
  - destruct (nextPairs_S (T - S a) c Hc) as (c' & Hnext & Hc' & Hpairs).
    replace (T - a) with (S (T - S a)) by lia.
    rewrite (outcomes_S _ _ _ _ _ Hpairs), Hnext.
    set (p := pairAt API_KEYS MODELS (currentKeyIndex c, currentModelIndex c)) in *.
    destruct p as [apiKey model] eqn:Hp. cbn [fst snd].
    assert (∀ e slept',
      let run := attemptLoop fuel (S a) (Some e) c' (tried ++ [(apiKey, model)]) slept' in
      let os := outcomes (S a) (T - S a) c' in
      match prod_map S id <$> firstReturned os with
      | Some (j, text) =>
          completion run = Resolved text ∧
          attempts run = tried ++ nextPairs (S j) c
      | None =>
          completion run = Rejected (exhausted (lastFailure (Some e) os)) ∧
          attempts run = tried ++ nextPairs (S (T - S a)) c
      end) as Hrec.
    { intros e slept'.
      specialize (IH (S a) (Some e) c' (tried ++ [(apiKey, model)]) slept'
                     Hc' ltac:(lia) ltac:(lia)).
      cbn zeta in IH |- *.
      destruct (firstReturned (outcomes (S a) (T - S a) c')) as [[j text]|];
        cbn [fmap option_fmap option_map prod_map fst snd id];
        destruct IH as [-> ->]; (split; [done|]); rewrite <-app_assoc.
      - f_equal. cbn [AiService.nextPairs]. by rewrite Hnext.
      - by rewrite Hpairs. }
    destruct (classify (fetch (S a) apiKey model)) as [text|e|e] eqn:Hcl.
    + cbn [firstReturned]. split; [done|]. cbn.
      rewrite Hnext. done.
    + cbn [firstReturned lastFailure foldl failureOf]. apply Hrec.
    + cbn [firstReturned lastFailure foldl failureOf].
      destruct (isRateLimit e); apply Hrec.
  - replace (T - a) with 0 by lia. simpl. by rewrite app_nil_r.
Qed.

Lemma callGemini_unfold c :
  inBounds c → callGemini c = attemptLoop T 0 None c [] 0.
Proof.
  intros [Hk _]. unfold AiService.callGemini.
  by rewrite bool_decide_eq_false_2 by lia.
Qed.


Lemma lookup_outcomes a n c i o :
  outcomes a n c !! i = Some o →
  ∃ apiKey model, nextPairs n c !! i = Some (apiKey, model)
                  ∧ o = classify (fetch (S (a + i)) apiKey model).
Proof.
  unfold AiService.outcomes. rewrite list_lookup_imap.
  destruct (nextPairs n c !! i) as [[apiKey model]|] eqn:Hp; [|done].
  simpl. intros [= <-]. by exists apiKey, model.
Qed.

Lemma firstReturned_Some os j text :
  firstReturned os = Some (j, text) → os !! j = Some (Returned text).
Proof.
  revert j. induction os as [|o os IH]; intros j; [done|].
  destruct o; cbn [firstReturned]; [by intros [= <- <-]|..];
    destruct (firstReturned os) as [[j' text']|]; try done;
    intros [= <- <-]; by apply IH.
Qed.

Lemma firstReturned_None os :
  Forall (λ o, is_Some (failureOf o)) os → firstReturned os = None.
Proof.
  induction 1 as [|o os [e He] _ IH]; [done|].
  destruct o; [done|..]; cbn [firstReturned]; by rewrite IH.
Qed.

Lemma lastFailure_last lastError os :
  Forall (λ o, is_Some (failureOf o)) os → os ≠ [] →
  lastFailure lastError os = last os ≫= failureOf.
Proof.
  intros Hall. revert lastError.
  induction Hall as [|o os [e He] Hos IH]; intros lastError Hne; [done|].
  unfold lastFailure. cbn [foldl]. rewrite He.
  destruct os as [|o' os]; [by rewrite <-He|].
  rewrite last_cons_cons. by apply IH.
Qed.

Lemma classify_retryable r :
  isRetryable r → is_Some (failureOf (classify r)).
Proof.
  destruct r as [e|status body]; [done|]. unfold isRetryable, retryableStatus.
  rewrite !orb_true_iff, !N.eqb_eq. intros Hs. unfold classify.
  assert (ok status = false) as -> by (by destruct Hs as [[[->| ->]| ->]| ->]).
  cbn [negb]. destruct body; [|by eexists|];
    repeat case_match; by eexists.
Qed.


(** C3.  When every attempt is answered by one of the retryable statuses
    429, 403, 404, 400, the call makes exactly [N * M] attempts, with the
    [N * M] pairs the rotation hands out from the starting cursor, and then
    rejects with the error recorded by the last of them. *)
Theorem callGemini_exhaustion c :
  inBounds c →
  (∀ i apiKey model,
     1 ≤ i ≤ length API_KEYS * length MODELS →
     isRetryable (fetch i apiKey model)) →
  attempts (callGemini c) = nextPairs (length API_KEYS * length MODELS) c ∧
  length (attempts (callGemini c)) = length API_KEYS * length MODELS ∧
  ∃ apiKey model e,
    last (attempts (callGemini c)) = Some (apiKey, model) ∧
    failureOf (classify (fetch (length API_KEYS * length MODELS) apiKey model))
      = Some e ∧
    completion (callGemini c) = Rejected e.
Proof.
  intros Hc Hretry. rewrite callGemini_unfold by done.
  pose proof (attemptLoop_outcomes T 0 None c [] 0 Hc ltac:(lia) ltac:(lia)) as Hrun.
  cbn zeta in Hrun. rewrite Nat.sub_0_r in Hrun.
  assert (0 < T) as HT.
  { destruct Hc. unfold totalCombinations. nia. }
  assert (Forall (λ o, is_Some (failureOf o)) (outcomes 0 T c)) as Hall.
  { apply Forall_lookup_2; intros i o Hi.
    pose proof (lookup_lt_Some _ _ _ Hi) as Hlen.
    rewrite length_outcomes in Hlen by done.
    destruct (lookup_outcomes _ _ _ _ _ Hi) as (apiKey & model & _ & ->).
    apply classify_retryable, Hretry. unfold totalCombinations in Hlen. lia. }
  rewrite (firstReturned_None _ Hall) in Hrun. destruct Hrun as [Hcompl Hatt].
  rewrite app_nil_l in Hatt. fold T. split_and!; [done| |].
  { by rewrite Hatt, length_nextPairs. }
  assert (outcomes 0 T c ≠ []) as Hne.
  { intros Hnil. apply (f_equal length) in Hnil.
    rewrite length_outcomes in Hnil by done. simpl in Hnil. lia. }
  rewrite (lastFailure_last _ _ Hall Hne) in Hcompl.
  rewrite last_lookup, length_outcomes in Hcompl by done.
  destruct (outcomes 0 T c !! pred T) as [o|] eqn:Ho.
  2:{ apply lookup_ge_None in Ho. rewrite length_outcomes in Ho by done. lia. }
  destruct (lookup_outcomes _ _ _ _ _ Ho) as (apiKey & model & Hp & ->).
  replace (S (0 + pred T)) with T in * by lia.
  rewrite Forall_lookup in Hall. destruct (Hall _ _ Ho) as [e He].
  exists apiKey, model, e. split_and!; [|done|].
  - by rewrite Hatt, last_lookup, length_nextPairs.
  - rewrite Hcompl. simpl. by rewrite He.
Qed.


(** ** The cursor, the delays and the first success of a call *)

(** The loop hands the cursor on: what it leaves behind is the cursor
    reached after the pairs it used. *)
Lemma attemptLoop_cursor fuel a lastError c tried slept :
  inBounds c → a ≤ T → T - a ≤ fuel →
  let run := attemptLoop fuel a lastError c tried slept in
  ∃ k, k ≤ T - a ∧ (a < T → 1 ≤ k) ∧
       attempts run = tried ++ nextPairs k c ∧
       inBounds (cursor run) ∧
       (∀ n, nextPairs (k + n) c = nextPairs k c ++ nextPairs n (cursor run)) ∧
       (a < T → delays run + length tried + 1 ≤ slept + length (attempts run)) ∧
       (a = T → delays run = slept).
Proof.
  revert a lastError c tried slept.
  induction fuel as [|fuel IH]; intros a lastError c tried slept Hc Ha Hfuel;
    cbn [AiService.attemptLoop]; case_bool_decide as Hlt; try lia.
  - exists 0. cbn. rewrite app_nil_r. split_and!; try done; lia.
  - destruct (nextPairs_S 0 c Hc) as (c' & Hnext & Hc' & _).
    rewrite Hnext.
    set (p := pairAt API_KEYS MODELS (currentKeyIndex c, currentModelIndex c)) in *.
    destruct p as [apiKey model] eqn:Hp.
    assert (∀ e slept', slept' ≤ (if bool_decide (S a < T) then S slept else slept) →
      let run := attemptLoop fuel (S a) (Some e) c' (tried ++ [(apiKey, model)])
                   slept' in
      ∃ k, k ≤ T - a ∧ (a < T → 1 ≤ k) ∧
           attempts run = tried ++ nextPairs k c ∧
           inBounds (cursor run) ∧
           (∀ n, nextPairs (k + n) c = nextPairs k c ++ nextPairs n (cursor run)) ∧
           (a < T → delays run + length tried + 1 ≤ slept + length (attempts run)) ∧
           (a = T → delays run = slept)) as Hrec.
    { intros e slept' Hslept.
      destruct (IH (S a) (Some e) c' (tried ++ [(apiKey, model)]) slept'
                  Hc' ltac:(lia) ltac:(lia))
        as (k & Hk & Hk1 & Hatt & Hcur & Hcont & Hdel & Hdel0).
      cbn zeta. exists (S k). split_and!; [lia|lia| |done| | |lia].
      - rewrite Hatt, <-app_assoc. f_equal. cbn [AiService.nextPairs].
        by rewrite Hnext.
      - intros n. cbn [AiService.nextPairs Nat.add]. rewrite Hnext.
        cbn [app]. by rewrite Hcont.
      - intros _. rewrite length_app in Hdel. cbn [length] in Hdel.
        destruct (decide (S a < T)) as [Hlt'|Hge].
        + specialize (Hdel Hlt'). rewrite bool_decide_eq_true_2 in Hslept by done.
          lia.
        + rewrite bool_decide_eq_false_2 in Hslept by done.
          rewrite Hdel0 by lia. rewrite Hatt, !length_app, length_nextPairs by done.
          cbn [length]. lia. }
    destruct (classify (fetch (S a) apiKey model)) as [text|e|e] eqn:Hcl.
    + exists 1. cbn [completion attempts delays cursor].
      split_and!; [lia|lia| |done| | |lia].
      * cbn [AiService.nextPairs]. by rewrite Hnext.
      * intros n. cbn [AiService.nextPairs Nat.add]. by rewrite Hnext.
      * intros _. rewrite length_app. cbn [length]. lia.
    + apply Hrec. case_bool_decide; lia.
    + destruct (isRateLimit e); apply Hrec; [case_bool_decide; lia|done].
  - exists 0. cbn. rewrite app_nil_r. split_and!; try done; lia.
Qed.

(** X20.  A call leaves the rotation where it stopped: from a cursor inside
    both lists it makes between one and [N * M] attempts and leaves a cursor
    inside both lists, and the pairs handed out from that cursor continue
    the pairs the call used, so that the attempts of successive calls are
    consecutive pieces of one rotation. *)
Theorem callGemini_leaves_rotation c :
  inBounds c →
  let run := callGemini c in
  inBounds (cursor run) ∧
  1 ≤ length (attempts run) ≤ T ∧
  attempts run = nextPairs (length (attempts run)) c ∧
  (∀ n, nextPairs (length (attempts run) + n) c
        = attempts run ++ nextPairs n (cursor run)).
Proof.
  intros Hc run. unfold run. rewrite (callGemini_unfold c Hc).
  assert (0 < T) as HT.
  { unfold AiService.totalCombinations. destruct Hc. nia. }
  destruct (attemptLoop_cursor T 0 None c [] 0 Hc ltac:(lia) ltac:(lia))
    as (k & Hk & Hk1 & Hatt & Hcur & Hcont & _).
  cbn zeta in *. rewrite app_nil_l in Hatt.
  rewrite Hatt, length_nextPairs by done.
  split_and!; [done|lia|lia|done|done].
Qed.

(** X21.  The loop sleeps between attempts only: from a cursor inside both
    lists, the number of 500 ms delays of a call is smaller than the number
    of its attempts, hence at most [N * M - 1]. *)
Theorem callGemini_delays_bound c :
  inBounds c →
  delays (callGemini c) < length (attempts (callGemini c)) ∧
  delays (callGemini c) < T.
Proof.
  intros Hc. rewrite (callGemini_unfold c Hc).
  assert (0 < T) as HT.
  { unfold AiService.totalCombinations. destruct Hc. nia. }
  destruct (attemptLoop_cursor T 0 None c [] 0 Hc ltac:(lia) ltac:(lia))
    as (k & Hk & Hk1 & Hatt & Hcur & Hcont & Hdel & _).
  cbn zeta in *. specialize (Hdel HT). cbn [length] in Hdel.
  rewrite Hatt, app_nil_l, length_nextPairs in * by done. lia.
Qed.

Lemma classify_Returned r text : classify r = Returned text → text ≠ [].
Proof.
  unfold classify. destruct r as [e|status body]; [done|].
  destruct (negb (ok status)).
  - destruct body as [e|e|m t f]; [|done|];
      repeat (case_match; try done).
  - destruct body as [e|e|m [[|ch t]|] f]; try done;
      try (case_bool_decide; done).
    by intros [= <-].
Qed.

Lemma firstReturned_before os j text :
  firstReturned os = Some (j, text) →
  ∀ i, i < j → ∃ o e, os !! i = Some o ∧ failureOf o = Some e.
Proof.
  revert j. induction os as [|o os IH]; intros j; [done|].
  cbn [firstReturned].
  destruct o as [t|e|e].
  - intros [= <- _] i Hi. lia.
  - destruct (firstReturned os) as [[j' t']|] eqn:Hfirst; [|done].
    intros [= <- <-] [|i] Hi; [by exists (Continued e), e|].
    apply (IH j' eq_refl i). lia.
  - destruct (firstReturned os) as [[j' t']|] eqn:Hfirst; [|done].
    intros [= <- <-] [|i] Hi; [by exists (Thrown e), e|].
    apply (IH j' eq_refl i). lia.
Qed.

Lemma firstReturned_None_inv os :
  firstReturned os = None → Forall (λ o, is_Some (failureOf o)) os.
Proof.
  induction os as [|o os IH]; [by constructor|].
  cbn [firstReturned]. destruct o as [t|e|e]; [done| |];
    destruct (firstReturned os) as [[j' t']|]; try done;
    intros _; constructor; eauto.
Qed.

(** X22.  A call is a search for the first success.  From a cursor inside
    both lists the call always ends.  It resolves with a text exactly when
    some attempt succeeds: the text is the one of the first such attempt, it
    is not empty, that attempt is the last one made and every earlier one
    failed.  Otherwise it rejects after [N * M] attempts, all failed, with
    the error of the last attempt. *)
Theorem callGemini_first_success c :
  inBounds c →
  let run := callGemini c in
  let os := outcomes 0 T c in
  match completion run with
  | Resolved text =>
      text ≠ [] ∧
      ∃ j, length (attempts run) = S j ∧
           os !! j = Some (Returned text) ∧
           ∀ i, i < j → ∃ o e, os !! i = Some o ∧ failureOf o = Some e
  | Rejected e =>
      length (attempts run) = T ∧
      Forall (λ o, is_Some (failureOf o)) os ∧
      last os ≫= failureOf = Some e
  | Diverged => False
  end.
Proof.
  intros Hc run os. unfold run. rewrite (callGemini_unfold c Hc).
  assert (0 < T) as HT.
  { unfold AiService.totalCombinations. destruct Hc. nia. }
  pose proof (attemptLoop_outcomes T 0 None c [] 0 Hc ltac:(lia) ltac:(lia))
    as Hrun.
  cbn zeta in Hrun. rewrite Nat.sub_0_r in Hrun. fold os in Hrun.
  destruct (firstReturned os) as [[j text]|] eqn:Hfirst.
  - destruct Hrun as [-> ->]. rewrite app_nil_l, length_nextPairs by done.
    pose proof (firstReturned_Some _ _ _ Hfirst) as Hj.
    split.
    + destruct (lookup_outcomes _ _ _ _ _ Hj) as (apiKey & model & _ & Hcl).
      by eapply classify_Returned.
    + exists j. split_and!; [done|done|].
      by apply (firstReturned_before os j text).
  - destruct Hrun as [-> ->]. rewrite app_nil_l, length_nextPairs by done.
    pose proof (firstReturned_None_inv _ Hfirst) as Hall.
    assert (os ≠ []) as Hne.
    { intros Hnil. pose proof (length_outcomes 0 T c Hc) as Hlen.
      fold os in Hlen. rewrite Hnil in Hlen. simpl in Hlen. lia. }
    split_and!; [done|done|].
    rewrite (lastFailure_last _ _ Hall Hne).
    destruct (last os) as [o|] eqn:Hlast; [|by apply last_None in Hlast].
    assert (o ∈ os) as Hin.
    { apply last_Some in Hlast as [l' ->]. apply elem_of_app. right.
      by apply list_elem_of_singleton. }
    rewrite Forall_forall in Hall. destruct (Hall o Hin) as [e He].
    simpl. rewrite He. done.
Qed.

End Invoker.

(** The exhaustion theorem at two credentials, the four models of the source
    and a backend that answers 429 to everything: eight attempts. *)
Lemma callGemini_exhaustion_witness :
  inBounds [lit "key-1"; lit "key-2"] MODELS (mkCursor 0 0) ∧
  (∀ i apiKey model, 1 ≤ i ≤ 8 → isRetryable (fetchAll429 i apiKey model)) ∧
  length (attempts (callGemini [lit "key-1"; lit "key-2"] MODELS fetchAll429
                      (mkCursor 0 0))) = 8.
Proof.
  assert (inBounds [lit "key-1"; lit "key-2"] MODELS (mkCursor 0 0)) as Hc
    by (unfold inBounds; simpl; lia).
  assert (∀ i apiKey model,
            1 ≤ i ≤ 8 → isRetryable (fetchAll429 i apiKey model)) as Hretry
    by (intros; reflexivity).
  split; [exact Hc|]. split; [exact Hretry|].
  exact (proj1 (proj2 (callGemini_exhaustion [lit "key-1"; lit "key-2"] MODELS
                         fetchAll429 (mkCursor 0 0) Hc Hretry))).
Defined.

(** On that input the error raised is the one of the last attempt, no
    delay is taken, and the cursor is back where it started. *)
Example callGemini_all429 :
  callGemini [lit "key-1"; lit "key-2"] MODELS fetchAll429 (mkCursor 0 0)
  = mkRun (Rejected (mkError (lit "Rate limit: 429")))
      (nextPairs [lit "key-1"; lit "key-2"] MODELS 8 (mkCursor 0 0))
      0 (mkCursor 0 0).
Proof. vm_compute. reflexivity. Qed.

(** A status 500 is followed by one delay and by the next attempt, made with
    the second model. *)
Example callGemini_500_then_ok :
  callGemini [lit "key-1"] MODELS fetch500ThenOk (mkCursor 0 0)
  = mkRun (Resolved (lit "ok"))
      [ (Some (lit "key-1"), Some (lit "gemini-2.5-flash-lite"));
        (Some (lit "key-1"), Some (lit "gemini-2.5-flash")) ]
      1 (mkCursor 0 2).
Proof. vm_compute. reflexivity. Qed.



(** The three theorems on one key and the network that answers 500 once. *)
Lemma callGemini_leaves_rotation_witness :
  inBounds [lit "key-1"] MODELS (mkCursor 0 0) ∧
  inBounds [lit "key-1"] MODELS
    (cursor (callGemini [lit "key-1"] MODELS fetch500ThenOk (mkCursor 0 0))) ∧
  nextPairs [lit "key-1"] MODELS
    (length (attempts (callGemini [lit "key-1"] MODELS fetch500ThenOk
                         (mkCursor 0 0))) + 2) (mkCursor 0 0)
  = attempts (callGemini [lit "key-1"] MODELS fetch500ThenOk (mkCursor 0 0))
    ++ nextPairs [lit "key-1"] MODELS 2
         (cursor (callGemini [lit "key-1"] MODELS fetch500ThenOk (mkCursor 0 0))).
Proof.
  assert (inBounds [lit "key-1"] MODELS (mkCursor 0 0)) as Hc
    by (split; simpl; lia).
  split; [exact Hc|].
  pose proof (callGemini_leaves_rotation [lit "key-1"] MODELS fetch500ThenOk
                (mkCursor 0 0) Hc) as (Hcur & _ & _ & Hcont).
  split; [exact Hcur | exact (Hcont 2)].
Defined.

Lemma callGemini_delays_bound_witness :
  inBounds [lit "key-1"] MODELS (mkCursor 0 0) ∧
  delays (callGemini [lit "key-1"] MODELS fetch500ThenOk (mkCursor 0 0))
  < length (attempts (callGemini [lit "key-1"] MODELS fetch500ThenOk
                        (mkCursor 0 0))).
Proof.
  assert (inBounds [lit "key-1"] MODELS (mkCursor 0 0)) as Hc
    by (split; simpl; lia).
  split; [exact Hc|].
  exact (proj1 (callGemini_delays_bound [lit "key-1"] MODELS fetch500ThenOk
                  (mkCursor 0 0) Hc)).
Defined.

Lemma callGemini_first_success_witness :
  inBounds [lit "key-1"] MODELS (mkCursor 0 0) ∧
  ∃ j, length (attempts (callGemini [lit "key-1"] MODELS fetch500ThenOk
                           (mkCursor 0 0))) = S j ∧
       outcomes [lit "key-1"] MODELS fetch500ThenOk 0
         (totalCombinations [lit "key-1"] MODELS) (mkCursor 0 0) !! j
       = Some (Returned (lit "ok")).
Proof.
  assert (inBounds [lit "key-1"] MODELS (mkCursor 0 0)) as Hc
    by (split; simpl; lia).
  split; [exact Hc|].
  pose proof (callGemini_first_success [lit "key-1"] MODELS fetch500ThenOk
                (mkCursor 0 0) Hc) as Hs.
  cbn zeta in Hs.
  assert (completion (callGemini [lit "key-1"] MODELS fetch500ThenOk
                        (mkCursor 0 0)) = Resolved (lit "ok")) as Hdone
    by (vm_compute; reflexivity).
  rewrite Hdone in Hs. destruct Hs as (_ & j & Hj & Hok & _).
  exists j. split; [exact Hj | exact Hok].
Defined.

End AiServiceFacts.

(* ===================================================================== *)
(** * Properties of the binary64 operations the code uses *)
(* ===================================================================== *)

(** The Standard Library gives the operations of [SpecFloat] without lemmas;
    this module proves what the percentage needs: an integer below [2^53] is
    a binary64 number, and the quotient of two such integers, its product by
    100 and the decimal printed with one digit each stay within one unit in
    the last place. *)
Module JsNumberFacts.
Import JsNumber.
Local Open Scope Z_scope.

Lemma digits2_pos_bounds (p : positive) :
  2 ^ (Z.pos (digits2_pos p) - 1) ≤ Z.pos p < 2 ^ Z.pos (digits2_pos p).
Proof.
  induction p as [p IH|p IH|]; cbn [digits2_pos].
  - rewrite Pos2Z.inj_succ, Z.pow_succ_r by lia.
    replace (Z.succ (Z.pos (digits2_pos p)) - 1) with (Z.succ (Z.pos (digits2_pos p) - 1)) by lia.
    rewrite Z.pow_succ_r by lia. lia.
  - rewrite Pos2Z.inj_succ, Z.pow_succ_r by lia.
    replace (Z.succ (Z.pos (digits2_pos p)) - 1) with (Z.succ (Z.pos (digits2_pos p) - 1)) by lia.
    rewrite Z.pow_succ_r by lia. lia.
  - simpl. lia.
Qed.

Lemma digits2_pos_unique (p : positive) (k : Z) :
  2 ^ (k - 1) ≤ Z.pos p < 2 ^ k → Z.pos (digits2_pos p) = k.
Proof.
  intros [Hlo Hhi]. pose proof (digits2_pos_bounds p) as [Hlo' Hhi'].
  assert (0 < k).
  { destruct (Z.lt_trichotomy k 0) as [Hneg|[->|Hpos]]; [|simpl in Hhi; lia|done].
    rewrite Z.pow_neg_r in Hhi by done. lia. }
  destruct (Z.lt_trichotomy (Z.pos (digits2_pos p)) k) as [Hlt|[Heq|Hgt]]; [|done|].
  - assert (2 ^ Z.pos (digits2_pos p) ≤ 2 ^ (k - 1)) by (apply Z.pow_le_mono_r; lia). lia.
  - assert (2 ^ k ≤ 2 ^ (Z.pos (digits2_pos p) - 1)) by (apply Z.pow_le_mono_r; lia). lia.
Qed.

Lemma shr_1_spec mrs :
  0 ≤ shr_m mrs →
  shr_m (shr_1 mrs) = shr_m mrs / 2 ∧
  inexact (shr_1 mrs) = inexact mrs || negb (shr_m mrs mod 2 =? 0).
Proof.
  destruct mrs as [m r s]. unfold inexact. simpl. intros Hm.
  destruct m as [|[p|p|]|p]; try lia; simpl.
  - split; [done|]. by rewrite orb_false_r, orb_comm.
  - split.
    + rewrite Pos2Z.inj_xI. apply Z.div_unique with 1; lia.
    + rewrite Pos2Z.inj_xI. replace ((2 * Z.pos p + 1) mod 2) with 1.
      * simpl. by rewrite orb_true_r.
      * apply Z.mod_unique with (Z.pos p); lia.
  - split.
    + rewrite Pos2Z.inj_xO. apply Z.div_unique with 0; lia.
    + rewrite Pos2Z.inj_xO. replace ((2 * Z.pos p) mod 2) with 0.
      * simpl. by rewrite orb_false_r, orb_comm.
      * apply Z.mod_unique with (Z.pos p); lia.
  - split; [done|]. by rewrite orb_true_r.
Qed.

Lemma mod_mul_eqb (m A B : Z) :
  0 < A → 0 < B →
  (m mod (A * B) =? 0) = (m mod A =? 0) && ((m / A) mod B =? 0).
Proof.
  intros HA HB. rewrite Z.rem_mul_r by lia.
  pose proof (Z.mod_pos_bound m A HA). pose proof (Z.mod_pos_bound (m / A) B HB).
  destruct (Z.eqb_spec (m mod A) 0) as [->|], (Z.eqb_spec ((m / A) mod B) 0) as [->|];
    simpl; apply Z.eqb_eq || apply Z.eqb_neq; nia.
Qed.

Lemma shifted_trans j k mrs mrs1 mrs2 :
  0 ≤ shr_m mrs → 0 ≤ j → 0 ≤ k →
  shifted j mrs mrs1 → shifted k mrs1 mrs2 → shifted (j + k) mrs mrs2.
Proof.
  intros Hm Hj Hk [Hm1 Hi1] [Hm2 Hi2]. unfold shifted.
  assert (0 < 2 ^ j) by (apply Z.pow_pos_nonneg; lia).
  assert (0 < 2 ^ k) by (apply Z.pow_pos_nonneg; lia).
  rewrite Z.pow_add_r by lia. split.
  - rewrite Hm2, Hm1. apply Z.div_div; lia.
  - rewrite Hi2, Hi1, Hm1, mod_mul_eqb by lia.
    rewrite negb_andb. by rewrite orb_assoc.
Qed.

Lemma shifted_nonneg k mrs mrs' :
  0 ≤ shr_m mrs → 0 ≤ k → shifted k mrs mrs' → 0 ≤ shr_m mrs'.
Proof.
  intros Hm Hk [-> _]. apply Z.div_pos; [done|]. apply Z.pow_pos_nonneg; lia.
Qed.

Lemma shr_1_shifted mrs : 0 ≤ shr_m mrs → shifted 1 mrs (shr_1 mrs).
Proof. intros Hm. by apply shr_1_spec. Qed.

Lemma iter_shr_1_shifted p mrs :
  0 ≤ shr_m mrs → shifted (Z.pos p) mrs (SpecFloat.iter_pos shr_1 p mrs).
Proof.
  revert mrs. induction p as [p IH|p IH|]; intros mrs Hm; cbn [SpecFloat.iter_pos].
  - pose proof (shr_1_shifted mrs Hm) as H1.
    assert (0 ≤ shr_m (shr_1 mrs)) as Hm1
      by (eapply (shifted_nonneg 1); [exact Hm|lia|exact H1]).
    pose proof (IH _ Hm1) as H2.
    assert (0 ≤ shr_m (SpecFloat.iter_pos shr_1 p (shr_1 mrs))) as Hm2
      by (eapply (shifted_nonneg (Z.pos p)); [exact Hm1|lia|exact H2]).
    pose proof (IH _ Hm2) as H3.
    replace (Z.pos p~1) with (1 + Z.pos p + Z.pos p) by lia.
    eapply shifted_trans; [done|lia|lia| |exact H3].
    eapply shifted_trans; [done|lia|lia|exact H1|exact H2].
  - pose proof (IH _ Hm) as H1.
    assert (0 ≤ shr_m (SpecFloat.iter_pos shr_1 p mrs)) as Hm1
      by (eapply (shifted_nonneg (Z.pos p)); [exact Hm|lia|exact H1]).
    pose proof (IH _ Hm1) as H2.
    replace (Z.pos p~0) with (Z.pos p + Z.pos p) by lia.
    eapply shifted_trans; [done|lia|lia|exact H1|exact H2].
  - by apply shr_1_shifted.
Qed.

(** round_nearest_even moves up by at most one, and not at all when the
    shifted-out part is zero. *)
Lemma round_nearest_even_bounds mrs :
  let M0 := round_nearest_even (shr_m mrs) (loc_of_shr_record mrs) in
  shr_m mrs ≤ M0 ≤ shr_m mrs + 1 ∧ (inexact mrs = false → M0 = shr_m mrs).
Proof.
  destruct mrs as [m [] []]; unfold inexact; simpl; try (split; [lia|done]).
  destruct (Z.even m); split; try lia; done.
Qed.

Lemma shr_record_of_loc_m m l : shr_m (shr_record_of_loc m l) = m.
Proof. by destruct l as [|[]]. Qed.

Lemma shr_record_of_loc_inexact m l :
  inexact (shr_record_of_loc m l) = false ↔ l = loc_Exact.
Proof. destruct l as [|[]]; unfold inexact; simpl; split; done. Qed.

Lemma Zdigits2_pos (p : positive) : Zdigits2 (Z.pos p) = Z.pos (digits2_pos p).
Proof. done. Qed.

(** In the normal range of binary64, [shr_fexp] shifts a mantissa of [d]
    digits, [d ≥ 53], by [d - 53] places. *)
Lemma shr_fexp_spec (p : positive) (e : Z) (l : location) :
  53 ≤ Z.pos (digits2_pos p) →
  -1074 ≤ e + (Z.pos (digits2_pos p) - 53) →
  ∃ mrs', shr_fexp 53 1024 (Z.pos p) e l = (mrs', e + (Z.pos (digits2_pos p) - 53)) ∧
          shifted (Z.pos (digits2_pos p) - 53) (shr_record_of_loc (Z.pos p) l) mrs'.
Proof.
  intros Hd He. unfold shr_fexp, fexp, emin. rewrite Zdigits2_pos.
  set (d := Z.pos (digits2_pos p)) in *.
  replace (Z.max (d + e - 53) (3 - 1024 - 53) - e) with (d - 53) by lia.
  unfold shr. destruct (d - 53) as [|n|n] eqn:Hn; try lia.
  - eexists. split; [by rewrite Z.add_0_r|]. unfold shifted.
    rewrite Z.pow_0_r, Z.div_1_r, Z.mod_1_r. simpl. by rewrite orb_false_r.
  - eexists. split; [done|]. apply iter_shr_1_shifted.
    rewrite shr_record_of_loc_m. lia.
Qed.

Lemma binary_round_aux_spec (p : positive) (ex : Z) (lx : location) :
  let n := Z.pos (digits2_pos p) - 53 in
  0 ≤ n → -1074 ≤ ex + n → ex + n < 971 →
  ∃ M E,
    binary_round_aux 53 1024 false (Z.pos p) ex lx = S754_finite false M E ∧
    2 ^ 52 ≤ Z.pos M < 2 ^ 53 ∧
    ex + n ≤ E ≤ ex + n + 1 ∧
    Z.pos p / 2 ^ n ≤ Z.pos M * 2 ^ (E - (ex + n)) ≤ Z.pos p / 2 ^ n + 1 ∧
    (lx = loc_Exact → Z.pos p mod 2 ^ n = 0 →
     Z.pos M * 2 ^ (E - (ex + n)) = Z.pos p / 2 ^ n).
Proof.
  intros n Hn Hlo Hhi. unfold binary_round_aux.
  destruct (shr_fexp_spec p ex lx) as (mrs' & -> & [Hm' Hi']); [lia|fold n; lia|].
  fold n in Hm', Hi' |- *. rewrite shr_record_of_loc_m in Hm', Hi'.
  pose proof (digits2_pos_bounds p) as [Hplo Hphi].
  assert (0 < 2 ^ n) as Hpow by (apply Z.pow_pos_nonneg; lia).
  assert (2 ^ 52 ≤ shr_m mrs' < 2 ^ 53) as Hrange.
  { rewrite Hm'. split.
    - apply Z.div_le_lower_bound; [done|].
      rewrite <-Z.pow_add_r by lia.
      replace (n + 52) with (Z.pos (digits2_pos p) - 1) by lia. done.
    - apply Z.div_lt_upper_bound; [done|].
      rewrite <-Z.pow_add_r by lia.
      replace (n + 53) with (Z.pos (digits2_pos p)) by lia. done. }
  pose proof (round_nearest_even_bounds mrs') as [Hrne Hexact]. cbn zeta in Hrne, Hexact.
  set (M0 := round_nearest_even (shr_m mrs') (loc_of_shr_record mrs')) in *.
  assert (lx = loc_Exact → Z.pos p mod 2 ^ n = 0 → M0 = Z.pos p / 2 ^ n) as Hex.
  { intros Hl Hmod. rewrite <-Hm'. apply Hexact. rewrite Hi', Hmod.
    simpl. rewrite orb_false_r. by apply shr_record_of_loc_inexact. }
  destruct M0 as [|q|q] eqn:HM0; try lia.
  destruct (decide (Z.pos q < 2 ^ 53)) as [Hlt|Hge].
  - assert (Z.pos (digits2_pos q) = 53) as Hdq
      by (apply digits2_pos_unique; lia).
    destruct (shr_fexp_spec q (ex + n) loc_Exact) as (mrs'' & -> & [Hm'' _]);
      [lia|lia|].
    rewrite Hdq, Z.sub_diag, Z.pow_0_r, Z.div_1_r, shr_record_of_loc_m in Hm''.
    rewrite Hm'', Hdq, Z.sub_diag, Z.add_0_r.
    replace (ex + n <=? 1024 - 53) with true by (symmetry; apply Z.leb_le; lia).
    exists q, (ex + n). rewrite Z.sub_diag, Z.pow_0_r, Z.mul_1_r, <-Hm'.
    split_and!; try done; try lia.
    intros Hl Hmod. rewrite Hm'. by apply Hex.
  - assert (Z.pos q = 2 ^ 53) as Hq by lia.
    assert (Z.pos (digits2_pos q) = 54) as Hdq
      by (apply digits2_pos_unique; rewrite Hq; simpl; lia).
    destruct (shr_fexp_spec q (ex + n) loc_Exact) as (mrs'' & -> & [Hm'' _]);
      [lia|lia|].
    rewrite Hdq, shr_record_of_loc_m, Hq in Hm''.
    rewrite Hdq. replace (54 - 53) with 1 in * by lia.
    replace (2 ^ 53 / 2 ^ 1) with (2 ^ 52) in Hm'' by done.
    rewrite Hm''. simpl (2 ^ 52).
    replace (ex + n + 1 <=? 1024 - 53) with true by (symmetry; apply Z.leb_le; lia).
    exists 4503599627370496%positive, (ex + n + 1).
    replace (ex + n + 1 - (ex + n)) with 1 by lia.
    change (Z.pos 4503599627370496 * 2 ^ 1) with (2 ^ 53). rewrite <-Hq, <-Hm'.
    split_and!; try done; try lia.
    intros Hl Hmod. rewrite Hm'. by apply Hex.
Qed.

Lemma pos_iter_xO (p k : positive) :
  Z.pos (Pos.iter xO p k) = Z.pos p * 2 ^ Z.pos k.
Proof.
  induction k as [|k IH] using Pos.peano_ind.
  - simpl. lia.
  - rewrite Pos.iter_succ, Pos2Z.inj_xO, IH, Pos2Z.inj_succ, Z.pow_succ_r by lia.
    lia.
Qed.

(** An integer below [2 ^ 53] is a binary64 number: its mantissa is the
    integer shifted to 53 digits. *)
Lemma ofZ_spec (a : Z) :
  0 < a < 2 ^ 53 →
  ∃ m k, ofZ a = S754_finite false m (- k) ∧ 0 ≤ k ≤ 52 ∧
         Z.pos m = a * 2 ^ k ∧ 2 ^ 52 ≤ Z.pos m < 2 ^ 53.
Proof.
  intros [Hpos Hlt]. destruct a as [|p|p]; try lia.
  unfold ofZ, prec, emax, binary_normalize, binary_round.
  pose proof (digits2_pos_bounds p) as [Hplo Hphi].
  set (d := Z.pos (digits2_pos p)) in *.
  assert (1 ≤ d ≤ 53) as Hd.
  { split; [unfold d; lia|].
    destruct (decide (d ≤ 53)) as [|Hgt]; [done|].
    assert (2 ^ 53 ≤ 2 ^ (d - 1)) by (apply Z.pow_le_mono_r; lia). lia. }
  unfold fexp, emin. rewrite Z.add_0_r.
  replace (Z.max (d - 53) (3 - 1024 - 53)) with (d - 53) by lia.
  assert (∃ mz, shl_align p 0 (d - 53) = (mz, d - 53)
                ∧ Z.pos mz = Z.pos p * 2 ^ (53 - d)) as (mz & -> & Hmz).
  { unfold shl_align. rewrite Z.sub_0_r.
    destruct (d - 53) as [|k|k] eqn:Hk; try lia.
    - exists p. split; [done|]. replace (53 - d) with 0 by lia. lia.
    - eexists. split; [done|]. rewrite pos_iter_xO. f_equal. f_equal. lia. }
  assert (2 ^ 52 ≤ Z.pos mz < 2 ^ 53) as Hrange.
  { rewrite Hmz. split.
    - replace 52 with ((d - 1) + (53 - d)) by lia.
      rewrite Z.pow_add_r by lia. apply Z.mul_le_mono_nonneg_r; [|done].
      apply Z.pow_nonneg. lia.
    - replace 53 with (d + (53 - d)) at 2 by lia.
      rewrite Z.pow_add_r by lia. apply Z.mul_lt_mono_pos_r; [|done].
      apply Z.pow_pos_nonneg; lia. }
  assert (Z.pos (digits2_pos mz) = 53) as Hdz by (by apply digits2_pos_unique).
  destruct (binary_round_aux_spec mz (d - 53) loc_Exact)
    as (M & E & -> & HM & HE & Hval & Hexact); rewrite ?Hdz; try lia.
  rewrite Hdz, Z.sub_diag, Z.add_0_r, Z.pow_0_r, Z.div_1_r in *.
  specialize (Hexact eq_refl (Z.mod_1_r _)).
  assert (E = d - 53) as ->.
  { destruct (decide (E = d - 53)) as [|Hne]; [done|].
    replace (E - (d - 53)) with 1 in Hexact by lia. lia. }
  rewrite Z.sub_diag, Z.pow_0_r, Z.mul_1_r in Hexact.
  exists M, (53 - d). split_and!; try lia.
  f_equal. lia.
Qed.

Lemma new_location_exact (nb_steps k : Z) :
  new_location nb_steps k = loc_Exact ↔ k = 0.
Proof.
  unfold new_location, new_location_even, new_location_odd.
  destruct (Z.even nb_steps); destruct (Z.eqb_spec k 0); split; try done.
Qed.

Lemma SFdiv_core_binary_spec (m1 m2 : positive) (e1 e2 : Z) :
  Z.pos (digits2_pos m1) = 53 → Z.pos (digits2_pos m2) = 53 →
  -1021 ≤ e1 - e2 →
  SFdiv_core_binary 53 1024 (Z.pos m1) e1 (Z.pos m2) e2 =
  ((Z.pos m1 * 2 ^ 53) / Z.pos m2, e1 - e2 - 53,
   new_location (Z.pos m2) ((Z.pos m1 * 2 ^ 53) mod Z.pos m2)).
Proof.
  intros Hd1 Hd2 He. unfold SFdiv_core_binary. rewrite !Zdigits2_pos, Hd1, Hd2.
  unfold fexp, emin.
  replace (Z.min (Z.max (53 + e1 - (53 + e2) - 53) (3 - 1024 - 53)) (e1 - e2))
    with (e1 - e2 - 53) by lia.
  replace (e1 - e2 - (e1 - e2 - 53)) with 53 by lia.
  rewrite Z.shiftl_mul_pow2 by lia.
  unfold Z.div, Z.modulo. by destruct (Z.div_eucl _ _).
Qed.

Lemma abs_lt_scale (x y c : Z) :
  0 < c → Z.abs (x * c) < y * c → Z.abs x < y.
Proof.
  intros Hc. rewrite Z.abs_mul, (Z.abs_eq c) by lia.
  apply Z.mul_lt_mono_pos_r. done.
Qed.

Lemma le_of_close (M a b U : Z) :
  0 < a ≤ b → 0 < U → Z.abs (M * b - a * U) < b → M ≤ U.
Proof. intros Hab HU Habs. nia. Qed.

Lemma pow2_le_inv (j k : Z) : 0 ≤ j → 2 ^ j ≤ 2 ^ k → j ≤ k.
Proof.
  intros Hj Hle. destruct (decide (j ≤ k)) as [|Hgt]; [done|]. exfalso.
  destruct (decide (0 ≤ k)) as [Hk|Hk].
  - assert (2 ^ k < 2 ^ j) by (apply Z.pow_lt_mono_r; lia). lia.
  - rewrite (Z.pow_neg_r 2 k) in Hle by lia.
    assert (0 < 2 ^ j) by (apply Z.pow_pos_nonneg; lia). lia.
Qed.

(** The quotient of two integers [0 < a ≤ b < 2^53]: a binary64 number in
    (0, 1], less than one unit in the last place away from [a / b]. *)
Lemma div_spec (a b : Z) :
  0 < a ≤ b → b < 2 ^ 53 →
  ∃ M T, div (ofZ a) (ofZ b) = S754_finite false M (- T) ∧
         2 ^ 52 ≤ Z.pos M < 2 ^ 53 ∧ 52 ≤ T ≤ 105 ∧
         Z.pos M ≤ 2 ^ T ∧
         Z.abs (Z.pos M * b - a * 2 ^ T) < b.
Proof.
  intros Hab Hb.
  destruct (ofZ_spec a) as (m1 & k1 & -> & Hk1 & Hm1 & Hr1); [lia|].
  destruct (ofZ_spec b) as (m2 & k2 & -> & Hk2 & Hm2 & Hr2); [lia|].
  assert (Z.pos (digits2_pos m1) = 53) as Hd1 by (by apply digits2_pos_unique).
  assert (Z.pos (digits2_pos m2) = 53) as Hd2 by (by apply digits2_pos_unique).
  assert (0 < 2 ^ k1) as Hp1 by (apply Z.pow_pos_nonneg; lia).
  assert (0 < 2 ^ k2) as Hp2 by (apply Z.pow_pos_nonneg; lia).
  assert (k2 ≤ k1) as Hk.
  { destruct (decide (k2 ≤ k1)) as [|Hgt]; [done|]. exfalso.
    assert (2 ^ (k1 + 1) ≤ 2 ^ k2) by (apply Z.pow_le_mono_r; lia).
    rewrite Z.pow_add_r in * by lia. nia. }
  unfold div, prec, emax, SFdiv. rewrite SFdiv_core_binary_spec by (done || lia).
  set (A := Z.pos m1) in *. set (B := Z.pos m2) in *.
  set (q := A * 2 ^ 53 / B). set (r := (A * 2 ^ 53) mod B).
  assert (A * 2 ^ 53 = B * q + r ∧ 0 ≤ r < B) as [Hqr Hrb].
  { split; [apply Z.div_mod; lia|apply Z.mod_pos_bound; lia]. }
  assert (2 ^ 52 ≤ q < 2 ^ 54) as Hq.
  { split.
    - apply Z.div_le_lower_bound; [lia|]. nia.
    - apply Z.div_lt_upper_bound; [lia|].
      replace (2 ^ 54) with (2 * 2 ^ 53) by done. nia. }
  destruct q as [|pq|pq] eqn:Hpq; try lia.
  set (n := Z.pos (digits2_pos pq) - 53).
  assert (0 ≤ n ≤ 1) as Hn.
  { pose proof (digits2_pos_bounds pq) as [Hlo Hhi]. unfold n.
    set (d := Z.pos (digits2_pos pq)) in *. split.
    - destruct (decide (53 ≤ d)) as [|Hlt]; [lia|].
      assert (2 ^ d ≤ 2 ^ 52) by (apply Z.pow_le_mono_r; lia). lia.
    - destruct (decide (d ≤ 54)) as [|Hgt]; [lia|].
      assert (2 ^ 54 ≤ 2 ^ (d - 1)) by (apply Z.pow_le_mono_r; lia). lia. }
  destruct (binary_round_aux_spec pq (- k1 - - k2 - 53)
              (new_location B r))
    as (M & E & HM & HMr & HE & Hval & Hexact); fold n; try lia.
  fold n in HE, Hval, Hexact. cbn [xorb]. rewrite HM. clear HM.
  set (t := k1 - k2 + 53 - n).
  replace (- k1 - - k2 - 53 + n) with (- t) in * by (unfold t; lia).
  assert (52 ≤ t ≤ 105) as Ht by (unfold t; lia).
  remember (Z.pos M * 2 ^ (E - - t)) as M' eqn:HeqM'.
  assert (0 < 2 ^ n) as Hpn by (apply Z.pow_pos_nonneg; lia).
  set (m'' := Z.pos pq / 2 ^ n) in *. set (rho := Z.pos pq mod 2 ^ n).
  assert (Z.pos pq = 2 ^ n * m'' + rho ∧ 0 ≤ rho < 2 ^ n) as [Hrho Hrhob].
  { split; [apply Z.div_mod; lia|apply Z.mod_pos_bound; lia]. }
  (* the distance of the rounded mantissa to the quotient *)
  assert (Z.abs (M' * 2 ^ n * B - A * 2 ^ 53) < 2 ^ n * B) as Hdist.
  { destruct (decide (M' = m'')) as [->|Hne]; [nia|].
    assert (M' = m'' + 1) as -> by lia.
    assert (¬ (r = 0 ∧ rho = 0)) as Hinexact.
    { intros [Hr0 Hrho0]. apply Hne, Hexact; [by apply new_location_exact|done]. }
    nia. }
  (* the same distance in terms of a and b *)
  assert (2 ^ (k1 + 53) = 2 ^ t * 2 ^ n * 2 ^ k2) as Hscale.
  { rewrite <-!Z.pow_add_r by lia. f_equal. unfold t. lia. }
  assert (0 < 2 ^ t) as Hpt by (apply Z.pow_pos_nonneg; lia).
  assert (Z.abs (M' * b - a * 2 ^ t) < b) as Hdist'.
  { apply (abs_lt_scale _ _ (2 ^ n * 2 ^ k2)); [by apply Z.mul_pos_pos|].
    replace ((M' * b - a * 2 ^ t) * (2 ^ n * 2 ^ k2))
      with (M' * 2 ^ n * (b * 2 ^ k2) - a * 2 ^ k1 * 2 ^ 53).
    - rewrite <-Hm1, <-Hm2. replace (b * (2 ^ n * 2 ^ k2)) with (2 ^ n * (b * 2 ^ k2)) by ring.
      by rewrite <-Hm2.
    - rewrite <-(Z.mul_assoc a), <-(Z.pow_add_r 2 k1 53), Hscale by lia. ring. }
  assert (M' ≤ 2 ^ t) as Hle by (by apply (le_of_close M' a b)).
  clear Hdist Hscale Hexact Hval Hrho Hrhob Hqr Hrb.
  destruct (decide (E = - t)) as [->|HE'].
  - exists M, t. rewrite Z.sub_diag, Z.pow_0_r, Z.mul_1_r in HeqM'. subst M'.
    split_and!; try done; lia.
  - assert (E = - t + 1) as -> by lia.
    replace (- t + 1 - - t) with 1 in HeqM' by lia. rewrite Z.pow_1_r in HeqM'.
    assert (53 ≤ t) as Ht'.
    { apply pow2_le_inv; [lia|]. lia. }
    assert (2 ^ t = 2 * 2 ^ (t - 1)) as Hpow2.
    { rewrite <-Z.pow_succ_r by lia. f_equal. lia. }
    exists M, (t - 1). subst M'. rewrite Hpow2 in Hdist', Hle.
    split_and!; try lia.
    f_equal. lia.
Qed.

Lemma ofZ_100 : ofZ 100 = S754_finite false 7036874417766400 (-46).
Proof. vm_compute. reflexivity. Qed.

Lemma round_dist (P N m rho M' : Z) :
  P = N * m + rho → 0 ≤ rho < N → m ≤ M' ≤ m + 1 → (rho = 0 → M' = m) →
  Z.abs (M' * N - P) < N.
Proof.
  intros -> Hrho HM Hex. destruct (decide (M' = m)) as [->|Hne].
  - replace (m * N - (N * m + rho)) with (- rho) by ring. lia.
  - assert (M' = m + 1) as -> by lia.
    replace ((m + 1) * N - (N * m + rho)) with (N - rho) by ring. lia.
Qed.

Lemma round_le (P N m rho M' w : Z) :
  P = N * m + rho → 0 ≤ rho < N → m ≤ M' ≤ m + 1 → (rho = 0 → M' = m) →
  P ≤ N * w → M' ≤ w.
Proof.
  intros -> Hrho HM Hex Hle. destruct (decide (M' = m)) as [->|Hne]; [nia|].
  assert (M' = m + 1) as -> by lia. nia.
Qed.

(** The product by 100 of a binary64 number [x] in (0, 1]: a binary64
    number in (0, 100], less than [2 ^ 7] units in the last place of [x]
    away from [100 x]. *)
Lemma mul100_spec (M : positive) (T : Z) :
  2 ^ 52 ≤ Z.pos M < 2 ^ 53 → 52 ≤ T ≤ 105 → Z.pos M ≤ 2 ^ T →
  ∃ M2 T2, mul (S754_finite false M (- T)) (ofZ 100) = S754_finite false M2 (- T2) ∧
           46 ≤ T2 ≤ 99 ∧
           Z.pos M2 ≤ 100 * 2 ^ T2 ∧
           Z.abs (Z.pos M2 * 2 ^ T - 100 * Z.pos M * 2 ^ T2) < 128 * 2 ^ T2.
Proof.
  intros HM HT Hle. rewrite ofZ_100. unfold mul, prec, emax, SFmul. cbn [xorb].
  set (P := (M * 7036874417766400)%positive).
  assert (Z.pos P = Z.pos M * (100 * 2 ^ 46)) as HP
    by (unfold P; rewrite Pos2Z.inj_mul; reflexivity).
  assert (0 < 2 ^ T) as HpT by (apply Z.pow_pos_nonneg; lia).
  set (n := Z.pos (digits2_pos P) - 53).
  assert (52 ≤ n ≤ 53) as Hn.
  { pose proof (digits2_pos_bounds P) as [Hlo Hhi]. unfold n.
    set (d := Z.pos (digits2_pos P)) in *. split.
    - destruct (decide (105 ≤ d)) as [|Hlt]; [lia|]. exfalso.
      assert (2 ^ d ≤ 2 ^ 104) by (apply Z.pow_le_mono_r; lia). lia.
    - destruct (decide (d ≤ 106)) as [|Hgt]; [lia|]. exfalso.
      assert (2 ^ 106 ≤ 2 ^ (d - 1)) by (apply Z.pow_le_mono_r; lia). lia. }
  destruct (binary_round_aux_spec P (- T + -46) loc_Exact)
    as (M2 & E2 & -> & HM2 & HE2 & Hval & Hexact); fold n; try lia.
  fold n in HE2, Hval, Hexact. specialize (Hexact eq_refl).
  assert (0 < 2 ^ n) as Hpn by (apply Z.pow_pos_nonneg; lia).
  set (m := Z.pos P / 2 ^ n) in *. set (rho := Z.pos P mod 2 ^ n) in *.
  assert (Z.pos P = 2 ^ n * m + rho ∧ 0 ≤ rho < 2 ^ n) as [Hrho Hrhob].
  { split; [apply Z.div_mod; lia|apply Z.mod_pos_bound; lia]. }
  set (delta := E2 - (- T + -46 + n)) in *.
  assert (0 ≤ delta ≤ 1) as Hdelta by (unfold delta; lia).
  set (T2 := - E2).
  assert (T2 = T + 46 - n - delta) as HT2eq by (unfold T2, delta; lia).
  assert (0 ≤ T2) as HT2 by lia.
  assert (0 < 2 ^ T2) as HpT2 by (apply Z.pow_pos_nonneg; lia).
  assert (0 < 2 ^ delta) as Hpd by (apply Z.pow_pos_nonneg; lia).
  assert (2 ^ T * 2 ^ 46 = 2 ^ T2 * (2 ^ delta * 2 ^ n)) as Hscale.
  { rewrite <-!Z.pow_add_r by lia. f_equal. lia. }
  remember (Z.pos M2 * 2 ^ delta) as M2' eqn:HeqM2'.
  pose proof (round_dist _ _ _ _ _ Hrho Hrhob Hval Hexact) as Hdist.
  assert (M2' ≤ 100 * 2 ^ (T + 46 - n)) as Hub.
  { apply (round_le _ _ _ _ _ _ Hrho Hrhob Hval Hexact).
    rewrite HP. replace (2 ^ n * (100 * 2 ^ (T + 46 - n))) with (2 ^ T * (100 * 2 ^ 46)).
    - apply Z.mul_le_mono_nonneg_r; [lia|done].
    - replace (2 ^ n * (100 * 2 ^ (T + 46 - n))) with (100 * (2 ^ n * 2 ^ (T + 46 - n))) by ring.
      rewrite <-Z.pow_add_r by lia. replace (n + (T + 46 - n)) with (T + 46) by lia.
      rewrite Z.pow_add_r by lia. ring. }
  assert (Z.pos M2 ≤ 100 * 2 ^ T2) as Hub2.
  { apply (Z.mul_le_mono_pos_r _ _ (2 ^ delta)); [done|]. rewrite <-HeqM2'.
    replace (100 * 2 ^ T2 * 2 ^ delta) with (100 * 2 ^ (T + 46 - n)); [done|].
    rewrite <-Z.mul_assoc, <-Z.pow_add_r by lia. do 2 f_equal. lia. }
  assert (46 ≤ T2) as HT2lo.
  { destruct (decide (46 ≤ T2)) as [|Hlt]; [done|]. exfalso.
    assert (2 ^ T2 ≤ 2 ^ 45) by (apply Z.pow_le_mono_r; lia). lia. }
  exists M2, T2. split_and!; try done; try lia.
  { f_equal. unfold T2. lia. }
  apply (abs_lt_scale _ _ (2 ^ 46)); [lia|].
  replace ((Z.pos M2 * 2 ^ T - 100 * Z.pos M * 2 ^ T2) * 2 ^ 46)
    with ((M2' * 2 ^ n - Z.pos P) * 2 ^ T2).
  - rewrite Z.abs_mul, (Z.abs_eq (2 ^ T2)) by lia.
    assert (2 ^ n ≤ 2 ^ 53) by (apply Z.pow_le_mono_r; lia).
    change (2 ^ 46) with 70368744177664 in *. change (2 ^ 53) with 9007199254740992 in *.
    nia.
  - rewrite HP, HeqM2'.
    transitivity (Z.pos M2 * (2 ^ T2 * (2 ^ delta * 2 ^ n))
                  - 100 * Z.pos M * 2 ^ T2 * 2 ^ 46); [ring|].
    rewrite <-Hscale. ring.
Qed.

(** The decimal [toFixed(1)] prints for a positive binary64 number with a
    negative exponent: the nearest number of tenths, the larger of two. *)
Lemma toFixed1_spec (M : positive) (T : Z) :
  0 < T →
  ∃ n, toFixed1 (S754_finite false M (- T)) = Some n ∧
       2 * n * 2 ^ T ≤ 20 * Z.pos M + 2 ^ T < 2 * (n + 1) * 2 ^ T.
Proof.
  intros HT. destruct T as [|p|p]; try lia.
  change (- Z.pos p) with (Z.neg p). cbn [toFixed1].
  eexists. split; [reflexivity|].
  assert (0 < 2 ^ Z.pos p) as Hp by (apply Z.pow_pos_nonneg; lia).
  rewrite Z.pow_add_r, Z.pow_1_r by lia.
  pose proof (Z.div_mod (20 * Z.pos M + 2 ^ Z.pos p) (2 ^ Z.pos p * 2) ltac:(lia)) as Hdm.
  pose proof (Z.mod_pos_bound (20 * Z.pos M + 2 ^ Z.pos p) (2 ^ Z.pos p * 2) ltac:(lia)) as Hmb.
  set (n := (20 * Z.pos M + 2 ^ Z.pos p) / (2 ^ Z.pos p * 2)) in *.
  lia.
Qed.

(** The three roundings together: the error of the quotient, of the product
    and of the decimal, against the exact value [1000 a / b] in tenths. *)
Lemma tenths_close (a b M U M2 V n : Z) :
  0 < b → 2 ^ 52 ≤ U → 0 < V →
  Z.abs (M * b - a * U) < b →
  Z.abs (M2 * U - 100 * M * V) < 128 * V →
  2 * n * V ≤ 20 * M2 + V < 2 * (n + 1) * V →
  Z.abs (n * b - 1000 * a) * 10 ^ 12 < b * (5 * 10 ^ 11 + 1).
Proof.
  intros Hb HU HV H1 H2 H3.
  remember (2 * n * V - 20 * M2) as x eqn:Hx.
  remember (M2 * U - 100 * M * V) as y eqn:Hy.
  remember (M * b - a * U) as z eqn:Hz.
  remember (n * b - 1000 * a) as w eqn:Hw.
  assert (w * (2 * U * V) = b * U * x + 20 * b * y + 2000 * V * z) as Hid
    by (subst; ring).
  assert (- V ≤ x ≤ V) as Hxb by lia.
  assert (- (128 * V) < y < 128 * V) as Hyb by lia.
  assert (- b < z < b) as Hzb by lia.
  assert (0 < U) as HU' by lia.
  assert (- (b * U * V) ≤ b * U * x ≤ b * U * V) as Hx'.
  { assert (0 ≤ b * U) by nia. split; nia. }
  assert (- (b * (128 * V)) < b * y < b * (128 * V)) as Hy' by (split; nia).
  assert (- (V * b) < V * z < V * b) as Hz' by (split; nia).
  assert (Z.abs w * (2 * U) < b * (U + 4560)) as Hmain.
  { apply (Z.mul_lt_mono_pos_r V); [done|].
    replace (Z.abs w * (2 * U) * V) with (Z.abs (w * (2 * U * V))).
    - rewrite Hid. lia.
    - rewrite Z.abs_mul, (Z.abs_eq (2 * U * V)) by nia. ring. }
  apply (Z.mul_lt_mono_pos_r (2 * U)); [lia|].
  assert (4560 * 10 ^ 12 ≤ 2 * U) by lia.
  assert (0 ≤ Z.abs w) by lia.
  nia.
Qed.

Lemma tenths_spec (a b : Z) :
  0 ≤ a ≤ b → 0 < b < 2 ^ 53 →
  ∃ n, toFixed1 (mul (div (ofZ a) (ofZ b)) (ofZ 100)) = Some n ∧
       0 ≤ n ≤ 1000 ∧
       Z.abs (n * b - 1000 * a) * 10 ^ 12 < b * (5 * 10 ^ 11 + 1).
Proof.
  intros Ha Hb. destruct (decide (a = 0)) as [->|Hne].
  - exists 0. destruct (ofZ_spec b) as (m & k & -> & _); [lia|].
    rewrite ofZ_100. split; [done|]. lia.
  - destruct (div_spec a b) as (M & T & -> & HM & HT & Hle & Hdiv); [lia..|].
    destruct (mul100_spec M T HM HT Hle) as (M2 & T2 & -> & HT2 & Hle2 & Hmul).
    destruct (toFixed1_spec M2 T2) as (n & -> & Hn); [lia|].
    assert (0 < 2 ^ T2) as HV by (apply Z.pow_pos_nonneg; lia).
    assert (2 ^ 52 ≤ 2 ^ T) as HU by (apply Z.pow_le_mono_r; lia).
    exists n. split; [done|]. split; [split; nia|].
    apply (tenths_close a b (Z.pos M) (2 ^ T) (Z.pos M2) (2 ^ T2) n);
      [lia|exact HU|exact HV|exact Hdiv|exact Hmul|exact Hn].
Qed.

End JsNumberFacts.

(* ===================================================================== *)
(** * Properties of the chunking (src/utils/textProcessing.js) *)
(* ===================================================================== *)

Module TextProcessingFacts.
Import TextProcessing.

Lemma overlapWords_default : overlapWordsOf 1500 25 = Some 375%Z.
Proof. vm_compute. reflexivity. Qed.

(** In binary64 the overlap is not always the floor of the exact product:
    29 percent of 100 words is 28 words. *)
Example overlapWords_29_of_100 : overlapWordsOf 100 29 = Some 28%Z.
Proof. vm_compute. reflexivity. Qed.



Lemma chunkLoop_S fuel words maxWords overlapWords startIdx chunks :
  chunkLoop (S fuel) words maxWords overlapWords startIdx chunks =
  let len := Z.of_nat (length words) in
  if (startIdx <? len)%Z then
    let endIdx := Z.min (startIdx + maxWords) len in
    let chunks' := chunks ++ [join (lit " ") (slice words startIdx endIdx)] in
    if (len <=? endIdx)%Z then Some chunks'
    else chunkLoop fuel words maxWords overlapWords (endIdx - overlapWords) chunks'
  else Some chunks.
Proof. reflexivity. Qed.



(** ** The normalized text *)

Lemma replaceCrLf_cons c d t :
  replaceCrLf (c :: d :: t)
  = if (c =? 13)%N && (d =? 10)%N then 10%N :: replaceCrLf t
    else c :: replaceCrLf (d :: t).
Proof. reflexivity. Qed.

Lemma length_replaceCrLf s : length (replaceCrLf s) ≤ length s.
Proof.
  induction s as [s IH] using (induction_ltof1 _ length). unfold ltof in IH.
  destruct s as [|c [|d t]]; [done|done|]. rewrite replaceCrLf_cons.
  destruct ((c =? 13)%N && (d =? 10)%N).
  - cbn [length]. specialize (IH t). cbn [length] in IH. lia.
  - specialize (IH (d :: t)). cbn [length] in *. lia.
Qed.

Lemma replaceCrLf_id s : 13%N ∉ s → replaceCrLf s = s.
Proof.
  induction s as [|c s IH]; [done|]. intros Hnot.
  apply not_elem_of_cons in Hnot as [Hc Hs].
  destruct s as [|d t]; [done|]. rewrite replaceCrLf_cons.
  rewrite (proj2 (N.eqb_neq c 13)) by done. cbn [andb].
  by rewrite IH.
Qed.

Lemma length_collapseNewlines run s :
  length (collapseNewlines run s) ≤ length s.
Proof.
  revert run. induction s as [|c s IH]; intros run; [done|].
  cbn [collapseNewlines]. destruct (c =? 10)%N.
  - case_bool_decide; cbn [length]; specialize (IH (S run)); lia.
  - cbn [length]. specialize (IH 0). lia.
Qed.

Lemma length_collapseBlanks inRun s :
  length (collapseBlanks inRun s) ≤ length s.
Proof.
  revert inRun. induction s as [|c s IH]; intros inRun; [done|].
  cbn [collapseBlanks]. destruct ((c =? 32)%N || (c =? 9)%N).
  - destruct inRun; cbn [length]; specialize (IH true); lia.
  - cbn [length]. specialize (IH false). lia.
Qed.

Lemma elem_of_collapseNewlines run s c :
  c ∈ collapseNewlines run s → c ∈ s.
Proof.
  revert run. induction s as [|d s IH]; intros run; [done|].
  cbn [collapseNewlines]. destruct (d =? 10)%N.
  - case_bool_decide.
    + intros [->|Hin]%elem_of_cons; [by left|]. right. by eapply IH.
    + intros Hin. right. by eapply IH.
  - intros [->|Hin]%elem_of_cons; [by left|]. right. by eapply IH.
Qed.

Lemma elem_of_collapseBlanks inRun s c :
  c ∈ collapseBlanks inRun s → c ∈ s ∨ c = 32%N.
Proof.
  revert inRun. induction s as [|d s IH]; intros inRun; [by left|].
  cbn [collapseBlanks]. destruct ((d =? 32)%N || (d =? 9)%N).
  - destruct inRun.
    + intros Hin. destruct (IH _ Hin); [left; by right|by right].
    + intros [->|Hin]%elem_of_cons; [by right|].
      destruct (IH _ Hin); [left; by right|by right].
  - intros [->|Hin]%elem_of_cons; [left; by left|].
    destruct (IH _ Hin); [left; by right|by right].
Qed.

Lemma elem_of_trim s c : c ∈ trim s → c ∈ s.
Proof.
  intros Hin. destruct (JsStringFacts.trim_infix s) as (w1 & w2 & Hs & _).
  rewrite Hs. apply elem_of_app. right. apply elem_of_app. by left.
Qed.

(** A run of line feeds already collapsed stays as it is, whatever shorter
    run the scan starts from. *)
Lemma collapseNewlines_mono k j s :
  k ≤ j → collapseNewlines k (collapseNewlines j s) = collapseNewlines j s.
Proof.
  revert k j. induction s as [|c s IH]; intros k j Hkj; [done|].
  cbn [collapseNewlines]. destruct (c =? 10)%N eqn:Hc.
  - case_bool_decide as Hj.
    + cbn [collapseNewlines]. rewrite Hc, bool_decide_eq_true_2 by lia.
      f_equal. apply IH. lia.
    + apply IH. lia.
  - cbn [collapseNewlines]. rewrite Hc. f_equal. by apply IH.
Qed.

Lemma collapseNewlines_fixed_0 j s :
  collapseNewlines j s = s → collapseNewlines 0 s = s.
Proof.
  intros Hfix. rewrite <-Hfix at 1. rewrite collapseNewlines_mono by lia. done.
Qed.

Lemma collapseBlanks_mono b b' s :
  (b = true → b' = true) →
  collapseBlanks b (collapseBlanks b' s) = collapseBlanks b' s.
Proof.
  revert b b'. induction s as [|c s IH]; intros b b' Hb; [done|].
  cbn [collapseBlanks]. destruct ((c =? 32)%N || (c =? 9)%N) eqn:Hc.
  - destruct b'.
    + by apply IH.
    + destruct b; [by specialize (Hb eq_refl)|].
      cbn [collapseBlanks]. change ((32 =? 32)%N || (32 =? 9)%N) with true.
      cbn match. f_equal. by apply IH.
  - cbn [collapseBlanks]. rewrite Hc. f_equal. by apply IH.
Qed.

Lemma collapseBlanks_fixed_false b s :
  collapseBlanks b s = s → collapseBlanks false s = s.
Proof.
  intros Hfix. rewrite <-Hfix at 1. rewrite collapseBlanks_mono by done. done.
Qed.

(** Collapsing the blanks creates no run of line feeds. *)
Lemma collapseNewlines_collapseBlanks k b s :
  collapseNewlines k s = s → (b = true → k = 0) →
  collapseNewlines k (collapseBlanks b s) = collapseBlanks b s.
Proof.
  revert k b. induction s as [|c s IH]; intros k b Hfix Hb; [done|].
  cbn [collapseNewlines collapseBlanks] in *.
  destruct (c =? 10)%N eqn:Hc.
  - apply N.eqb_eq in Hc as ->. change ((10 =? 32)%N || (10 =? 9)%N) with false.
    cbn match. cbn [collapseNewlines]. change (10 =? 10)%N with true. cbn match.
    case_bool_decide as Hk.
    + injection Hfix as Hfix. f_equal. by apply IH.
    + pose proof (length_collapseNewlines (S k) s) as Hlen.
      rewrite Hfix in Hlen. cbn [length] in Hlen. lia.
  - injection Hfix as Hfix.
    destruct ((c =? 32)%N || (c =? 9)%N) eqn:Hblank.
    + destruct b.
      * rewrite (Hb eq_refl). by apply IH.
      * cbn [collapseNewlines]. change (32 =? 10)%N with false. cbn match.
        f_equal. by apply IH.
    + cbn [collapseNewlines]. rewrite Hc. f_equal. by apply IH.
Qed.

(** What a scan leaves unchanged, it leaves unchanged in every piece. *)
Lemma collapseNewlines_fixed_prefix k p q :
  collapseNewlines k (p ++ q) = p ++ q → collapseNewlines k p = p.
Proof.
  revert k. induction p as [|c p IH]; intros k; [done|].
  cbn [app collapseNewlines]. destruct (c =? 10)%N.
  - case_bool_decide as Hk.
    + intros [= Hfix]. f_equal. by apply IH.
    + intros Hfix. pose proof (length_collapseNewlines (S k) (p ++ q)) as Hlen.
      rewrite Hfix in Hlen. cbn [length] in Hlen. lia.
  - intros [= Hfix]. f_equal. by apply IH.
Qed.

Lemma collapseNewlines_fixed_suffix k p q :
  collapseNewlines k (p ++ q) = p ++ q → collapseNewlines 0 q = q.
Proof.
  revert k. induction p as [|c p IH]; intros k.
  - apply collapseNewlines_fixed_0.
  - cbn [app collapseNewlines]. destruct (c =? 10)%N.
    + case_bool_decide as Hk.
      * intros [= Hfix]. by eapply IH.
      * intros Hfix. pose proof (length_collapseNewlines (S k) (p ++ q)) as Hlen.
        rewrite Hfix in Hlen. cbn [length] in Hlen. lia.
    + intros [= Hfix]. by eapply IH.
Qed.

Lemma collapseBlanks_fixed_prefix b p q :
  collapseBlanks b (p ++ q) = p ++ q → collapseBlanks b p = p.
Proof.
  revert b. induction p as [|c p IH]; intros b; [done|].
  cbn [app collapseBlanks]. destruct ((c =? 32)%N || (c =? 9)%N).
  - destruct b.
    + intros Hfix. pose proof (length_collapseBlanks true (p ++ q)) as Hlen.
      rewrite Hfix in Hlen. cbn [length] in Hlen. lia.
    + intros [= <- Hfix]. f_equal. by apply IH.
  - intros [= Hfix]. f_equal. by apply IH.
Qed.

Lemma collapseBlanks_fixed_suffix b p q :
  collapseBlanks b (p ++ q) = p ++ q → collapseBlanks false q = q.
Proof.
  revert b. induction p as [|c p IH]; intros b.
  - apply collapseBlanks_fixed_false.
  - cbn [app collapseBlanks]. destruct ((c =? 32)%N || (c =? 9)%N).
    + destruct b.
      * intros Hfix. pose proof (length_collapseBlanks true (p ++ q)) as Hlen.
        rewrite Hfix in Hlen. cbn [length] in Hlen. lia.
      * intros [= _ Hfix]. by eapply IH.
    + intros [= Hfix]. by eapply IH.
Qed.

(** The normalized text is a fixed point of the last three steps. *)
Lemma normalizeText_fixed text :
  let n := normalizeText text in
  collapseNewlines 0 n = n ∧ collapseBlanks false n = n ∧ trim n = n.
Proof.
  intros n. unfold n, normalizeText.
  set (x := collapseNewlines 0 (replaceCrLf text)).
  set (y := collapseBlanks false x).
  assert (collapseNewlines 0 y = y) as Hn.
  { unfold y. apply collapseNewlines_collapseBlanks; [|done].
    unfold x. by apply collapseNewlines_mono. }
  assert (collapseBlanks false y = y) as Hb
    by (unfold y; by apply collapseBlanks_mono).
  destruct (JsStringFacts.trim_infix y) as (w1 & w2 & Hy & _).
  split_and!.
  - rewrite Hy in Hn. apply collapseNewlines_fixed_suffix in Hn.
    by apply collapseNewlines_fixed_prefix in Hn.
  - rewrite Hy in Hb. apply collapseBlanks_fixed_suffix in Hb.
    by apply collapseBlanks_fixed_prefix in Hb.
  - apply JsStringFacts.trim_idemp.
Qed.

(** What a fixed point of the two scans looks like. *)
Lemma collapseBlanks_fixed_shape b s :
  collapseBlanks b s = s →
  (9%N ∉ s) ∧
  (b = true → head s ≠ Some 32%N) ∧
  (∀ i, s !! i = Some 32%N → s !! S i ≠ Some 32%N).
Proof.
  revert b. induction s as [|c s IH]; intros b.
  - intros _. split_and!; [by apply not_elem_of_nil|done|done].
  - cbn [collapseBlanks]. destruct ((c =? 32)%N || (c =? 9)%N) eqn:Hc.
    + destruct b.
      * intros Hfix. pose proof (length_collapseBlanks true s) as Hlen.
        rewrite Hfix in Hlen. cbn [length] in Hlen. lia.
      * intros [= <- Hfix]. destruct (IH true Hfix) as (Htab & Hhead & Hadj).
        split_and!.
        -- apply not_elem_of_cons. split; [done|done].
        -- done.
        -- intros [|i]; [|apply Hadj].
           intros _. simpl. destruct s as [|d s]; [done|]. simpl in *.
           intros [= ->]. by apply Hhead.
    + intros [= Hfix]. destruct (IH false Hfix) as (Htab & _ & Hadj).
      rewrite orb_false_iff, !N.eqb_neq in Hc. destruct Hc as [Hc32 Hc9].
      split_and!.
      * apply not_elem_of_cons. split; [done|done].
      * intros _. simpl. congruence.
      * intros [|i]; [|apply Hadj]. simpl. congruence.
Qed.

Lemma collapseNewlines_fixed_shape k s :
  collapseNewlines k s = s →
  (2 ≤ k → head s ≠ Some 10%N) ∧
  (1 ≤ k → ¬ (s !! 0 = Some 10%N ∧ s !! 1 = Some 10%N)) ∧
  (∀ i, ¬ (s !! i = Some 10%N ∧ s !! S i = Some 10%N
           ∧ s !! S (S i) = Some 10%N)).
Proof.
  revert k. induction s as [|c s IH]; intros k.
  - intros _. split_and!; [done|by intros _ [? _]|by intros i [? _]].
  - cbn [collapseNewlines]. destruct (c =? 10)%N eqn:Hc.
    + apply N.eqb_eq in Hc as ->. case_bool_decide as Hk.
      * intros [= Hfix]. destruct (IH (S k) Hfix) as (Hhead & Htwo & Hthree).
        split_and!.
        -- intros Hk2. lia.
        -- intros Hk1 [_ H1]. simpl in H1. apply Hhead; [lia|].
           by destruct s.
        -- intros [|i]; [|apply Hthree].
           intros (_ & H1 & H2). simpl in H1, H2. apply Htwo; [lia|done].
      * intros Hfix. pose proof (length_collapseNewlines (S k) s) as Hlen.
        rewrite Hfix in Hlen. cbn [length] in Hlen. lia.
    + apply N.eqb_neq in Hc. intros [= Hfix].
      destruct (IH 0 Hfix) as (_ & _ & Hthree).
      split_and!.
      * intros _. simpl. congruence.
      * intros _ [H0 _]. simpl in H0. congruence.
      * intros [|i]; [|apply Hthree]. intros [H0 _]. simpl in H0. congruence.
Qed.

(** X23.  The normalized text has no white space at either end, no tab, no
    two spaces in a row and no three line feeds in a row, and it is not
    longer than the text. *)
Theorem normalizeText_shape text :
  let n := normalizeText text in
  (∀ c, head n = Some c → is_space c = false) ∧
  (∀ c, last n = Some c → is_space c = false) ∧
  (9%N ∉ n) ∧
  (∀ i, n !! i = Some 32%N → n !! S i ≠ Some 32%N) ∧
  (∀ i, ¬ (n !! i = Some 10%N ∧ n !! S i = Some 10%N
           ∧ n !! S (S i) = Some 10%N)) ∧
  length n ≤ length text.
Proof.
  intros n. destruct (normalizeText_fixed text) as (Hn & Hb & Ht).
  fold n in Hn, Hb, Ht.
  destruct (collapseBlanks_fixed_shape false n Hb) as (Htab & _ & Hadj).
  destruct (collapseNewlines_fixed_shape 0 n Hn) as (_ & _ & Hthree).
  split_and!; [| |done|done|done|].
  - intros c. rewrite <-Ht. apply JsStringFacts.trim_head.
  - intros c. rewrite <-Ht. apply JsStringFacts.trim_last.
  - unfold n, normalizeText.
    etrans; [apply JsStringFacts.length_trim|].
    etrans; [apply length_collapseBlanks|].
    etrans; [apply length_collapseNewlines|]. apply length_replaceCrLf.
Qed.

Lemma normalizeText_twice text :
  13%N ∉ replaceCrLf text →
  normalizeText (normalizeText text) = normalizeText text.
Proof.
  intros Hcr. destruct (normalizeText_fixed text) as (Hn & Hb & Ht).
  cbn zeta in *.
  assert (13%N ∉ normalizeText text) as Hcr'.
  { unfold normalizeText. intros Hin%elem_of_trim.
    apply elem_of_collapseBlanks in Hin as [Hin|Hin]; [|done].
    by apply elem_of_collapseNewlines in Hin. }
  unfold normalizeText at 1. rewrite (replaceCrLf_id _ Hcr'). by rewrite Hn, Hb.
Qed.

(** X24.  Normalizing twice is normalizing once, for a text in which every
    carriage return is taken away by the first replacement (each one is
    followed by a line feed and preceded by no other carriage return); then
    [chunkText] gives for the normalized text the chunks of the text. *)
Theorem normalizeText_idempotent text maxWords overlapPercent :
  13%N ∉ replaceCrLf text →
  normalizeText (normalizeText text) = normalizeText text ∧
  chunkText (normalizeText text) maxWords overlapPercent
  = chunkText text maxWords overlapPercent.
Proof.
  intros Hcr. pose proof (normalizeText_twice text Hcr) as Htwice.
  split; [done|]. unfold chunkText. by rewrite Htwice.
Qed.

Lemma normalizeText_idempotent_witness :
  (13%N ∉ replaceCrLf ([97; 13; 10; 10; 10; 32; 9]%N ++ lit " b ")) ∧
  normalizeText (normalizeText ([97; 13; 10; 10; 10; 32; 9]%N ++ lit " b "))
  = normalizeText ([97; 13; 10; 10; 10; 32; 9]%N ++ lit " b ").
Proof.
  assert (13%N ∉ replaceCrLf ([97; 13; 10; 10; 10; 32; 9]%N ++ lit " b "))
    as Hcr.
  { vm_compute. intros Hin.
    repeat (apply elem_of_cons in Hin as [Hin|Hin]; [discriminate Hin|]).
    by apply elem_of_nil in Hin. }
  split; [exact Hcr|]. exact (proj1 (normalizeText_idempotent _ 1500 25 Hcr)).
Defined.

(** ** The chunks of a long text *)

Lemma slice_take_drop {A} (l : list A) (start stop : nat) :
  start ≤ stop ≤ length l →
  slice l (Z.of_nat start) (Z.of_nat stop) = take (stop - start) (drop start l).
Proof.
  intros Hle. unfold slice.
  rewrite (proj2 (Z.ltb_ge (Z.of_nat start) 0)) by lia.
  rewrite (proj2 (Z.ltb_ge (Z.of_nat stop) 0)) by lia.
  rewrite !Z.min_l by lia. rewrite Nat2Z.id. f_equal. lia.
Qed.

Lemma ceil_step (d step : nat) :
  0 < step → 0 < d →
  (d + (step - 1)) / step = S ((d - step + (step - 1)) / step).
Proof.
  intros Hstep Hd. destruct (decide (step ≤ d)) as [Hle|Hlt].
  - replace (d + (step - 1)) with ((d - step + (step - 1)) + 1 * step) by lia.
    rewrite Nat.div_add by lia. lia.
  - replace (d - step) with 0 by lia.
    rewrite (Nat.div_small (0 + (step - 1))) by lia.
    symmetry. apply (Nat.div_unique _ _ _ (d - 1)); lia.
Qed.

(** The loop, when it advances by [step] words at a time: the chunks start
    at [startIdx], [startIdx + step], ... and hold [maxWords] words each,
    but for the last one, which ends with the text. *)
Lemma chunkLoop_closed fuel words (maxWords step startIdx : nat) chunks :
  0 < step → step ≤ maxWords → startIdx < length words →
  length words - startIdx ≤ fuel →
  chunkLoop fuel words (Z.of_nat maxWords) (Z.of_nat (maxWords - step))
    (Z.of_nat startIdx) chunks
  = Some (chunks ++
          ((λ i, join (lit " ")
                   (take maxWords (drop (startIdx + i * step) words)))
           <$> seq 0 (S ((length words - (startIdx + maxWords) + (step - 1))
                         / step)))).
Proof.
  intros Hstep Hmax. revert startIdx chunks.
  induction fuel as [|fuel IH]; intros startIdx chunks Hstart Hfuel; [lia|].
  rewrite chunkLoop_S. cbn zeta.
  rewrite (proj2 (Z.ltb_lt _ _)) by lia.
  destruct (decide (length words ≤ startIdx + maxWords)) as [Hlast|Hmore].
  - rewrite Z.min_r by lia. rewrite Z.leb_refl.
    rewrite slice_take_drop by lia.
    replace (length words - (startIdx + maxWords)) with 0 by lia.
    rewrite Nat.div_small by lia. cbn [seq fmap list_fmap].
    rewrite Nat.add_0_r. do 4 f_equal.
    rewrite !take_ge; [done|rewrite length_drop; lia|rewrite length_drop; lia].
  - rewrite Z.min_l by lia. rewrite (proj2 (Z.leb_gt _ _)) by lia.
    replace (Z.of_nat startIdx + Z.of_nat maxWords
             - Z.of_nat (maxWords - step))%Z
      with (Z.of_nat (startIdx + step)) by lia.
    rewrite IH by lia.
    replace (Z.of_nat startIdx + Z.of_nat maxWords)%Z
      with (Z.of_nat (startIdx + maxWords)) by lia.
    rewrite slice_take_drop by lia.
    rewrite (ceil_step (length words - (startIdx + maxWords))) by lia.
    replace (length words - (startIdx + maxWords) - step)
      with (length words - (startIdx + step + maxWords)) by lia.
    set (k := S ((length words - (startIdx + step + maxWords) + (step - 1))
                 / step)).
    rewrite <-app_assoc. do 2 f_equal.
    change (seq 0 (S k)) with (0 :: seq 1 k). rewrite fmap_cons.
    rewrite Nat.add_0_r.
    replace (startIdx + maxWords - startIdx) with maxWords by lia.
    cbn [app]. f_equal. rewrite <-fmap_S_seq, <-list_fmap_compose.
    apply list_fmap_ext. intros i j _. simpl. do 3 f_equal. lia.
Qed.

Lemma chunkText_closed (text : jsstring) :
  let words := splitWs (normalizeText text) in
  1500 < length words →
  chunkText text 1500 25
  = Some ((λ i, join (lit " ") (take 1500 (drop (1125 * i) words)))
          <$> seq 0 (S ((length words - 1500 + 1124) / 1125))).
Proof.
  intros words Hlen. unfold chunkText. cbn zeta. fold words.
  rewrite (proj2 (Z.leb_gt _ _)) by lia.
  rewrite overlapWords_default. cbn [mbind option_bind].
  pose proof (chunkLoop_closed (S (length words)) words 1500 1125 0 [])
    as Hloop.
  change (Z.of_nat 1500) with 1500%Z in Hloop.
  change (Z.of_nat (1500 - 1125)) with 375%Z in Hloop.
  change (Z.of_nat 0) with 0%Z in Hloop.
  rewrite Hloop by lia. rewrite app_nil_l. f_equal.
  apply list_fmap_ext. intros i j _. cbn beta. do 3 f_equal. lia.
Qed.

Lemma chunk_count_bounds (len : nat) :
  1500 < len →
  let k := S ((len - 1500 + 1124) / 1125) in
  2 ≤ k ∧ 1125 * (k - 1) + 375 < len ≤ 1125 * (k - 1) + 1500.
Proof.
  intros Hlen k.
  assert (len - 1500 + 1124 = 1125 * (k - 1) + (len - 1500 + 1124) `mod` 1125)
    as Hdiv.
  { unfold k. rewrite Nat.sub_succ, Nat.sub_0_r. apply Nat.div_mod. lia. }
  pose proof (Nat.mod_upper_bound (len - 1500 + 1124) 1125) as Hmod.
  assert (1 ≤ (len - 1500 + 1124) / 1125) by (apply Nat.div_le_lower_bound; lia).
  unfold k in *. lia.
Qed.

(** X25.  A text of more than 1500 words is cut, with the chunk size 1500
    and the overlap 25 percent, into [ceil ((len - 1500) / 1125) + 1] chunks:
    chunk [i] is the words from index [1125 * i] on, at most 1500 of them,
    joined by single spaces.  So there are at least two chunks, every chunk
    but the last holds exactly 1500 words, two consecutive chunks share 375
    words, and the last chunk ends with the last word of the text and holds
    at least one word the chunk before it does not. *)
Theorem chunkText_long (text : jsstring) :
  let words := splitWs (normalizeText text) in
  let k := S ((length words - 1500 + 1124) / 1125) in
  1500 < length words →
  chunkText text 1500 25
  = Some ((λ i, join (lit " ") (take 1500 (drop (1125 * i) words)))
          <$> seq 0 k) ∧
  2 ≤ k ∧
  (∀ i, S i < k → length (take 1500 (drop (1125 * i) words)) = 1500) ∧
  1125 * (k - 1) + 375 < length words ≤ 1125 * (k - 1) + 1500.
Proof.
  intros words k Hlen.
  destruct (chunk_count_bounds (length words) Hlen) as (Hk & Hlo & Hhi).
  fold k in Hk, Hlo, Hhi.
  split_and!; [by apply chunkText_closed|done| |done|done].
  intros i Hi. rewrite length_take, length_drop. clearbody k. lia.
Qed.

Lemma chunkText_long_witness :
  1500 < length (splitWs (normalizeText (sampleText 3000))) ∧
  chunkText (sampleText 3000) 1500 25
  = Some ((λ i, join (lit " ")
                  (take 1500 (drop (1125 * i)
                                (splitWs (normalizeText (sampleText 3000))))))
          <$> seq 0 (S ((length (splitWs (normalizeText (sampleText 3000)))
                         - 1500 + 1124) / 1125))).
Proof.
  assert (1500 < length (splitWs (normalizeText (sampleText 3000)))) as Hlen
    by (vm_compute; lia).
  split; [exact Hlen|].
  exact (proj1 (chunkText_long (sampleText 3000) Hlen)).
Defined.


Lemma normalizeText_words text :
  normalizeText text ≠ [] → Forall isWord (splitWs (normalizeText text)).
Proof.
  intros Hne. destruct (normalizeText_fixed text) as (_ & _ & Ht).
  cbn zeta in Ht.
  apply JsStringFacts.splitWs_words; [done| |]; intros c; rewrite <-Ht.
  - apply JsStringFacts.trim_head.
  - apply JsStringFacts.trim_last.
Qed.

Lemma countWords_normalizeText text :
  countWords (normalizeText text) = length (splitWs (normalizeText text)).
Proof.
  unfold countWords. destruct (normalizeText_fixed text) as (_ & _ & Ht).
  cbn zeta in Ht. by rewrite Ht.
Qed.

(** The two cases of [chunkText] with the chunk size 1500 and the overlap
    25 percent. *)
Lemma chunkText_default_cases (text : jsstring) :
  let words := splitWs (normalizeText text) in
  let chunk i := join (lit " ") (take 1500 (drop (1125 * i) words)) in
  (length words ≤ 1500 ∧ chunkText text 1500 25 = Some [normalizeText text]) ∨
  (1500 < length words ∧
   ∃ k, 2 ≤ k ∧ chunkText text 1500 25 = Some (chunk <$> seq 0 k) ∧
        ∀ i, i < k → countWords (chunk i) ≤ 1500).
Proof.
  intros words chunk.
  destruct (decide (length words ≤ 1500)) as [Hshort|Hlong].
  - left. split; [done|]. unfold chunkText. cbn zeta. fold words.
    by rewrite (proj2 (Z.leb_le _ _)) by lia.
  - right. assert (1500 < length words) as Hlen by lia. split; [done|].
    destruct (chunk_count_bounds (length words) Hlen) as (Hk & Hlo & Hhi).
    set (k := S ((length words - 1500 + 1124) / 1125)) in *.
    exists k. split_and!; [done|by apply chunkText_closed|].
    assert (Forall isWord words) as Hwords.
    { apply normalizeText_words. intros Hnil. unfold words in Hlen.
      rewrite Hnil in Hlen. simpl in Hlen. lia. }
    intros i Hi. unfold chunk, countWords.
    rewrite JsStringFacts.splitWs_trim_join.
    + rewrite length_take. lia.
    + by apply Forall_take, Forall_drop.
    + intros Hnil. apply (f_equal length) in Hnil.
      rewrite length_take, length_drop in Hnil. cbn [length] in Hnil.
      clearbody k. lia.
Qed.

(** X26.  With the chunk size 1500 and the overlap 25 percent [chunkText]
    returns for every text: the chunks are not empty, every chunk counts at
    most 1500 words, and there is one chunk exactly when the normalized text
    counts at most 1500 words. *)
Theorem chunkText_default_total (text : jsstring) :
  ∃ chunks,
    chunkText text 1500 25 = Some chunks ∧
    chunks ≠ [] ∧
    (∀ chunk, chunk ∈ chunks → countWords chunk ≤ 1500) ∧
    (length chunks = 1 ↔ countWords (normalizeText text) ≤ 1500).
Proof.
  rewrite countWords_normalizeText.
  destruct (chunkText_default_cases text)
    as [[Hshort Hrun]|(Hlong & k & Hk & Hrun & Hbound)]; cbn zeta in *.
  - exists [normalizeText text]. split_and!; [done|done| |done].
    intros chunk ->%list_elem_of_singleton.
    by rewrite countWords_normalizeText.
  - eexists. split; [exact Hrun|]. split_and!.
    + intros Hnil. apply (f_equal length) in Hnil.
      rewrite length_fmap, length_seq in Hnil. simpl in Hnil. lia.
    + intros chunk (i & -> & Hi)%list_elem_of_fmap.
      apply elem_of_seq in Hi. apply Hbound. lia.
    + rewrite length_fmap, length_seq. lia.
Qed.

(** The loop does not advance when the overlap is the chunk size or more. *)
Lemma chunkLoop_stuck fuel words maxWords overlapWords startIdx chunks :
  (maxWords ≤ overlapWords)%Z →
  (startIdx + maxWords < Z.of_nat (length words))%Z →
  (startIdx < Z.of_nat (length words))%Z →
  chunkLoop fuel words maxWords overlapWords startIdx chunks = None.
Proof.
  intros Hover. revert startIdx chunks.
  induction fuel as [|fuel IH]; intros startIdx chunks Hend Hstart.
  - cbn [chunkLoop]. by rewrite (proj2 (Z.ltb_lt _ _)) by lia.
  - rewrite chunkLoop_S. cbn zeta.
    rewrite (proj2 (Z.ltb_lt _ _)) by lia.
    rewrite Z.min_l by lia. rewrite (proj2 (Z.leb_gt _ _)) by lia.
    apply IH; lia.
Qed.

(** X27.  With an overlap of the chunk size or more (an overlap of 100
    percent, say) the loop of [chunkText] never ends on a text of more words
    than the chunk size: the start of the next chunk is not after the start
    of the last one, so no amount of passes completes the loop. *)
Theorem chunkText_full_overlap (text : jsstring) (maxWords overlapPercent : Z)
    (overlapWords : Z) :
  let words := splitWs (normalizeText text) in
  overlapWordsOf maxWords overlapPercent = Some overlapWords →
  (0 ≤ maxWords ≤ overlapWords)%Z →
  (maxWords < Z.of_nat (length words))%Z →
  chunkText text maxWords overlapPercent = None ∧
  (∀ fuel, chunkLoop fuel words maxWords overlapWords 0 [] = None) ∧
  overlapWordsOf 1500 100 = Some 1500%Z.
Proof.
  intros words Hover Hle Hlen. split_and!.
  - unfold chunkText. cbn zeta. fold words.
    rewrite (proj2 (Z.leb_gt _ _)) by lia. rewrite Hover.
    cbn [mbind option_bind]. apply chunkLoop_stuck; lia.
  - intros fuel. apply chunkLoop_stuck; lia.
  - vm_compute. reflexivity.
Qed.

Lemma chunkText_full_overlap_witness :
  overlapWordsOf 1500 100 = Some 1500%Z ∧
  (1500 < Z.of_nat (length (splitWs (normalizeText (sampleText 1501)))))%Z ∧
  chunkText (sampleText 1501) 1500 100 = None.
Proof.
  assert (overlapWordsOf 1500 100 = Some 1500%Z) as Hover
    by (vm_compute; reflexivity).
  assert (1500 < Z.of_nat (length (splitWs (normalizeText (sampleText 1501)))))%Z
    as Hlen by (vm_compute; reflexivity).
  split; [exact Hover|]. split; [exact Hlen|].
  exact (proj1 (chunkText_full_overlap (sampleText 1501) 1500 100 1500 Hover
                  ltac:(lia) Hlen)).
Defined.

End TextProcessingFacts.

(* ===================================================================== *)
(** * Properties of the profile store (src/utils/storage.js) *)
(* ===================================================================== *)

Module StorageFacts.
Import AiService Storage.

Lemma getUserData_saveUserData st id data :
  getUserData (saveUserData st id data) id = data.
Proof. unfold getUserData, saveUserData. simpl. by rewrite lookup_insert_eq. Qed.

Lemma getUserData_saveUserData_ne st id id' data :
  id ≠ id' → getUserData (saveUserData st id data) id' = getUserData st id'.
Proof.
  intros Hne. unfold getUserData, saveUserData. simpl.
  by rewrite lookup_insert_ne.
Qed.

Lemma getCurrentUser_saveUserData st id data :
  getCurrentUser (saveUserData st id data) = getCurrentUser st.
Proof. reflexivity. Qed.

(** C7.  For a store with a current user, [deleteNoteFromHistory] keeps of
    the user's notes exactly those whose id differs from the one given, in
    their order, and likewise of the quiz results those of other notes; the
    quiz progress of the note is gone and the progress of every other note
    is as before; the settings and the profile of the user, the data of
    every other user, the list of users and the current user are
    unchanged. *)
Theorem deleteNoteFromHistory_frame st id user :
  getCurrentUser st = Some user →
  let before := getUserData st (userId user) in
  let st' := deleteNoteFromHistory st id in
  let after := getUserData st' (userId user) in
  notesOf after = filter (λ note, noteId note ≠ id) (notesOf before) ∧
  (∀ note, note ∈ notesOf after ↔ note ∈ notesOf before ∧ noteId note ≠ id) ∧
  quizResultsOf after
    = filter (λ result, resultNoteId result ≠ id) (quizResultsOf before) ∧
  (∀ result, result ∈ quizResultsOf after
             ↔ result ∈ quizResultsOf before ∧ resultNoteId result ≠ id) ∧
  progressOf after id = None ∧
  (∀ other, other ≠ id → progressOf after other = progressOf before other) ∧
  settings after = settings before ∧
  profile after = profile before ∧
  (∀ uid, uid ≠ userId user → getUserData st' uid = getUserData st uid) ∧
  getAllUsers st' = getAllUsers st ∧
  getCurrentUser st' = Some user.
Proof.
  intros Huser before st' after.
  assert (after =
    mkUserData (profile before)
      (Some (filter (λ note, noteId note ≠ id) (notesOf before)))
      (Some (filter (λ result, resultNoteId result ≠ id) (quizResultsOf before)))
      (match quizProgress before with
       | Some m => match m !! id with
                   | Some _ => Some (delete id m)
                   | None => Some m
                   end
       | None => None
       end)
      (settings before)) as Hafter.
  { unfold after, st', deleteNoteFromHistory. rewrite Huser.
    by rewrite getUserData_saveUserData. }
  assert (notesOf after = filter (λ note, noteId note ≠ id) (notesOf before))
    as Hnotes by (by rewrite Hafter).
  assert (quizResultsOf after
          = filter (λ result, resultNoteId result ≠ id) (quizResultsOf before))
    as Hresults by (by rewrite Hafter).
  rewrite Hnotes, Hresults. split_and!; try done.
  - intros note. rewrite list_elem_of_filter. tauto.
  - intros result. rewrite list_elem_of_filter. tauto.
  - rewrite Hafter. unfold progressOf. cbn [quizProgress].
    destruct (quizProgress before) as [m|]; [|done].
    destruct (m !! id) eqn:Hm; simpl; [apply lookup_delete_eq|done].
  - intros other Hother. rewrite Hafter. unfold progressOf. cbn [quizProgress].
    destruct (quizProgress before) as [m|]; [|done].
    destruct (m !! id) eqn:Hm; simpl; [by apply lookup_delete_ne|done].
  - by rewrite Hafter.
  - by rewrite Hafter.
  - intros uid Huid. unfold st', deleteNoteFromHistory. rewrite Huser.
    by apply getUserData_saveUserData_ne.
  - unfold st', deleteNoteFromHistory. by rewrite Huser.
  - unfold st', deleteNoteFromHistory. by rewrite Huser.
Qed.

(** Without a current user the operation does nothing. *)
Lemma deleteNoteFromHistory_no_user st id :
  getCurrentUser st = None → deleteNoteFromHistory st id = st.
Proof. intros Huser. unfold deleteNoteFromHistory. by rewrite Huser. Qed.

(** The theorem on the sample store, deleting the note 1700000001000. *)
Lemma deleteNoteFromHistory_frame_witness :
  getCurrentUser sampleStore = Some sampleUser ∧
  notesOf (getUserData (deleteNoteFromHistory sampleStore 1700000001000)
             (userId sampleUser))
  = filter (λ note, noteId note ≠ 1700000001000%Z)
      (notesOf (getUserData sampleStore (userId sampleUser))) ∧
  progressOf (getUserData (deleteNoteFromHistory sampleStore 1700000001000)
                (userId sampleUser)) 1700000001000 = None.
Proof.
  assert (getCurrentUser sampleStore = Some sampleUser) as Huser
    by (vm_compute; reflexivity).
  split; [exact Huser|].
  pose proof (deleteNoteFromHistory_frame sampleStore 1700000001000 sampleUser
                Huser) as H.
  split; [exact (proj1 H)|].
  exact (proj1 (proj2 (proj2 (proj2 (proj2 H))))).
Defined.

(** The result [saveQuizResult] stores for [result]. *)
Lemma saveQuizResult_results st result now user :
  getCurrentUser st = Some user →
  quizResultsOf (getUserData (saveQuizResult st result now) (userId user)) =
  let results := quizResultsOf (getUserData st (userId user)) in
  let resultToSave :=
    mkQuizResult (resultNoteId result) (resultNoteTitle result)
      (resultNoteSubject result) (questionIndex result) (questionType result)
      (questionText result) (userAnswer result) (correctAnswer result)
      (isCorrect result) (score result) now (Some (userId user)) in
  match list_find (λ r, resultNoteId r = resultNoteId result
                        ∧ questionIndex r = questionIndex result) results with
  | Some (i, _) => <[i := resultToSave]> results
  | None => results ++ [resultToSave]
  end.
Proof.
  intros Huser. unfold saveQuizResult. rewrite Huser.
  rewrite getUserData_saveUserData. unfold quizResultsOf at 1. simpl.
  by destruct (list_find _ _) as [[i r]|].
Qed.

Lemma resultKey_eq r r' :
  resultKey r = resultKey r' ↔
  resultNoteId r = resultNoteId r' ∧ questionIndex r = questionIndex r'.
Proof. unfold resultKey. split; [by intros [= -> ->]|by intros [-> ->]]. Qed.

(** C8.  For a store with a current user, [saveQuizResult] puts the result,
    stamped with the user and the instant, at the first index that holds a
    result of the same [(noteId, questionIndex)], leaving the length and
    every other entry as they are, and appends it when no entry has that
    key; so the keys of the list stay pairwise distinct when they were, and
    the key of the result occurs in the list after the call. *)
Theorem saveQuizResult_unique_key st result now user :
  getCurrentUser st = Some user →
  let before := quizResultsOf (getUserData st (userId user)) in
  let after :=
    quizResultsOf (getUserData (saveQuizResult st result now) (userId user)) in
  let resultToSave :=
    mkQuizResult (resultNoteId result) (resultNoteTitle result)
      (resultNoteSubject result) (questionIndex result) (questionType result)
      (questionText result) (userAnswer result) (correctAnswer result)
      (isCorrect result) (score result) now (Some (userId user)) in
  (resultKey result ∈ resultKey <$> before →
     ∃ i, (resultKey <$> before) !! i = Some (resultKey result) ∧
          (∀ j, j < i → (resultKey <$> before) !! j ≠ Some (resultKey result)) ∧
          after = <[i := resultToSave]> before ∧
          length after = length before ∧
          resultKey <$> after = resultKey <$> before) ∧
  (resultKey result ∉ resultKey <$> before →
     after = before ++ [resultToSave]) ∧
  (NoDup (resultKey <$> before) → NoDup (resultKey <$> after)) ∧
  resultToSave ∈ after.
Proof.
  intros Huser before after resultToSave.
  assert (resultKey resultToSave = resultKey result) as Hkey by done.
  pose proof (saveQuizResult_results st result now user Huser) as Hafter.
  cbn zeta in Hafter. fold before after resultToSave in Hafter.
  destruct (list_find _ before) as [[i r]|] eqn:Hfind.
  - apply list_find_Some in Hfind as (Hi & Hr & Hfirst).
    apply resultKey_eq in Hr.
    assert ((resultKey <$> before) !! i = Some (resultKey result)) as Hki
      by (by rewrite list_lookup_fmap, Hi, <-Hr).
    assert (resultKey <$> after = resultKey <$> before) as Hkeys.
    { rewrite Hafter, list_fmap_insert, Hkey. by apply list_insert_id. }
    split_and!.
    + intros _. exists i. split_and!; [done| |done| |done].
      * intros j Hj. rewrite list_lookup_fmap.
        destruct (before !! j) as [r'|] eqn:Hj'; [|done]. simpl.
        intros [= Hn Hq]. by apply (Hfirst j r' Hj' Hj).
      * by rewrite Hafter, length_insert.
    + intros Hnot. exfalso. apply Hnot. by eapply list_elem_of_lookup_2.
    + by rewrite Hkeys.
    + rewrite Hafter. apply list_elem_of_lookup. exists i.
      apply list_lookup_insert_eq. by eapply lookup_lt_Some.
  - apply list_find_None in Hfind. rewrite Forall_forall in Hfind.
    assert (resultKey result ∉ resultKey <$> before) as Hnot.
    { intros (r & Hr & Hin)%list_elem_of_fmap. apply (Hfind r Hin).
      by apply resultKey_eq. }
    split_and!; [done|done| |].
    + intros Hnodup. rewrite Hafter, fmap_app. apply NoDup_app.
      split_and!; [done| |apply NoDup_singleton].
      intros k Hk ->%list_elem_of_singleton. by rewrite Hkey in Hk.
    + rewrite Hafter. apply elem_of_app. right. by apply list_elem_of_singleton.
Qed.

(** The theorem on the sample store: a second answer to question 1 of the
    note 1700000001000 takes the place of the first one. *)
Lemma saveQuizResult_unique_key_witness :
  getCurrentUser sampleStore = Some sampleUser ∧
  NoDup (resultKey <$> quizResultsOf (getUserData sampleStore (userId sampleUser))) ∧
  NoDup (resultKey <$>
           quizResultsOf
             (getUserData
                (saveQuizResult sampleStore (sampleResult 1700000001000 1 "B" 1)
                   1700000009000)
                (userId sampleUser))).
Proof.
  assert (getCurrentUser sampleStore = Some sampleUser) as Huser
    by (vm_compute; reflexivity).
  assert (NoDup (resultKey <$>
                   quizResultsOf (getUserData sampleStore (userId sampleUser))))
    as Hnodup by (vm_compute; apply (bool_decide_unpack _); by vm_compute).
  split; [exact Huser|]. split; [exact Hnodup|].
  exact (proj1 (proj2 (proj2 (saveQuizResult_unique_key sampleStore
                                (sampleResult 1700000001000 1 "B" 1)
                                1700000009000 sampleUser Huser))) Hnodup).
Defined.

Example saveQuizResult_replaces :
  length (quizResultsOf
            (getUserData
               (saveQuizResult sampleStore (sampleResult 1700000001000 1 "B" 1)
                  1700000009000)
               (userId sampleUser))) = 3.
Proof. vm_compute. reflexivity. Qed.

(** C10.  For a store with a current user, [saveNoteToHistory] returns the
    note with the id, the user id and the instant it assigns, and stores the
    list made of that note followed by the notes stored before, cut to its
    first 50 entries: the new note is at index 0, the list has at most 50
    entries, and when 50 notes were stored the list is the new note followed
    by the first 49 of them, the last one being dropped. *)
Theorem saveNoteToHistory_bounded st note nowId nowDate user :
  getCurrentUser st = Some user →
  let before := notesOf (getUserData st (userId user)) in
  let saved := mkNote nowId (userId user) nowDate note in
  ∃ st',
    saveNoteToHistory st note nowId nowDate = inr (saved, st') ∧
    let after := notesOf (getUserData st' (userId user)) in
    after = take 50 (saved :: before) ∧
    after !! 0 = Some saved ∧
    length after ≤ 50 ∧
    (∀ i, i < 49 → after !! S i = before !! i) ∧
    (length before < 50 → after = saved :: before) ∧
    (50 ≤ length before →
       length after = 50 ∧ after = saved :: take 49 before ∧
       ∀ i, 49 ≤ i → after !! S i = None).
Proof.
  intros Huser before saved. unfold saveNoteToHistory. rewrite Huser.
  eexists. split; [reflexivity|]. cbn zeta.
  rewrite getUserData_saveUserData. unfold notesOf.
  cbn [notes default from_option id].
  change (default [] (notes (getUserData st (userId user)))) with before.
  fold saved. split_and!.
  - done.
  - done.
  - rewrite length_take. lia.
  - intros i Hi. cbn [take]. by rewrite lookup_cons, lookup_take_lt by lia.
  - intros Hlen. apply take_ge. cbn [length]. lia.
  - intros Hlen. split_and!.
    + rewrite length_take. cbn [length]. lia.
    + done.
    + intros i Hi. cbn [take]. rewrite lookup_cons.
      apply lookup_ge_None. rewrite length_take. lia.
Qed.

(** The theorem on the sample store. *)
Lemma saveNoteToHistory_bounded_witness :
  getCurrentUser sampleStore = Some sampleUser ∧
  ∃ st',
    saveNoteToHistory sampleStore (sampleNoteData "Third") 1700000003000
      1700000003001
    = inr (mkNote 1700000003000 (userId sampleUser) 1700000003001
             (sampleNoteData "Third"), st') ∧
    length (notesOf (getUserData st' (userId sampleUser))) ≤ 50.
Proof.
  assert (getCurrentUser sampleStore = Some sampleUser) as Huser
    by (vm_compute; reflexivity).
  split; [exact Huser|].
  destruct (saveNoteToHistory_bounded sampleStore (sampleNoteData "Third")
              1700000003000 1700000003001 sampleUser Huser)
    as (st' & Hsave & _ & _ & Hlen & _).
  exists st'. split; [exact Hsave | exact Hlen].
Defined.

(** Without a current user the call throws. *)
Lemma saveNoteToHistory_no_user st note nowId nowDate :
  getCurrentUser st = None →
  ∃ e, saveNoteToHistory st note nowId nowDate = inl e.
Proof. intros Huser. unfold saveNoteToHistory. rewrite Huser. by eexists. Qed.

(** ** Users *)

Lemma list_find_unique {A B} `{EqDecision B} (f : A → B) (l : list A) (x : A) :
  NoDup (f <$> l) → x ∈ l →
  snd <$> list_find (λ y, f y = f x) l = Some x.
Proof.
  induction l as [|y l IH]; intros Hnodup Hin; [by apply elem_of_nil in Hin|].
  rewrite fmap_cons in Hnodup. apply NoDup_cons in Hnodup as [Hy Hnodup].
  cbn [list_find]. case_decide as Heq.
  - simpl. f_equal. apply elem_of_cons in Hin as [->|Hin]; [done|].
    exfalso. apply Hy. rewrite Heq. apply list_elem_of_fmap. by exists x.
  - apply elem_of_cons in Hin as [->|Hin]; [done|].
    specialize (IH Hnodup Hin). destruct (list_find _ l) as [[i z]|]; [|done].
    simpl in *. done.
Qed.

Lemma list_find_absent {A B} `{EqDecision B} (f : A → B) (l : list A) (k : B) :
  k ∉ f <$> l → list_find (λ y, f y = k) l = None.
Proof.
  intros Hk. apply list_find_None. apply Forall_forall. intros y Hy Heq.
  apply Hk. apply list_elem_of_fmap. by exists y.
Qed.

(** X1.  [createUser] throws exactly when a stored user has the email given.
    Otherwise it appends the new user to the list of users, so that the
    emails of the list stay pairwise distinct when they were, and stores for
    the new identifier a blob with no notes, no quiz results and the default
    settings; the blob of every other identifier and the current user are as
    before. *)
Theorem createUser_unique_email st name email nowId nowDate :
  let emails := userEmail <$> getAllUsers st in
  let newUser := mkUserProfile nowId name email nowDate in
  (email ∈ emails →
     createUser st name email nowId nowDate
     = inl (mkError (lit "User with this email already exists"))) ∧
  (email ∉ emails →
     ∃ st',
       createUser st name email nowId nowDate = inr (newUser, st') ∧
       getAllUsers st' = getAllUsers st ++ [newUser] ∧
       (NoDup emails → NoDup (userEmail <$> getAllUsers st')) ∧
       getUserData st' nowId
       = mkUserData (Some newUser) (Some []) (Some []) None
           (Some defaultSettings) ∧
       (∀ id, id ≠ nowId → getUserData st' id = getUserData st id) ∧
       currentUser st' = currentUser st).
Proof.
  intros emails newUser. unfold createUser. split.
  - intros (u & Hu & Hin)%list_elem_of_fmap.
    destruct (list_find _ _) as [[i u']|] eqn:Hfind; [done|].
    apply list_find_None in Hfind. rewrite Forall_forall in Hfind.
    by destruct (Hfind u Hin).
  - intros Hnot. rewrite (list_find_absent userEmail) by done.
    eexists. split; [reflexivity|]. split_and!; try done.
    + intros Hnodup. cbn [getAllUsers usersList]. rewrite fmap_app.
      apply NoDup_app. split_and!; [done| |apply NoDup_singleton].
      intros e He ->%list_elem_of_singleton. by apply Hnot.
    + unfold getUserData. cbn [userBlobs]. by rewrite lookup_insert_eq.
    + intros id Hid. unfold getUserData. cbn [userBlobs].
      by rewrite lookup_insert_ne.
Qed.

(** X3.  For an identifier that is a safe integer, and stored users whose
    identifiers are pairwise distinct: [getCurrentUser] after [switchUser]
    with the identifier of a stored user is that user; after [switchUser]
    with an identifier no stored user has it is [null], and the notes and
    quiz results read are empty.  The list of users and every blob are as
    before. *)
Theorem switchUser_getCurrentUser st id :
  safeId id →
  NoDup (userId <$> getAllUsers st) →
  (∀ user, user ∈ getAllUsers st → userId user = id →
     getCurrentUser (switchUser st id) = Some user) ∧
  (id ∉ userId <$> getAllUsers st →
     getCurrentUser (switchUser st id) = None ∧
     getNotesHistory (switchUser st id) = [] ∧
     getQuizResults (switchUser st id) = []) ∧
  getAllUsers (switchUser st id) = getAllUsers st ∧
  (∀ uid, getUserData (switchUser st id) uid = getUserData st uid).
Proof.
  intros _ Hnodup. split_and!; try done.
  - intros user Hin <-. unfold getCurrentUser, switchUser.
    cbn [currentUser getAllUsers usersList].
    by apply (list_find_unique userId).
  - intros Hnot.
    assert (getCurrentUser (switchUser st id) = None) as Hnone.
    { unfold getCurrentUser, switchUser. cbn [currentUser getAllUsers usersList].
      by rewrite (list_find_absent userId). }
    unfold getNotesHistory, getQuizResults. by rewrite Hnone.
Qed.

(** The theorem on the store of two users: selecting the second user, who
    is not the current one, and an identifier nobody has. *)
Lemma switchUser_getCurrentUser_witness :
  safeId 1700000100000 ∧ safeId 5 ∧
  NoDup (userId <$> getAllUsers sampleStoreTwo) ∧
  getCurrentUser sampleStoreTwo = Some sampleUser ∧
  getCurrentUser (switchUser sampleStoreTwo 1700000100000)
  = Some (mkUserProfile 1700000100000 (lit "Ravi") (lit "ravi@example.org")
            1700000100001) ∧
  getCurrentUser (switchUser sampleStoreTwo 5) = None.
Proof.
  assert (safeId 1700000100000) as Hsafe by (unfold safeId; simpl; lia).
  assert (safeId 5) as Hsafe' by (unfold safeId; simpl; lia).
  assert (NoDup (userId <$> getAllUsers sampleStoreTwo)) as Hnodup.
  { vm_compute. apply NoDup_cons. split; [|apply NoDup_singleton].
    intros Hin%list_elem_of_singleton. discriminate Hin. }
  split; [exact Hsafe|]. split; [exact Hsafe'|]. split; [exact Hnodup|].
  split; [vm_compute; reflexivity|]. split.
  - apply (proj1 (switchUser_getCurrentUser sampleStoreTwo 1700000100000
                    Hsafe Hnodup)).
    + vm_compute. right. left.
    + reflexivity.
  - apply (proj1 (proj2 (switchUser_getCurrentUser sampleStoreTwo 5
                           Hsafe' Hnodup))).
    vm_compute. intros Hin.
    repeat (apply elem_of_cons in Hin as [Hin|Hin]; [discriminate Hin|]).
    by apply elem_of_nil in Hin.
Defined.

Lemma list_find_filter_ne (l : list UserProfile) (id c : Z) :
  c ≠ id →
  snd <$> list_find (λ u, userId u = c) (filter (λ u, userId u ≠ id) l)
  = snd <$> list_find (λ u, userId u = c) l.
Proof.
  intros Hne. induction l as [|u l IH]; [done|].
  rewrite filter_cons. cbn [list_find]. case_decide as Hu.
  - cbn [list_find]. case_decide as Hc; [done|].
    destruct (list_find _ (filter _ l)) as [[i z]|],
             (list_find _ l) as [[i' z']|]; simpl in *; congruence.
  - case_decide as Hc.
    + congruence.
    + rewrite IH. by destruct (list_find _ l) as [[i' z']|].
Qed.

(** X4.  [deleteUser] removes from the list of users every user with the
    identifier given and no other, and removes the blob of that identifier,
    whose data then reads as that of a new user.  The current user becomes
    [null] when it was the deleted one and is who it was otherwise, and the
    blob of every other identifier is as before. *)
Theorem deleteUser_cascade st id :
  let st' := deleteUser st id in
  (id ∉ userId <$> getAllUsers st') ∧
  (∀ user, user ∈ getAllUsers st'
           ↔ user ∈ getAllUsers st ∧ userId user ≠ id) ∧
  getUserData st' id
  = mkUserData None (Some []) (Some []) None (Some defaultSettings) ∧
  (currentUser st = Some id → getCurrentUser st' = None) ∧
  (currentUser st ≠ Some id → getCurrentUser st' = getCurrentUser st) ∧
  (∀ uid, uid ≠ id → getUserData st' uid = getUserData st uid).
Proof.
  intros st'. unfold st', deleteUser. split_and!.
  - cbn [getAllUsers usersList].
    intros (u & Hu & [Hne _]%list_elem_of_filter)%list_elem_of_fmap. done.
  - intros user. cbn [getAllUsers usersList]. rewrite list_elem_of_filter. tauto.
  - unfold getUserData. cbn [userBlobs]. by rewrite lookup_delete_eq.
  - intros Hcur. unfold getCurrentUser. cbn [currentUser].
    by rewrite decide_True.
  - intros Hcur. unfold getCurrentUser. cbn [currentUser getAllUsers usersList].
    rewrite decide_False by done.
    destruct (currentUser st) as [c|]; [|done].
    apply list_find_filter_ne. congruence.
  - intros uid Huid. unfold getUserData. cbn [userBlobs].
    by rewrite lookup_delete_ne.
Qed.

(** ** History, progress and settings of the current user *)

(** X5.  After [clearHistory] the current user reads no note, no quiz
    result and no quiz progress, while the settings read, the current user
    and the list of users are as before, as is the blob of every identifier
    other than the current user's. *)
Theorem clearHistory_empties st :
  let st' := clearHistory st in
  getNotesHistory st' = [] ∧
  getQuizResults st' = [] ∧
  (∀ id, getQuizProgress st' id = None) ∧
  getSettings st' = getSettings st ∧
  getCurrentUser st' = getCurrentUser st ∧
  getAllUsers st' = getAllUsers st ∧
  (∀ uid, userId <$> getCurrentUser st ≠ Some uid →
          getUserData st' uid = getUserData st uid).
Proof.
  intros st'. unfold st', clearHistory.
  unfold getNotesHistory, getQuizResults, getQuizProgress, getSettings.
  destruct (getCurrentUser st) as [user|] eqn:Huser.
  - rewrite getCurrentUser_saveUserData, Huser.
    rewrite getUserData_saveUserData. split_and!; try done.
    intros uid Huid. apply getUserData_saveUserData_ne. simpl in Huid. congruence.
  - rewrite Huser. done.
Qed.

(** X6.  [resetNoteQuizData] leaves the notes of the current user as they
    are, keeps of the quiz results exactly those of other notes, in their
    order, and removes the quiz progress of the note; the progress of every
    other note, the settings and the current user are unchanged. *)
Theorem resetNoteQuizData_frame st id :
  let st' := resetNoteQuizData st id in
  getNotesHistory st' = getNotesHistory st ∧
  getQuizResults st'
  = filter (λ result, resultNoteId result ≠ id) (getQuizResults st) ∧
  getQuizProgress st' id = None ∧
  (∀ other, other ≠ id → getQuizProgress st' other = getQuizProgress st other) ∧
  getSettings st' = getSettings st ∧
  getCurrentUser st' = getCurrentUser st ∧
  (∀ uid, userId <$> getCurrentUser st ≠ Some uid →
          getUserData st' uid = getUserData st uid).
Proof.
  intros st'. unfold st', resetNoteQuizData.
  unfold getNotesHistory, getQuizResults, getQuizProgress, getSettings.
  destruct (getCurrentUser st) as [user|] eqn:Huser.
  - rewrite getCurrentUser_saveUserData, Huser.
    rewrite getUserData_saveUserData. split_and!; try done.
    + unfold progressOf. cbn [quizProgress].
      destruct (quizProgress _) as [m|]; [|done].
      destruct (m !! id) eqn:Hm; simpl; [apply lookup_delete_eq|done].
    + intros other Hother. unfold progressOf. cbn [quizProgress].
      destruct (quizProgress _) as [m|]; [|done].
      destruct (m !! id) eqn:Hm; simpl; [by apply lookup_delete_ne|done].
    + intros uid Huid. apply getUserData_saveUserData_ne. simpl in Huid.
      congruence.
  - rewrite Huser. done.
Qed.

(** X7.  [getSettings] after [saveSettings] returns the settings saved when
    there is a current user, and the default settings when there is none;
    the notes, the quiz results and the quiz progress read are as before. *)
Theorem saveSettings_getSettings st s :
  let st' := saveSettings st s in
  getSettings st'
  = match getCurrentUser st with Some _ => s | None => defaultSettings end ∧
  getNotesHistory st' = getNotesHistory st ∧
  getQuizResults st' = getQuizResults st ∧
  (∀ id, getQuizProgress st' id = getQuizProgress st id).
Proof.
  intros st'. unfold st', saveSettings.
  unfold getNotesHistory, getQuizResults, getQuizProgress, getSettings.
  destruct (getCurrentUser st) as [user|] eqn:Huser.
  - rewrite getCurrentUser_saveUserData, Huser.
    by rewrite getUserData_saveUserData.
  - by rewrite Huser.
Qed.

(** X8.  What [exportAllData] exported is restored by [importData] after the
    history was cleared, as far as the notes, the quiz results and the
    settings go; the quiz progress is not: [importData] never reads it, and
    every note reads as not started. *)
Theorem importData_exportAllData st now data :
  exportAllData st now = Some data →
  let st' := importData (clearHistory st) data in
  getNotesHistory st' = getNotesHistory st ∧
  getQuizResults st' = getQuizResults st ∧
  getSettings st' = getSettings st ∧
  (∀ id, getQuizProgress st' id = None) ∧
  getCurrentUser st' = getCurrentUser st.
Proof.
  intros Hexp st'. unfold exportAllData in Hexp.
  unfold st', importData, clearHistory.
  unfold getNotesHistory, getQuizResults, getQuizProgress, getSettings.
  destruct (getCurrentUser st) as [user|] eqn:Huser; [|done].
  injection Hexp as <-. cbn [exportedData].
  repeat (progress (rewrite ?getCurrentUser_saveUserData,
                      ?getUserData_saveUserData, ?Huser)).
  unfold notesOf, quizResultsOf, progressOf.
  cbn [profile notes quizResults quizProgress settings].
  destruct (getUserData st (userId user)) as [p [n|] [q|] pr [s|]]; done.
Qed.

Lemma importData_exportAllData_witness :
  exportAllData sampleStore 1700000009000
  = Some (mkExported sampleUser (getUserData sampleStore 1700000000000)
            1700000009000) ∧
  getNotesHistory
    (importData (clearHistory sampleStore)
       (mkExported sampleUser (getUserData sampleStore 1700000000000)
          1700000009000))
  = getNotesHistory sampleStore ∧
  getQuizProgress
    (importData (clearHistory sampleStore)
       (mkExported sampleUser (getUserData sampleStore 1700000000000)
          1700000009000)) 1700000001000 = None.
Proof.
  assert (exportAllData sampleStore 1700000009000
          = Some (mkExported sampleUser (getUserData sampleStore 1700000000000)
                    1700000009000)) as Hexp by (vm_compute; reflexivity).
  split; [exact Hexp|].
  pose proof (importData_exportAllData sampleStore 1700000009000 _ Hexp) as H.
  split; [exact (proj1 H)|].
  exact (proj1 (proj2 (proj2 (proj2 H))) 1700000001000%Z).
Defined.

(** X9.  [getQuizProgress] after [saveQuizProgress] returns, for the note
    saved, the progress saved with the instant of the save, when there is a
    current user (and [null] when there is none); the progress of every
    other note, the notes and the quiz results read are as before. *)
Theorem saveQuizProgress_getQuizProgress st id progress now :
  let st' := saveQuizProgress st id progress now in
  getQuizProgress st' id
  = match getCurrentUser st with
    | Some _ =>
        Some (mkQuizProgress (selectedAnswers progress) (showAnswers progress)
                (questionScores progress) (allQuestionsChecked progress)
                (Some now))
    | None => None
    end ∧
  (∀ other, other ≠ id → getQuizProgress st' other = getQuizProgress st other) ∧
  getNotesHistory st' = getNotesHistory st ∧
  getQuizResults st' = getQuizResults st ∧
  getSettings st' = getSettings st.
Proof.
  intros st'. unfold st', saveQuizProgress.
  unfold getNotesHistory, getQuizResults, getQuizProgress, getSettings.
  destruct (getCurrentUser st) as [user|] eqn:Huser.
  - rewrite getCurrentUser_saveUserData, Huser.
    rewrite getUserData_saveUserData. unfold progressOf.
    cbn [quizProgress mbind option_bind].
    split_and!; try done.
    + apply lookup_insert_eq.
    + intros other Hother. rewrite lookup_insert_ne by done.
      by destruct (quizProgress _).
  - by rewrite Huser.
Qed.

Lemma filter_all {A} (P : A → Prop) `{∀ x, Decision (P x)} (l : list A) :
  Forall P l → filter P l = l.
Proof.
  induction 1 as [|x l Hx Hl IH]; [done|].
  by rewrite filter_cons, decide_True, IH.
Qed.

(** X10.  Saving a note and deleting it again gives back the history: when
    the history of the current user holds fewer than 50 notes, none of them
    with the identifier assigned, the history read after [saveNoteToHistory]
    is the new note followed by the old history, and after
    [deleteNoteFromHistory] of the new note it is the old history. *)
Theorem saveNoteToHistory_then_delete st note nowId nowDate user :
  getCurrentUser st = Some user →
  length (getNotesHistory st) < 50 →
  nowId ∉ noteId <$> getNotesHistory st →
  ∃ st',
    saveNoteToHistory st note nowId nowDate
    = inr (mkNote nowId (userId user) nowDate note, st') ∧
    getNotesHistory st'
    = mkNote nowId (userId user) nowDate note :: getNotesHistory st ∧
    getNotesHistory (deleteNoteFromHistory st' nowId) = getNotesHistory st.
Proof.
  intros Huser Hlen Hfresh. unfold saveNoteToHistory. rewrite Huser.
  eexists. split; [reflexivity|].
  unfold getNotesHistory in *. rewrite Huser in Hlen, Hfresh.
  unfold deleteNoteFromHistory.
  repeat (progress (rewrite ?getCurrentUser_saveUserData,
                      ?getUserData_saveUserData, ?Huser)).
  unfold notesOf in *. cbn [notes default from_option id].
  set (before := default [] (notes (getUserData st (userId user)))) in *.
  rewrite take_ge by (cbn [length]; lia). split; [done|].
  rewrite filter_cons, decide_False by (simpl; tauto).
  apply filter_all. apply Forall_forall. intros n Hn Heq.
  apply Hfresh. apply list_elem_of_fmap. by exists n.
Qed.

Lemma saveNoteToHistory_then_delete_witness :
  getCurrentUser sampleStore = Some sampleUser ∧
  ∃ st',
    saveNoteToHistory sampleStore (sampleNoteData "Third") 1700000003000
      1700000003001
    = inr (mkNote 1700000003000 (userId sampleUser) 1700000003001
             (sampleNoteData "Third"), st') ∧
    getNotesHistory (deleteNoteFromHistory st' 1700000003000)
    = getNotesHistory sampleStore.
Proof.
  assert (getCurrentUser sampleStore = Some sampleUser) as Huser
    by (vm_compute; reflexivity).
  split; [exact Huser|].
  assert (length (getNotesHistory sampleStore) < 50) as Hlen
    by (vm_compute; lia).
  assert (1700000003000%Z ∉ noteId <$> getNotesHistory sampleStore) as Hfresh.
  { vm_compute. intros Hin. repeat (apply elem_of_cons in Hin as [Hin|Hin];
      [discriminate Hin|]). by apply elem_of_nil in Hin. }
  destruct (saveNoteToHistory_then_delete sampleStore (sampleNoteData "Third")
              1700000003000 1700000003001 sampleUser Huser Hlen Hfresh)
    as (st' & Hsave & _ & Hdel).
  exists st'. split; [exact Hsave | exact Hdel].
Defined.

(** ** Isolation of the users *)

Lemma sameFor_saveUserData st b uid data :
  uid ≠ b → sameFor b st (saveUserData st uid data).
Proof.
  intros Hne. split; [done|]. by apply getUserData_saveUserData_ne.
Qed.

Lemma sameFor_refl st b : sameFor b st st.
Proof. done. Qed.

(** X11.  What the current user saves, deletes or clears changes nothing
    another user sees: every operation on the history, the quiz results, the
    quiz progress and the settings leaves the list of users and the blob of
    every identifier other than the current user's as they are, so that
    after [switchUser] to such an identifier, a safe integer, the notes, quiz
    results, quiz progress and settings read are those read before the
    operation. *)
Theorem other_users_unaffected st b note nowId nowDate id result progress now
    s data :
  safeId b →
  userId <$> getCurrentUser st ≠ Some b →
  (∀ saved st', saveNoteToHistory st note nowId nowDate = inr (saved, st') →
                sameFor b st st') ∧
  sameFor b st (deleteNoteFromHistory st id) ∧
  sameFor b st (saveQuizResult st result now) ∧
  sameFor b st (saveQuizProgress st id progress now) ∧
  sameFor b st (resetNoteQuizData st id) ∧
  sameFor b st (clearHistory st) ∧
  sameFor b st (saveSettings st s) ∧
  sameFor b st (importData st data) ∧
  (∀ st', sameFor b st st' →
     getNotesHistory (switchUser st' b) = getNotesHistory (switchUser st b) ∧
     getQuizResults (switchUser st' b) = getQuizResults (switchUser st b) ∧
     getSettings (switchUser st' b) = getSettings (switchUser st b) ∧
     ∀ n, getQuizProgress (switchUser st' b) n
          = getQuizProgress (switchUser st b) n).
Proof.
  intros _ Hother.
  unfold saveNoteToHistory, deleteNoteFromHistory, saveQuizResult,
    saveQuizProgress, resetNoteQuizData, clearHistory, saveSettings, importData.
  destruct (getCurrentUser st) as [user|] eqn:Huser.
  - assert (userId user ≠ b) as Hne by (simpl in Hother; congruence).
    split_and!; try by apply sameFor_saveUserData.
    + intros saved st' [= _ <-]. by apply sameFor_saveUserData.
    + intros st' [Husers Hdata].
      unfold getNotesHistory, getQuizResults, getSettings, getQuizProgress,
        getCurrentUser, switchUser.
      unfold getAllUsers in *. cbn [currentUser usersList] in *.
      rewrite Husers.
      destruct (list_find _ (usersList st)) as [[i u]|] eqn:Hfind; [|done].
      apply list_find_Some in Hfind as (_ & Hb & _). simpl. rewrite Hb.
      unfold getUserData in *. cbn [userBlobs] in *. by rewrite Hdata.
  - split_and!; try by apply sameFor_refl.
    + intros saved st' [=].
    + intros st' [Husers Hdata].
      unfold getNotesHistory, getQuizResults, getSettings, getQuizProgress,
        getCurrentUser, switchUser.
      unfold getAllUsers in *. cbn [currentUser usersList] in *.
      rewrite Husers.
      destruct (list_find _ (usersList st)) as [[i u]|] eqn:Hfind; [|done].
      apply list_find_Some in Hfind as (_ & Hb & _). simpl. rewrite Hb.
      unfold getUserData in *. cbn [userBlobs] in *. by rewrite Hdata.
Qed.

(** The theorem on the store of two users, each with notes: the first user
    clears the history, which had two notes; the second user still reads
    the one note saved before. *)
Lemma other_users_unaffected_witness :
  safeId 1700000100000 ∧
  userId <$> getCurrentUser sampleStoreTwo ≠ Some 1700000100000%Z ∧
  length (getNotesHistory sampleStoreTwo) = 2 ∧
  getNotesHistory (clearHistory sampleStoreTwo) = [] ∧
  getNotesHistory (switchUser (clearHistory sampleStoreTwo) 1700000100000)
  = getNotesHistory (switchUser sampleStoreTwo 1700000100000) ∧
  (title ∘ noteData)
    <$> getNotesHistory (switchUser sampleStoreTwo 1700000100000)
  = [lit "Of Ravi"].
Proof.
  assert (safeId 1700000100000) as Hsafe by (unfold safeId; simpl; lia).
  assert (userId <$> getCurrentUser sampleStoreTwo ≠ Some 1700000100000%Z)
    as Hother by (vm_compute; discriminate).
  split; [exact Hsafe|]. split; [exact Hother|].
  split; [vm_compute; reflexivity|]. split; [vm_compute; reflexivity|].
  pose proof (other_users_unaffected sampleStoreTwo 1700000100000
                (sampleNoteData "Third") 0 0 0
                (sampleResult 1700000001000 1 "B" 1)
                (mkQuizProgress ∅ ∅ ∅ false None) 0 defaultSettings
                (mkExported sampleUser (getUserData sampleStoreTwo 0) 0)
                Hsafe Hother) as H.
  destruct H as (_ & _ & _ & _ & _ & Hclear & _ & _ & Hview).
  split; [exact (proj1 (Hview _ Hclear))|].
  vm_compute. reflexivity.
Defined.

(** ** The quiz results read by the current user *)

Lemma getQuizResults_saveQuizProgress st id progress now :
  getQuizResults (saveQuizProgress st id progress now) = getQuizResults st.
Proof.
  unfold getQuizResults, saveQuizProgress.
  destruct (getCurrentUser st) as [user|] eqn:Huser; [|by rewrite Huser].
  by rewrite getCurrentUser_saveUserData, Huser, getUserData_saveUserData.
Qed.

Lemma getCurrentUser_saveQuizProgress st id progress now :
  getCurrentUser (saveQuizProgress st id progress now) = getCurrentUser st.
Proof.
  unfold saveQuizProgress. by destruct (getCurrentUser st) as [user|] eqn:Huser.
Qed.

Lemma getCurrentUser_saveQuizResult st result now :
  getCurrentUser (saveQuizResult st result now) = getCurrentUser st.
Proof.
  unfold saveQuizResult. by destruct (getCurrentUser st) as [user|] eqn:Huser.
Qed.

Lemma getNotesHistory_saveQuizProgress st id progress now :
  getNotesHistory (saveQuizProgress st id progress now) = getNotesHistory st.
Proof.
  unfold getNotesHistory, saveQuizProgress.
  destruct (getCurrentUser st) as [user|] eqn:Huser; [|by rewrite Huser].
  by rewrite getCurrentUser_saveUserData, Huser, getUserData_saveUserData.
Qed.

Lemma getNotesHistory_saveQuizResult st result now :
  getNotesHistory (saveQuizResult st result now) = getNotesHistory st.
Proof.
  unfold getNotesHistory, saveQuizResult.
  destruct (getCurrentUser st) as [user|] eqn:Huser; [|by rewrite Huser].
  by rewrite getCurrentUser_saveUserData, Huser, getUserData_saveUserData.
Qed.

Lemma getQuizProgress_saveQuizResult st result now id :
  getQuizProgress (saveQuizResult st result now) id = getQuizProgress st id.
Proof.
  unfold getQuizProgress, saveQuizResult.
  destruct (getCurrentUser st) as [user|] eqn:Huser; [|by rewrite Huser].
  by rewrite getCurrentUser_saveUserData, Huser, getUserData_saveUserData.
Qed.

(** The results read after [saveQuizResult]: the result saved takes the
    place of the first one with its key, or is appended. *)
Lemma getQuizResults_saveQuizResult st result now user :
  getCurrentUser st = Some user →
  let before := getQuizResults st in
  let saved :=
    mkQuizResult (resultNoteId result) (resultNoteTitle result)
      (resultNoteSubject result) (questionIndex result) (questionType result)
      (questionText result) (userAnswer result) (correctAnswer result)
      (isCorrect result) (score result) now (Some (userId user)) in
  (resultKey result ∈ resultKey <$> before →
     ∃ i, i < length before ∧
          getQuizResults (saveQuizResult st result now) = <[i := saved]> before ∧
          (resultKey <$> before) !! i = Some (resultKey result)) ∧
  (resultKey result ∉ resultKey <$> before →
     getQuizResults (saveQuizResult st result now) = before ++ [saved]).
Proof.
  intros Huser before saved.
  assert (getQuizResults (saveQuizResult st result now)
          = quizResultsOf (getUserData (saveQuizResult st result now)
                             (userId user))) as Hafter.
  { unfold getQuizResults. by rewrite getCurrentUser_saveQuizResult, Huser. }
  assert (before = quizResultsOf (getUserData st (userId user))) as Hbefore.
  { unfold before, getQuizResults. by rewrite Huser. }
  rewrite Hafter, (saveQuizResult_results st result now user Huser).
  cbn zeta. rewrite <-Hbefore. fold saved.
  destruct (list_find _ before) as [[i r]|] eqn:Hfind.
  - apply list_find_Some in Hfind as (Hi & Hr & Hfirst).
    apply resultKey_eq in Hr.
    assert ((resultKey <$> before) !! i = Some (resultKey result)) as Hki
      by (by rewrite list_lookup_fmap, Hi, <-Hr).
    split.
    + intros _. exists i. split_and!; [by eapply lookup_lt_Some|done|done].
    + intros Hnot. exfalso. apply Hnot. by eapply list_elem_of_lookup_2.
  - apply list_find_None in Hfind. rewrite Forall_forall in Hfind.
    split; [|done].
    intros (r & Hr & Hin)%list_elem_of_fmap. exfalso. apply (Hfind r Hin).
    by apply resultKey_eq.
Qed.

Lemma NoDup_fmap_elem_eq {A B} (f : A → B) (l : list A) (x y : A) :
  NoDup (f <$> l) → x ∈ l → y ∈ l → f x = f y → x = y.
Proof.
  intros Hnodup (i & Hi)%list_elem_of_lookup (j & Hj)%list_elem_of_lookup Hf.
  assert (i = j) as ->; [|congruence].
  eapply (NoDup_lookup (f <$> l)); [done| |].
  - by rewrite list_lookup_fmap, Hi.
  - by rewrite list_lookup_fmap, Hj, Hf.
Qed.

Lemma getQuizResults_resetNoteQuizData st id :
  getQuizResults (resetNoteQuizData st id)
  = filter (λ result, resultNoteId result ≠ id) (getQuizResults st).
Proof.
  unfold getQuizResults, resetNoteQuizData.
  destruct (getCurrentUser st) as [user|] eqn:Huser; [|by rewrite Huser].
  by rewrite getCurrentUser_saveUserData, Huser, getUserData_saveUserData.
Qed.

Lemma getQuizResults_deleteNoteFromHistory st id :
  getQuizResults (deleteNoteFromHistory st id)
  = filter (λ result, resultNoteId result ≠ id) (getQuizResults st).
Proof.
  unfold getQuizResults, deleteNoteFromHistory.
  destruct (getCurrentUser st) as [user|] eqn:Huser; [|by rewrite Huser].
  by rewrite getCurrentUser_saveUserData, Huser, getUserData_saveUserData.
Qed.

Lemma getNotesHistory_saveNoteToHistory st note nowId nowDate saved st' :
  saveNoteToHistory st note nowId nowDate = inr (saved, st') →
  getNotesHistory st' = take 50 (saved :: getNotesHistory st).
Proof.
  unfold saveNoteToHistory, getNotesHistory.
  destruct (getCurrentUser st) as [user|] eqn:Huser; [|done].
  intros [= <- <-].
  by rewrite getCurrentUser_saveUserData, Huser, getUserData_saveUserData.
Qed.

End StorageFacts.

(* ===================================================================== *)
(** * Properties of the fallback parsers (src/services/aiService.js) *)
(* ===================================================================== *)

Module ParserFacts.
Import AiService.

Lemma flashcardStep_readFrom lines st line :
  line ∈ lines →
  Forall (readFrom lines) st.1 →
  (∀ q, st.2 = Some q → readFrom lines q) →
  Forall (readFrom lines) (flashcardStep st line).1 ∧
  (∀ q, (flashcardStep st line).2 = Some q → readFrom lines q).
Proof.
  destruct st as [cards currentQ]. simpl. intros Hline Hcards Hcur.
  unfold flashcardStep. destruct (matchQ line) as [rest|] eqn:HQ.
  - simpl. split.
    + destruct currentQ as [q|]; [|done].
      apply Forall_app. split; [done|]. apply Forall_singleton. by apply Hcur.
    + intros q [= <-]. split; [|by left]. by exists line, rest.
  - destruct (matchA line) as [rest|] eqn:HA; [|done].
    destruct currentQ as [q|]; [|done]. simpl. split; [done|].
    intros q' [= <-]. destruct (Hcur q eq_refl) as [Hq _].
    split; [done|]. right. by exists line, rest.
Qed.

Lemma foldl_flashcardStep_readFrom lines l st :
  (∀ line, line ∈ l → line ∈ lines) →
  Forall (readFrom lines) st.1 →
  (∀ q, st.2 = Some q → readFrom lines q) →
  Forall (readFrom lines) (foldl flashcardStep st l).1 ∧
  (∀ q, (foldl flashcardStep st l).2 = Some q → readFrom lines q).
Proof.
  revert st. induction l as [|line l IH]; intros st Hl Hcards Hcur; [done|].
  cbn [foldl].
  destruct (flashcardStep_readFrom lines st line) as [Hcards' Hcur'];
    [apply Hl; left|done|done|].
  apply IH; [|done|done]. intros line' Hin. apply Hl. by right.
Qed.

Lemma extractFlashcards_readFrom text :
  Forall (readFrom (nonBlankLines text)) (extractFlashcards text).
Proof.
  unfold extractFlashcards.
  destruct (foldl_flashcardStep_readFrom (nonBlankLines text)
              (nonBlankLines text) ([], None)) as [Hcards Hcur]; [done..|].
  destruct (foldl flashcardStep _ _) as [cards currentQ]. simpl in *.
  destruct currentQ as [q|]; [|done].
  destruct (truthy (answer q)); [|done].
  apply Forall_app. split; [done|]. apply Forall_singleton. by apply Hcur.
Qed.

(** ** The markers of the question and answer lines *)

Lemma startsWithCI_spec p line :
  startsWithCI p line = true ↔
  ∃ marker rest, line = marker ++ rest
                 ∧ asciiUpper <$> marker = asciiUpper <$> p.
Proof.
  revert line. induction p as [|a p IH]; intros line.
  - split; [intros _; by exists [], line|done].
  - destruct line as [|b line]; cbn [startsWithCI].
    + split; [done|]. intros (marker & rest & Hline & Hup).
      symmetry in Hline. apply app_eq_nil in Hline as [-> _]. done.
    + rewrite andb_true_iff, N.eqb_eq, IH. split.
      * intros (Hab & marker & rest & -> & Hup).
        exists (b :: marker), rest. split; [done|].
        by rewrite !fmap_cons, Hup, Hab.
      * intros (marker & rest & Hline & Hup).
        destruct marker as [|c marker]; [done|].
        rewrite !fmap_cons in Hup. injection Hup as Hc Hup.
        injection Hline as -> ->. split; [done|]. by exists marker, rest.
Qed.

(** [matchPrefix p line] is what follows a spelling of [p], in whatever
    case of its letters, at the start of the line. *)
Lemma matchPrefix_spec p line rest :
  matchPrefix p line = Some rest ↔
  ∃ marker, line = marker ++ rest ∧ asciiUpper <$> marker = asciiUpper <$> p.
Proof.
  unfold matchPrefix. split.
  - destruct (startsWithCI p line) eqn:Hstart; [|done]. intros [= <-].
    apply startsWithCI_spec in Hstart as (marker & rest & -> & Hup).
    exists marker. split; [|done].
    assert (length marker = length p) as <-
      by (apply (f_equal length) in Hup; by rewrite !length_fmap in Hup).
    by rewrite drop_app_length.
  - intros (marker & -> & Hup).
    rewrite (proj2 (startsWithCI_spec p (marker ++ rest)))
      by (by exists marker, rest).
    assert (length marker = length p) as <-
      by (apply (f_equal length) in Hup; by rewrite !length_fmap in Hup).
    by rewrite drop_app_length.
Qed.

Lemma startsWithCI_second a b p line c d :
  asciiUpper b ≠ asciiUpper d →
  startsWithCI (a :: b :: p) (c :: d :: line) = false.
Proof.
  intros Hne. cbn [startsWithCI].
  rewrite (proj2 (N.eqb_neq (asciiUpper b) (asciiUpper d))) by done.
  by rewrite andb_false_r.
Qed.

(** A question line starts with [Q:] or [Question:], in whatever case of
    the letters, and [matchQ] gives what follows the marker. *)
Lemma matchQ_spec line rest :
  matchQ line = Some rest ↔
  ∃ marker, line = marker ++ rest ∧
            (asciiUpper <$> marker = lit "Q:"
             ∨ asciiUpper <$> marker = lit "QUESTION:").
Proof.
  unfold matchQ. split.
  - destruct (matchPrefix (lit "Q:") line) as [r|] eqn:Hshort.
    + intros [= <-]. apply matchPrefix_spec in Hshort as (marker & -> & Hup).
      exists marker. split; [done|]. by left.
    + intros (marker & -> & Hup)%matchPrefix_spec.
      exists marker. split; [done|]. by right.
  - intros (marker & -> & [Hup|Hup]).
    + by rewrite (proj2 (matchPrefix_spec (lit "Q:") (marker ++ rest) rest))
        by (by exists marker).
    + assert (matchPrefix (lit "Q:") (marker ++ rest) = None) as ->.
      { destruct marker as [|c [|d marker]]; [done|done|].
        injection Hup as _ Hd _. unfold matchPrefix.
        change (lit "Q:") with [81%N; 58%N]. cbn [app].
        rewrite startsWithCI_second; [done|].
        rewrite Hd. by vm_compute. }
      apply matchPrefix_spec. by exists marker.
Qed.

(** An answer line starts with [A:] or [Answer:], likewise. *)
Lemma matchA_spec line rest :
  matchA line = Some rest ↔
  ∃ marker, line = marker ++ rest ∧
            (asciiUpper <$> marker = lit "A:"
             ∨ asciiUpper <$> marker = lit "ANSWER:").
Proof.
  unfold matchA. split.
  - destruct (matchPrefix (lit "A:") line) as [r|] eqn:Hshort.
    + intros [= <-]. apply matchPrefix_spec in Hshort as (marker & -> & Hup).
      exists marker. split; [done|]. by left.
    + intros (marker & -> & Hup)%matchPrefix_spec.
      exists marker. split; [done|]. by right.
  - intros (marker & -> & [Hup|Hup]).
    + by rewrite (proj2 (matchPrefix_spec (lit "A:") (marker ++ rest) rest))
        by (by exists marker).
    + assert (matchPrefix (lit "A:") (marker ++ rest) = None) as ->.
      { destruct marker as [|c [|d marker]]; [done|done|].
        injection Hup as _ Hd _. unfold matchPrefix.
        change (lit "A:") with [65%N; 58%N]. cbn [app].
        rewrite startsWithCI_second; [done|].
        rewrite Hd. by vm_compute. }
      apply matchPrefix_spec. by exists marker.
Qed.

(** ** The loop over the lines, card by card *)

(** The cards pushed and the open card, taken together, are the cards
    pushed before, the card that was open with the answer it gets from the
    lines, and one card for every question line. *)
Lemma foldl_flashcardStep_cards l cards cur :
  let st := foldl flashcardStep (cards, cur) l in
  st.1 ++ option_list st.2
  = cards
    ++ option_list
         ((λ q, mkFlashcard (question q) (answerAmong l (answer q))) <$> cur)
    ++ cardsOfLines l ∧
  (st.2 = None → cur = None ∧ st.1 = cards ∧ cardsOfLines l = []).
Proof.
  revert cards cur. induction l as [|line l IH]; intros cards cur.
  - cbn [foldl cardsOfLines answerAmong fst snd]. split; [|done].
    rewrite app_nil_r. by destruct cur as [[q a]|].
  - cbn [foldl cardsOfLines answerAmong].
    destruct (matchQ line) as [q|] eqn:HQ.
    + replace (flashcardStep (cards, cur) line)
        with (match cur with Some q0 => cards ++ [q0] | None => cards end,
              Some (mkFlashcard (trim q) []))
        by (unfold flashcardStep; by rewrite HQ).
      destruct (IH (match cur with Some q0 => cards ++ [q0] | None => cards end)
                   (Some (mkFlashcard (trim q) []))) as [Hall Hnone].
      cbn zeta in *. split.
      * rewrite Hall. cbn [fmap option_fmap option_map option_list question
                            answer app].
        destruct cur as [[q0 a0]|]; cbn [fmap option_fmap option_map
                                          option_list question answer app];
          by rewrite <-?app_assoc.
      * intros Hst. by destruct (Hnone Hst) as [? _].
    + destruct (matchA line) as [a|] eqn:HA; [destruct cur as [q0|]|].
      * replace (flashcardStep (cards, Some q0) line)
          with (cards, Some (mkFlashcard (question q0) (trim a)))
          by (unfold flashcardStep; by rewrite HQ, HA).
        destruct (IH cards (Some (mkFlashcard (question q0) (trim a))))
          as [Hall Hnone].
        cbn zeta in *. split; [by rewrite Hall|].
        intros Hst. by destruct (Hnone Hst) as [? _].
      * replace (flashcardStep (cards, None) line) with (cards, @None Flashcard)
          by (unfold flashcardStep; by rewrite HQ, HA).
        apply IH.
      * replace (flashcardStep (cards, cur) line) with (cards, cur)
          by (unfold flashcardStep; rewrite HQ, HA; by destruct cur).
        apply IH.
Qed.

Lemma extractFlashcards_cards text :
  extractFlashcards text = answeredLast (cardsOfLines (nonBlankLines text)).
Proof.
  unfold extractFlashcards.
  destruct (foldl_flashcardStep_cards (nonBlankLines text) [] None)
    as [Hall Hnone].
  cbn zeta in *.
  destruct (foldl flashcardStep _ _) as [cards cur]. cbn [fst snd] in *.
  simpl in Hall. rewrite <-Hall. unfold answeredLast. destruct cur as [q|].
  - change (option_list (Some q)) with [q].
    rewrite last_snoc, length_app. cbn [length].
    destruct (truthy (answer q)); [done|].
    replace (length cards + 1 - 1) with (length cards) by lia.
    by rewrite take_app_length.
  - destruct (Hnone eq_refl) as (_ & -> & _). done.
Qed.

Lemma cardsOfLines_app pre l :
  ∃ front, cardsOfLines (pre ++ l) = front ++ cardsOfLines l.
Proof.
  induction pre as [|line pre [front IH]]; [by exists []|].
  cbn [app cardsOfLines]. rewrite IH.
  destruct (matchQ line) as [q|]; [|by exists front].
  by eexists (_ :: front).
Qed.

Lemma answerAmong_plain mid post found :
  Forall plainLine mid →
  answerAmong (mid ++ post) found = answerAmong post found.
Proof.
  induction 1 as [|line mid [HQ HA] _ IH]; [done|].
  cbn [app answerAmong]. by rewrite HQ, HA.
Qed.

Lemma answerAmong_stop post found :
  (∀ line, head post = Some line → is_Some (matchQ line)) →
  answerAmong post found = found.
Proof.
  destruct post as [|line post]; [done|]. intros Hhead.
  cbn [answerAmong]. by destruct (Hhead line eq_refl) as [q ->].
Qed.

Lemma answeredLast_elem card cards :
  card ∈ cards → answer card ≠ [] → card ∈ answeredLast cards.
Proof.
  intros Hin Hanswer. unfold answeredLast.
  destruct (last cards) as [q|] eqn:Hlast.
  - destruct (truthy (answer q)) eqn:Hq; [done|].
    apply last_Some in Hlast as [front ->].
    rewrite length_app. cbn [length].
    replace (length front + 1 - 1) with (length front) by lia.
    rewrite take_app_length.
    apply elem_of_app in Hin as [Hin|Hin%list_elem_of_singleton]; [done|].
    subst q. by destruct (answer card).
  - apply last_None in Hlast. subst cards. by apply elem_of_nil in Hin.
Qed.

(** C9.  The fallback parsers are functions of the text alone, defined on
    every text (each primitive they use is defined on every string, so the
    model has no error case).  The question fallback returns the one
    placeholder question.  The flashcard fallback reads the lines that are
    not blank.  A question line starts with [Q:] or [Question:] and an answer
    line with [A:] or [Answer:], in whatever case of the letters.  The cards
    extracted are one card for every question line, in order: its question is
    what follows the marker, trimmed, and its answer is what follows the
    marker of the last answer line before the next question line, trimmed,
    or the empty string; the last card counts only when it has an answer.
    So a question line followed by an answer line with an answer, and then by
    no other answer line before the next question line, gives its card.  The
    result is these cards when there is at least one, and the one placeholder
    card otherwise; it is never empty. *)
Theorem fallback_parsers_total (text : jsstring) :
  let lines := nonBlankLines text in
  parseQuestionsManually text = [placeholderQuestion] ∧
  parseFlashcardsManually text ≠ [] ∧
  (extractFlashcards text = [] →
     parseFlashcardsManually text = [placeholderFlashcard]) ∧
  (extractFlashcards text ≠ [] →
     parseFlashcardsManually text = extractFlashcards text) ∧
  (∀ card, card ∈ extractFlashcards text → readFrom lines card) ∧
  extractFlashcards text = answeredLast (cardsOfLines lines) ∧
  (∀ line rest,
     matchQ line = Some rest ↔
     ∃ marker, line = marker ++ rest ∧
               (asciiUpper <$> marker = lit "Q:"
                ∨ asciiUpper <$> marker = lit "QUESTION:")) ∧
  (∀ line rest,
     matchA line = Some rest ↔
     ∃ marker, line = marker ++ rest ∧
               (asciiUpper <$> marker = lit "A:"
                ∨ asciiUpper <$> marker = lit "ANSWER:")) ∧
  (∀ pre qline aline mid post q a,
     lines = pre ++ qline :: aline :: mid ++ post →
     matchQ qline = Some q →
     matchA aline = Some a →
     trim a ≠ [] →
     Forall plainLine mid →
     (∀ line, head post = Some line → is_Some (matchQ line)) →
     mkFlashcard (trim q) (trim a) ∈ parseFlashcardsManually text).
Proof.
  intros lines.
  assert (extractFlashcards text ≠ [] →
          parseFlashcardsManually text = extractFlashcards text) as Hsome.
  { intros Hne. unfold parseFlashcardsManually. cbn zeta.
    rewrite bool_decide_eq_true_2; [done|].
    destruct (extractFlashcards text); [done|simpl; lia]. }
  split_and!.
  - done.
  - unfold parseFlashcardsManually. cbn zeta.
    case_bool_decide as Hlen; [|done].
    intros Hnil. rewrite Hnil in Hlen. simpl in Hlen. lia.
  - unfold parseFlashcardsManually. cbn zeta. intros ->. done.
  - exact Hsome.
  - apply Forall_forall, extractFlashcards_readFrom.
  - apply extractFlashcards_cards.
  - apply matchQ_spec.
  - apply matchA_spec.
  - intros pre qline aline mid post q a Hlines HQ HA Ha Hmid Hpost.
    assert (mkFlashcard (trim q) (trim a) ∈ extractFlashcards text) as Hin.
    { rewrite extractFlashcards_cards. fold lines. rewrite Hlines.
      apply answeredLast_elem; [|done].
      destruct (cardsOfLines_app pre (qline :: aline :: mid ++ post))
        as [front ->].
      apply elem_of_app. right. cbn [cardsOfLines answerAmong].
      rewrite HQ.
      assert (matchQ aline = None) as ->.
      { destruct (matchQ aline) as [r|] eqn:HQ'; [|done]. exfalso.
        apply matchQ_spec in HQ' as (m1 & Hl1 & Hm1).
        apply matchA_spec in HA as (m2 & Hl2 & Hm2).
        destruct m1 as [|c1 m1]; [by destruct Hm1|].
        destruct m2 as [|c2 m2]; [by destruct Hm2|].
        rewrite Hl1 in Hl2. injection Hl2 as -> _.
        destruct Hm1 as [Hm1|Hm1], Hm2 as [Hm2|Hm2];
          injection Hm1 as Hm1 _; injection Hm2 as Hm2 _;
          rewrite Hm1 in Hm2; discriminate Hm2. }
      rewrite HA, answerAmong_plain, answerAmong_stop by done. by left. }
    rewrite Hsome; [done|]. intros Hnil. rewrite Hnil in Hin.
    by apply elem_of_nil in Hin.
Qed.

(** The theorem on the sample output: both cards are extracted, the second
    one from markers in lower case and after a line that is neither a
    question nor an answer; and on a text without any question line. *)
Lemma fallback_parsers_total_witness :
  nonBlankLines sampleCards
  = [lit "Q: What is 2+2?"; lit "A: 4"] ++ [lit "Here is another one"]
    ++ [lit "question:  Capital of France? "; lit "Answer: Paris"] ∧
  mkFlashcard (lit "What is 2+2?") (lit "4")
    ∈ parseFlashcardsManually sampleCards ∧
  mkFlashcard (lit "Capital of France?") (lit "Paris")
    ∈ parseFlashcardsManually sampleCards ∧
  extractFlashcards (lit "no cards here") = [] ∧
  parseFlashcardsManually (lit "no cards here") = [placeholderFlashcard].
Proof.
  assert (nonBlankLines sampleCards
          = [lit "Q: What is 2+2?"; lit "A: 4"] ++ [lit "Here is another one"]
            ++ [lit "question:  Capital of France? "; lit "Answer: Paris"])
    as Hlines by (vm_compute; reflexivity).
  assert (extractFlashcards (lit "no cards here") = []) as Hnone
    by (vm_compute; reflexivity).
  split; [exact Hlines|].
  destruct (fallback_parsers_total sampleCards)
    as (_ & _ & _ & _ & _ & _ & _ & _ & Hcard).
  split; [|split; [|split]].
  - apply (Hcard [] (lit "Q: What is 2+2?") (lit "A: 4")
             [lit "Here is another one"]
             [lit "question:  Capital of France? "; lit "Answer: Paris"]
             (lit " What is 2+2?") (lit " 4")).
    + exact Hlines.
    + vm_compute. reflexivity.
    + vm_compute. reflexivity.
    + vm_compute. discriminate.
    + apply Forall_singleton. split; vm_compute; reflexivity.
    + intros line [= <-]. vm_compute. by eexists.
  - apply (Hcard [lit "Q: What is 2+2?"; lit "A: 4"; lit "Here is another one"]
             (lit "question:  Capital of France? ") (lit "Answer: Paris")
             [] [] (lit "  Capital of France? ") (lit " Paris")).
    + exact Hlines.
    + vm_compute. reflexivity.
    + vm_compute. reflexivity.
    + vm_compute. discriminate.
    + apply Forall_nil_2.
    + intros line [=].
  - exact Hnone.
  - exact (proj1 (proj2 (proj2 (fallback_parsers_total (lit "no cards here"))))
             Hnone).
Defined.

Example parseFlashcardsManually_sample :
  parseFlashcardsManually sampleCards =
  [ mkFlashcard (lit "What is 2+2?") (lit "4");
    mkFlashcard (lit "Capital of France?") (lit "Paris") ].
Proof. vm_compute. reflexivity. Qed.

(** A question line without an answer is kept when another question
    follows it, and dropped when it is the last one. *)
Example parseFlashcardsManually_unanswered :
  parseFlashcardsManually (lit "Q: first" ++ [10%N] ++ lit "Q: second") =
  [ mkFlashcard (lit "first") [] ].
Proof. vm_compute. reflexivity. Qed.

(** ** The parse of a model output *)

Lemma upToLastBracket_None s : upToLastBracket s = None → 93%N ∉ s.
Proof.
  induction s as [|c s IH]; [intros _; apply not_elem_of_nil|].
  cbn [upToLastBracket]. destruct (upToLastBracket s) as [m|]; [done|].
  destruct (c =? 93)%N eqn:Hc; [done|]. intros _.
  apply N.eqb_neq in Hc. apply not_elem_of_cons. split; [congruence|by apply IH].
Qed.

Lemma upToLastBracket_Some s m :
  upToLastBracket s = Some m →
  last m = Some 93%N ∧ ∃ post, s = m ++ post ∧ (93%N ∉ post).
Proof.
  revert m. induction s as [|c s IH]; intros m; [done|].
  cbn [upToLastBracket].
  destruct (upToLastBracket s) as [m'|] eqn:Hs.
  - intros [= <-]. destruct (IH m' eq_refl) as (Hlast & post & -> & Hpost).
    split; [|by exists post]. by rewrite last_cons, Hlast.
  - destruct (c =? 93)%N eqn:Hc; [|done]. intros [= <-].
    apply N.eqb_eq in Hc as ->. split; [done|]. exists s.
    split; [done|]. by apply upToLastBracket_None.
Qed.

Lemma matchBrackets_Some s m :
  matchBrackets s = Some m →
  head m = Some 91%N ∧ last m = Some 93%N ∧
  ∃ pre post, s = pre ++ m ++ post ∧ (91%N ∉ pre) ∧ (93%N ∉ post).
Proof.
  revert m. induction s as [|c s IH]; intros m; [done|].
  cbn [matchBrackets]. destruct (c =? 91)%N eqn:Hc.
  - apply N.eqb_eq in Hc as ->.
    destruct (upToLastBracket s) as [m'|] eqn:Hs.
    + intros [= <-].
      destruct (upToLastBracket_Some s m' Hs) as (Hlast & post & -> & Hpost).
      split_and!; [done| |].
      * by rewrite last_cons, Hlast.
      * exists [], post. split_and!; [done|apply not_elem_of_nil|done].
    + intros Hm. destruct (IH m Hm) as (_ & Hlast & pre & post & -> & _).
      exfalso. apply (upToLastBracket_None _ Hs).
      apply last_Some in Hlast as [l ->].
      apply elem_of_app. right. apply elem_of_app. left.
      apply elem_of_app. right. by apply list_elem_of_singleton.
  - intros Hm. destruct (IH m Hm) as (Hhead & Hlast & pre & post & -> & Hpre & Hpost).
    split_and!; [done|done|]. exists (c :: pre), post.
    split_and!; [done| |done]. apply N.eqb_neq in Hc.
    apply not_elem_of_cons. split; [congruence|done].
Qed.

Lemma matchBrackets_None s pre mid post :
  matchBrackets s = None → s ≠ pre ++ [91%N] ++ mid ++ [93%N] ++ post.
Proof.
  revert pre. induction s as [|c s IH]; intros pre Hnone Hs.
  - by destruct pre.
  - cbn [matchBrackets] in Hnone. destruct pre as [|d pre].
    + injection Hs as -> Hs. change (91 =? 91)%N with true in Hnone.
      cbn match in Hnone.
      destruct (upToLastBracket s) as [m|] eqn:Hup; [done|].
      apply upToLastBracket_None in Hup. apply Hup. rewrite Hs.
      apply elem_of_app. right. by left.
    + injection Hs as -> ->. apply (IH pre); [|done].
      destruct (d =? 91)%N; [|done].
      by destruct (upToLastBracket _).
Qed.

Section Json.
Context {JsonValue : Type} (jsonParse : jsstring → JsError + JsonValue).

(** X30.  What [generateFlashcards] and [generatePracticeQuestions] make of
    a response never fails.  [JSON.parse] is given the part of the response
    from its first opening bracket to its last closing bracket, when a
    closing bracket follows an opening one, and its value is returned when
    it parses; when it throws, or when the response has no such part, the
    result is that of the fallback parser on the whole response, a list that
    is not empty. *)
Theorem response_parse_recovers (response : jsstring) :
  (∀ jsonMatch, matchBrackets response = Some jsonMatch →
     head jsonMatch = Some 91%N ∧ last jsonMatch = Some 93%N ∧
     ∃ pre post, response = pre ++ jsonMatch ++ post
                 ∧ (91%N ∉ pre) ∧ (93%N ∉ post)) ∧
  (matchBrackets response = None →
     ∀ pre mid post, response ≠ pre ++ [91%N] ++ mid ++ [93%N] ++ post) ∧
  match flashcardsOfResponse jsonParse response with
  | inl value =>
      ∃ jsonMatch, matchBrackets response = Some jsonMatch
                   ∧ jsonParse jsonMatch = inr value
  | inr cards =>
      cards = parseFlashcardsManually response ∧ cards ≠ [] ∧
      (∀ jsonMatch, matchBrackets response = Some jsonMatch →
                    ∃ e, jsonParse jsonMatch = inl e)
  end ∧
  match questionsOfResponse jsonParse response with
  | inl value =>
      ∃ jsonMatch, matchBrackets response = Some jsonMatch
                   ∧ jsonParse jsonMatch = inr value
  | inr qs =>
      qs = [placeholderQuestion] ∧
      (∀ jsonMatch, matchBrackets response = Some jsonMatch →
                    ∃ e, jsonParse jsonMatch = inl e)
  end.
Proof.
  assert (parseFlashcardsManually response ≠ []) as Hne.
  { unfold parseFlashcardsManually. case_bool_decide as Hlen; [|done].
    intros Hnil. rewrite Hnil in Hlen. simpl in Hlen. lia. }
  split_and!.
  - apply matchBrackets_Some.
  - intros Hnone pre mid post. by apply matchBrackets_None.
  - unfold flashcardsOfResponse.
    destruct (matchBrackets response) as [m|]; [|done].
    destruct (jsonParse m) as [e|v] eqn:Hparse.
    + split_and!; [done|done|]. intros ? [= <-]. by exists e.
    + by exists m.
  - unfold questionsOfResponse.
    destruct (matchBrackets response) as [m|]; [|done].
    destruct (jsonParse m) as [e|v] eqn:Hparse.
    + split; [done|]. intros ? [= <-]. by exists e.
    + by exists m.
Qed.

End Json.

End ParserFacts.

(* ===================================================================== *)
(** * Properties of the scoring of an answer *)
(* ===================================================================== *)

Module QuizFacts.
Import AiService Storage Quiz.

(** C6.  When the question exists, [handleShowAnswer] builds a result whose
    score is [+1] with [isCorrect] true when the selected option is the
    correct one, and [-1] with [isCorrect] false otherwise; that score is
    also the one recorded for the question in the component. *)
Theorem handleShowAnswer_score st ui notesData index tResult tSaved tProgress q :
  questions (noteData notesData) !! index = Some q →
  ∃ result ui' st',
    handleShowAnswer st ui notesData index tResult tSaved tProgress
      = Some (result, ui', st') ∧
    userAnswer result = uiSelectedAnswers ui !! index ∧
    correctAnswer result = mcqCorrect q ∧
    (userAnswer result = correctAnswer result →
       score result = 1%Z ∧ isCorrect result = true) ∧
    (userAnswer result ≠ correctAnswer result →
       score result = (-1)%Z ∧ isCorrect result = false) ∧
    (isCorrect result = true ↔ userAnswer result = correctAnswer result) ∧
    uiQuestionScores ui' !! index = Some (score result).
Proof.
  intros Hq. unfold handleShowAnswer. rewrite Hq. cbn [mbind option_bind].
  unfold scoreAnswer.
  destruct (decide (uiSelectedAnswers ui !! index = mcqCorrect q)) as [Heq|Hne].
  - eexists _, _, _. split; [reflexivity|]. cbn.
    split_and!; try done. by rewrite lookup_insert_eq.
  - eexists _, _, _. split; [reflexivity|]. cbn.
    split_and!; try done. by rewrite lookup_insert_eq.
Qed.

(** The theorem on the sample store: the stored question has the correct
    letter B, and B is selected. *)
Lemma handleShowAnswer_score_witness :
  questions (sampleNoteData "First") !! 0
  = Some (mkQuestion (lit "mcq") (lit "Which one?")
            [lit "A) one"; lit "B) two"; lit "C) three"; lit "D) four"]
            (Some (lit "B")) (lit "Two it is.")) ∧
  ∃ result ui' st',
    handleShowAnswer sampleStore
      (mkQuizState {[ 0 := lit "B" ]} ∅ ∅ false)
      (mkNote 1700000001000 1700000000000 1700000001000 (sampleNoteData "First"))
      0 1700000007000 1700000007001 1700000007002
    = Some (result, ui', st') ∧
    uiQuestionScores ui' !! 0 = Some (score result).
Proof.
  assert (questions (noteData (mkNote 1700000001000 1700000000000 1700000001000
                                 (sampleNoteData "First"))) !! 0
          = Some (mkQuestion (lit "mcq") (lit "Which one?")
                    [lit "A) one"; lit "B) two"; lit "C) three"; lit "D) four"]
                    (Some (lit "B")) (lit "Two it is."))) as Hq
    by reflexivity.
  split; [exact Hq|].
  destruct (handleShowAnswer_score sampleStore
              (mkQuizState {[ 0 := lit "B" ]} ∅ ∅ false) _ 0
              1700000007000 1700000007001 1700000007002 _ Hq)
    as (result & ui' & st' & Hrun & _ & _ & _ & _ & _ & Hscore).
  exists result, ui', st'. split; [exact Hrun | exact Hscore].
Defined.

Example scoreAnswer_values :
  scoreAnswer (Some (lit "B")) (Some (lit "B")) = (1%Z, true) ∧
  scoreAnswer (Some (lit "A")) (Some (lit "B")) = ((-1)%Z, false) ∧
  scoreAnswer None (Some (lit "B")) = ((-1)%Z, false).
Proof. by vm_compute. Qed.

(** ** The progress and the results an answer leaves in the store *)

(** X12.  The progress [handleShowAnswer] saves is the state it leaves in
    the component: when there is a current user and the note has a non-zero
    id, loading the saved progress of the note afterwards gives the selected
    answers, the shown answers, the scores and the flag of that state,
    whatever the state of the component was.  Without a current user nothing
    is saved and the state of the component stays what it was. *)
Theorem handleShowAnswer_persisted st ui notesData index tResult tSaved
    tProgress result ui' st' ui0 :
  handleShowAnswer st ui notesData index tResult tSaved tProgress
  = Some (result, ui', st') →
  noteId notesData ≠ 0%Z →
  loadSavedProgress st' notesData ui0
  = match getCurrentUser st with Some _ => ui' | None => ui0 end.
Proof.
  unfold handleShowAnswer. intros Hrun Hid.
  destruct (questions (noteData notesData) !! index) as [q|]; [|done].
  cbn [mbind option_bind] in Hrun.
  destruct (scoreAnswer _ _) as [score isCorrect].
  injection Hrun as <- <- <-.
  unfold loadSavedProgress. rewrite bool_decide_eq_true_2 by done.
  unfold getQuizProgress, saveQuizProgress.
  rewrite StorageFacts.getCurrentUser_saveQuizResult.
  destruct (getCurrentUser st) as [user|] eqn:Huser.
  - rewrite StorageFacts.getCurrentUser_saveUserData,
      StorageFacts.getCurrentUser_saveQuizResult, Huser.
    rewrite StorageFacts.getUserData_saveUserData. unfold progressOf.
    cbn [quizProgress mbind option_bind]. rewrite lookup_insert_eq.
    cbn [selectedAnswers showAnswers questionScores allQuestionsChecked].
    f_equal. destruct (uiSelectedAnswers ui !! index) as [a|] eqn:Ha; [|done].
    by apply insert_id.
  - rewrite StorageFacts.getCurrentUser_saveQuizResult, Huser. done.
Qed.

Lemma handleShowAnswer_persisted_witness :
  ∃ result ui' st',
    handleShowAnswer sampleStore
      (mkQuizState {[ 0 := lit "B" ]} ∅ ∅ false)
      (mkNote 1700000001000 1700000000000 1700000001000 (sampleNoteData "First"))
      0 1700000007000 1700000007001 1700000007002
    = Some (result, ui', st') ∧
    loadSavedProgress st'
      (mkNote 1700000001000 1700000000000 1700000001000 (sampleNoteData "First"))
      (mkQuizState ∅ ∅ ∅ false)
    = ui'.
Proof.
  destruct (handleShowAnswer sampleStore
              (mkQuizState {[ 0 := lit "B" ]} ∅ ∅ false)
              (mkNote 1700000001000 1700000000000 1700000001000
                 (sampleNoteData "First"))
              0 1700000007000 1700000007001 1700000007002)
    as [[[result ui'] st']|] eqn:Hrun; [|vm_compute in Hrun; discriminate Hrun].
  exists result, ui', st'. split; [reflexivity|].
  apply (handleShowAnswer_persisted sampleStore
           (mkQuizState {[ 0 := lit "B" ]} ∅ ∅ false)
           (mkNote 1700000001000 1700000000000 1700000001000
              (sampleNoteData "First"))
           0 1700000007000 1700000007001 1700000007002 result ui' st'
           (mkQuizState ∅ ∅ ∅ false) Hrun).
  simpl. lia.
Defined.

(** X13.  A confirmed [handleResetQuestions] empties the state of the
    component and the saved progress of the note, but leaves the stored quiz
    results alone: the results read, the statistics of the dashboard and the
    performance of every note are what they were before the reset. *)
Theorem handleResetQuestions_keeps_results st ui notesData now ui0 :
  let '(ui', st') := handleResetQuestions st ui notesData true now in
  ui' = mkQuizState ∅ ∅ ∅ false ∧
  getQuizResults st' = getQuizResults st ∧
  Dashboard.calculateStats st' = Dashboard.calculateStats st ∧
  (∀ id, Dashboard.getNotePerformance st' id
         = Dashboard.getNotePerformance st id) ∧
  getNotesHistory st' = getNotesHistory st ∧
  (noteId notesData ≠ 0%Z → is_Some (getCurrentUser st) →
   loadSavedProgress st' notesData ui0 = mkQuizState ∅ ∅ ∅ false).
Proof.
  unfold handleResetQuestions.
  pose proof (StorageFacts.getQuizResults_saveQuizProgress st (noteId notesData)
                (mkQuizProgress ∅ ∅ ∅ false None) now) as Hresults.
  split_and!.
  - done.
  - done.
  - unfold Dashboard.calculateStats. by rewrite Hresults.
  - intros id. unfold Dashboard.getNotePerformance. by rewrite Hresults.
  - apply StorageFacts.getNotesHistory_saveQuizProgress.
  - intros Hid [user Huser]. unfold loadSavedProgress.
    rewrite bool_decide_eq_true_2 by done.
    unfold getQuizProgress, saveQuizProgress. rewrite Huser.
    rewrite StorageFacts.getCurrentUser_saveUserData, Huser.
    rewrite StorageFacts.getUserData_saveUserData. unfold progressOf.
    cbn [quizProgress mbind option_bind]. by rewrite lookup_insert_eq.
Qed.

(** X14.  With a current user, [handleShowAnswer] leaves in the quiz results
    read the result it built, stamped with the user and the instant of the
    save, under the key of the note and the question.  The list grows by one
    when no result had that key and keeps its length otherwise; when the
    keys were pairwise distinct they still are, so the result of the
    question is the new one and no other.  The notes are untouched. *)
Theorem handleShowAnswer_recorded st ui notesData index tResult tSaved
    tProgress result ui' st' user :
  getCurrentUser st = Some user →
  handleShowAnswer st ui notesData index tResult tSaved tProgress
  = Some (result, ui', st') →
  let before := getQuizResults st in
  let after := getQuizResults st' in
  let saved :=
    mkQuizResult (resultNoteId result) (resultNoteTitle result)
      (resultNoteSubject result) (questionIndex result) (questionType result)
      (questionText result) (userAnswer result) (correctAnswer result)
      (isCorrect result) (score result) tSaved (Some (userId user)) in
  resultKey result = (noteId notesData, index) ∧
  saved ∈ after ∧
  length after
  = (if bool_decide (resultKey result ∈ resultKey <$> before)
     then length before else S (length before)) ∧
  (NoDup (resultKey <$> before) →
     NoDup (resultKey <$> after) ∧
     ∀ r, r ∈ after → resultKey r = resultKey result → r = saved) ∧
  getNotesHistory st' = getNotesHistory st.
Proof.
  intros Huser Hrun before after saved.
  unfold handleShowAnswer in Hrun.
  destruct (questions (noteData notesData) !! index) as [q|]; [|done].
  cbn [mbind option_bind] in Hrun.
  destruct (scoreAnswer _ _) as [sc ok] eqn:Hscore.
  injection Hrun as Hresult Hui Hst.
  assert (resultKey result = (noteId notesData, index)) as Hkey
    by (by rewrite <-Hresult).
  assert (resultKey saved = resultKey result) as Hsaved by done.
  assert (after = getQuizResults (saveQuizResult st result tSaved)) as Hafter.
  { unfold after. rewrite <-Hst, <-Hresult.
    apply StorageFacts.getQuizResults_saveQuizProgress. }
  destruct (StorageFacts.getQuizResults_saveQuizResult st result tSaved user
              Huser) as [Hin Hout].
  fold before saved in Hin, Hout. rewrite <-Hafter in Hin, Hout.
  split; [done|].
  destruct (decide (resultKey result ∈ resultKey <$> before)) as [Hk|Hk].
  - destruct (Hin Hk) as (i & Hi & Heq & Hki).
    rewrite bool_decide_eq_true_2 by done.
    assert (saved ∈ after) as Helem.
    { rewrite Heq. apply list_elem_of_lookup. exists i.
      by apply list_lookup_insert_eq. }
    assert (resultKey <$> after = resultKey <$> before) as Hkeys.
    { rewrite Heq, list_fmap_insert, Hsaved. by apply list_insert_id. }
    split_and!; [done|by rewrite Heq, length_insert| |].
    + intros Hnodup. rewrite Hkeys. split; [done|].
      intros r Hr Hrk. apply (StorageFacts.NoDup_fmap_elem_eq resultKey after);
        [by rewrite Hkeys|done|done|congruence].
    + rewrite <-Hst, StorageFacts.getNotesHistory_saveQuizProgress.
      apply StorageFacts.getNotesHistory_saveQuizResult.
  - specialize (Hout Hk). rewrite bool_decide_eq_false_2 by done.
    assert (saved ∈ after) as Helem.
    { rewrite Hout. apply elem_of_app. right. by apply list_elem_of_singleton. }
    split_and!; [done| | |].
    + rewrite Hout, length_app. simpl. lia.
    + intros Hnodup.
      assert (NoDup (resultKey <$> after)) as Hnodup'.
      { rewrite Hout, fmap_app. apply NoDup_app.
        split_and!; [done| |apply NoDup_singleton].
        intros k Hkin ->%list_elem_of_singleton. by rewrite Hsaved in Hkin. }
      split; [done|].
      intros r Hr Hrk. apply (StorageFacts.NoDup_fmap_elem_eq resultKey after);
        [done|done|done|congruence].
    + rewrite <-Hst, StorageFacts.getNotesHistory_saveQuizProgress.
      apply StorageFacts.getNotesHistory_saveQuizResult.
Qed.

Lemma handleShowAnswer_recorded_witness :
  getCurrentUser sampleStore = Some sampleUser ∧
  ∃ result ui' st',
    handleShowAnswer sampleStore
      (mkQuizState {[ 1 := lit "B" ]} ∅ ∅ false)
      (mkNote 1700000001000 1700000000000 1700000001000 (sampleNoteData "First"))
      0 1700000007000 1700000007001 1700000007002
    = Some (result, ui', st') ∧
    length (getQuizResults st') = length (getQuizResults sampleStore).
Proof.
  assert (getCurrentUser sampleStore = Some sampleUser) as Huser
    by (vm_compute; reflexivity).
  split; [exact Huser|].
  destruct (handleShowAnswer sampleStore
              (mkQuizState {[ 1 := lit "B" ]} ∅ ∅ false)
              (mkNote 1700000001000 1700000000000 1700000001000
                 (sampleNoteData "First"))
              0 1700000007000 1700000007001 1700000007002)
    as [[[result ui'] st']|] eqn:Hrun; [|vm_compute in Hrun; discriminate Hrun].
  exists result, ui', st'. split; [reflexivity|].
  pose proof (handleShowAnswer_recorded sampleStore
       (mkQuizState {[ 1 := lit "B" ]} ∅ ∅ false)
       (mkNote 1700000001000 1700000000000 1700000001000
          (sampleNoteData "First"))
       0 1700000007000 1700000007001 1700000007002 result ui' st' sampleUser
       Huser Hrun) as (Hkey & _ & Hlen & _).
  rewrite Hlen, Hkey. vm_compute. reflexivity.
Defined.

(** X15.  When every answer shown so far belongs to a question of the note,
    this is still so after [handleShowAnswer], the answer of the question
    handled is shown, and the flag [allQuestionsChecked] is raised exactly
    when the answer of every question of the note is shown. *)
Theorem handleShowAnswer_all_checked st ui notesData index tResult tSaved
    tProgress result ui' st' :
  (∀ k, is_Some (uiShowAnswers ui !! k) →
        k < length (questions (noteData notesData))) →
  handleShowAnswer st ui notesData index tResult tSaved tProgress
  = Some (result, ui', st') →
  let n := length (questions (noteData notesData)) in
  (∀ k, is_Some (uiShowAnswers ui' !! k) → k < n) ∧
  uiShowAnswers ui' !! index = Some true ∧
  (uiAllQuestionsChecked ui' = true
   ↔ ∀ k, k < n → is_Some (uiShowAnswers ui' !! k)).
Proof.
  intros Hshown Hrun n. unfold handleShowAnswer in Hrun.
  destruct (questions (noteData notesData) !! index) as [q|] eqn:Hq; [|done].
  apply lookup_lt_Some in Hq. fold n in Hq, Hshown.
  cbn [mbind option_bind] in Hrun.
  destruct (scoreAnswer _ _) as [sc ok].
  injection Hrun as _ <- _.
  cbn [uiShowAnswers uiAllQuestionsChecked]. fold n.
  set (m' := <[index := true]> (uiShowAnswers ui)).
  assert (∀ k, is_Some (m' !! k) → k < n) as Hshown'.
  { intros k. unfold m'. destruct (decide (k = index)) as [->|Hne]; [done|].
    rewrite lookup_insert_ne by done. apply Hshown. }
  assert (dom m' ⊆ (set_seq 0 n : gset nat)) as Hsub.
  { intros k Hk%elem_of_dom. apply elem_of_set_seq. specialize (Hshown' k Hk).
    lia. }
  split_and!; [done|apply lookup_insert_eq|].
  rewrite bool_decide_eq_true. split.
  - intros Hsize k Hk. apply elem_of_dom.
    assert (dom m' ≡ (set_seq 0 n : gset nat)) as Heq.
    { apply set_subseteq_size_equiv; [done|].
      rewrite size_set_seq, size_dom. lia. }
    apply Heq. apply elem_of_set_seq. lia.
  - intros Hall. rewrite <-(size_dom (D := gset nat)).
    assert (dom m' ≡ (set_seq 0 n : gset nat)) as Heq.
    { intros k. split; [apply Hsub|].
      intros Hk%elem_of_set_seq. apply elem_of_dom. apply Hall. lia. }
    rewrite Heq. apply size_set_seq.
Qed.

Lemma handleShowAnswer_all_checked_witness :
  ∃ result ui' st',
    handleShowAnswer sampleStore
      (mkQuizState {[ 0 := lit "B" ]} ∅ ∅ false)
      (mkNote 1700000001000 1700000000000 1700000001000 (sampleNoteData "First"))
      0 1700000007000 1700000007001 1700000007002
    = Some (result, ui', st') ∧
    uiShowAnswers ui' !! 0 = Some true.
Proof.
  destruct (handleShowAnswer sampleStore
              (mkQuizState {[ 0 := lit "B" ]} ∅ ∅ false)
              (mkNote 1700000001000 1700000000000 1700000001000
                 (sampleNoteData "First"))
              0 1700000007000 1700000007001 1700000007002)
    as [[[result ui'] st']|] eqn:Hrun; [|vm_compute in Hrun; discriminate Hrun].
  exists result, ui', st'. split; [reflexivity|].
  refine (proj1 (proj2 (handleShowAnswer_all_checked sampleStore
           (mkQuizState {[ 0 := lit "B" ]} ∅ ∅ false)
           (mkNote 1700000001000 1700000000000 1700000001000
              (sampleNoteData "First"))
           0 1700000007000 1700000007001 1700000007002 result ui' st' _ Hrun))).
  intros k [v Hk]. cbn [uiShowAnswers] in Hk. by rewrite lookup_empty in Hk.
Defined.

(** X16.  [handleShowAnswer] keeps the stored results consistent: the
    result it builds has the score [+1] with [isCorrect] or [-1] without,
    and when every result read before carried the score of its correctness,
    so does every result read afterwards. *)
Theorem handleShowAnswer_consistent st ui notesData index tResult tSaved
    tProgress result ui' st' :
  handleShowAnswer st ui notesData index tResult tSaved tProgress
  = Some (result, ui', st') →
  Dashboard.consistentScores (getQuizResults st) →
  score result = (if isCorrect result then 1%Z else (-1)%Z) ∧
  Dashboard.consistentScores (getQuizResults st').
Proof.
  unfold handleShowAnswer. intros Hrun Hbefore.
  destruct (questions (noteData notesData) !! index) as [q|]; [|done].
  cbn [mbind option_bind] in Hrun. unfold scoreAnswer in Hrun.
  assert (score result = (if isCorrect result then 1%Z else (-1)%Z)
          ∧ getQuizResults st' = getQuizResults (saveQuizResult st result tSaved))
    as [Hscore Hafter].
  { destruct (decide _); injection Hrun as <- _ <-;
      by rewrite StorageFacts.getQuizResults_saveQuizProgress. }
  split; [done|]. rewrite Hafter.
  destruct (getCurrentUser st) as [user|] eqn:Huser.
  - destruct (StorageFacts.getQuizResults_saveQuizResult st result tSaved user
                Huser) as [Hin Hout].
    destruct (decide (resultKey result ∈ resultKey <$> getQuizResults st))
      as [Hk|Hk].
    + destruct (Hin Hk) as (i & _ & -> & _).
      by apply Forall_insert.
    + rewrite (Hout Hk). apply Forall_app. split; [done|].
      by apply Forall_singleton.
  - unfold saveQuizResult. by rewrite Huser.
Qed.

Lemma handleShowAnswer_consistent_witness :
  Dashboard.consistentScores (getQuizResults sampleStore) ∧
  ∃ result ui' st',
    handleShowAnswer sampleStore
      (mkQuizState {[ 0 := lit "B" ]} ∅ ∅ false)
      (mkNote 1700000001000 1700000000000 1700000001000 (sampleNoteData "First"))
      0 1700000007000 1700000007001 1700000007002
    = Some (result, ui', st') ∧
    Dashboard.consistentScores (getQuizResults st').
Proof.
  assert (Dashboard.consistentScores (getQuizResults sampleStore)) as Hscores
    by (unfold Dashboard.consistentScores; vm_compute;
        repeat (constructor; [reflexivity|]); constructor).
  split; [exact Hscores|].
  destruct (handleShowAnswer sampleStore
              (mkQuizState {[ 0 := lit "B" ]} ∅ ∅ false)
              (mkNote 1700000001000 1700000000000 1700000001000
                 (sampleNoteData "First"))
              0 1700000007000 1700000007001 1700000007002)
    as [[[result ui'] st']|] eqn:Hrun; [|vm_compute in Hrun; discriminate Hrun].
  exists result, ui', st'. split; [reflexivity|].
  exact (proj2 (handleShowAnswer_consistent sampleStore
                  (mkQuizState {[ 0 := lit "B" ]} ∅ ∅ false)
                  (mkNote 1700000001000 1700000000000 1700000001000
                     (sampleNoteData "First"))
                  0 1700000007000 1700000007001 1700000007002 result ui' st'
                  Hrun Hscores)).
Defined.

End QuizFacts.

(* ===================================================================== *)
(** * Properties of the percentage (src/components/Dashboard.jsx) *)
(* ===================================================================== *)

Module DashboardFacts.
Import Storage Dashboard.

Lemma totalScoreOf_bounds (results : list QuizResult) :
  scoredAnswers results →
  (- Z.of_nat (length results) ≤ totalScoreOf results
   ≤ Z.of_nat (length results))%Z.
Proof.
  unfold totalScoreOf. intros Hscores.
  enough (∀ acc : Z,
            (acc - Z.of_nat (length results)
             ≤ foldl (λ acc result, acc + score result) acc results
             ≤ acc + Z.of_nat (length results))%Z) as Hacc
    by (specialize (Hacc 0%Z); lia).
  induction Hscores as [|r results Hr _ IH]; intros acc; [simpl; lia|].
  cbn [foldl length]. specialize (IH (acc + score r)%Z). lia.
Qed.

Lemma scoredAnswers_filter (P : QuizResult → Prop) `{!∀ r, Decision (P r)}
    (results : list QuizResult) :
  scoredAnswers results → scoredAnswers (filter P results).
Proof.
  unfold scoredAnswers. rewrite !Forall_forall. intros Hall r Hr.
  apply Hall. by apply list_elem_of_filter in Hr as [_ ?].
Qed.

(** The percentage of [N] answers of total score [S]: a number of tenths
    between 0 and 1000, within half a tenth of the exact value. *)
Lemma percentage_tenths (S : Z) (N : nat) :
  (- Z.of_nat N ≤ S ≤ Z.of_nat N)%Z → (Z.of_nat N < 2 ^ 32)%Z →
  ∃ n, percentage S N = Some n ∧ (0 ≤ n ≤ 1000)%Z ∧
       withinHalfTenth n S N ∧ (N = 0 → n = 0%Z).
Proof.
  intros HS HN. unfold percentage, withinHalfTenth. case_bool_decide as Hpos.
  - destruct (JsNumberFacts.tenths_spec (S + Z.of_nat N) (2 * Z.of_nat N))
      as (n & -> & Hn & Hclose); [lia|lia|].
    exists n. split_and!; [done|lia|lia|lia|lia].
  - exists 0%Z. assert (N = 0) as -> by lia. split_and!; [done|lia|lia|lia|done].
Qed.

(** C5, as the code has it.  For a store whose quiz results carry the scores
    [+1] and [-1] (fewer than [2^32] of them, the bound of an array length),
    the average score of [calculateStats] and the percentage of
    [getNotePerformance] are [((S + N) / (2 * N)) * 100] rounded to one
    decimal by [toFixed(1)]: a number of tenths between 0 and 1000, within
    half a tenth of the exact value (up to the binary64 roundings, below
    [10^-12] of a tenth), with [S] the total score and [N] the number of
    results counted.  Four results of total 0 give 50.0, of total 4 give
    100.0, of total -4 give 0.0, and no result gives 0. *)
Theorem percentage_rounded (st : LocalStorage) :
  scoredAnswers (getQuizResults st) →
  (Z.of_nat (length (getQuizResults st)) < 2 ^ 32)%Z →
  (∃ n, averageScore (calculateStats st) = Some n ∧ (0 ≤ n ≤ 1000)%Z ∧
        withinHalfTenth n (totalMarks (calculateStats st))
          (questionsAttempted (calculateStats st)) ∧
        totalMarks (calculateStats st) = totalScoreOf (getQuizResults st) ∧
        questionsAttempted (calculateStats st) = length (getQuizResults st) ∧
        (getQuizResults st = [] → n = 0%Z)) ∧
  (∀ id perf, getNotePerformance st id = Some perf →
     ∃ n, perfPercentage perf = Some n ∧ (0 ≤ n ≤ 1000)%Z ∧
          withinHalfTenth n (perfScore perf) (perfAttempted perf) ∧
          0 < perfAttempted perf) ∧
  percentage 0 4 = Some 500%Z ∧
  percentage 4 4 = Some 1000%Z ∧
  percentage (-4) 4 = Some 0%Z ∧
  (∀ S, percentage S 0 = Some 0%Z).
Proof.
  intros Hscores Hlen. split_and!.
  - pose proof (totalScoreOf_bounds _ Hscores) as HS.
    destruct (percentage_tenths _ _ HS Hlen) as (n & Hn & Hrange & Hclose & Hzero).
    exists n. unfold calculateStats.
    cbn [averageScore totalMarks questionsAttempted].
    split; [exact Hn|]. split; [exact Hrange|]. split; [exact Hclose|].
    split; [reflexivity|]. split; [reflexivity|].
    intros Hnil. apply Hzero. by rewrite Hnil.
  - intros id perf. unfold getNotePerformance. cbn zeta.
    set (noteResults := filter _ (getQuizResults st)).
    case_bool_decide as Hempty; [done|]. intros [= <-].
    cbn [perfPercentage perfScore perfAttempted].
    assert (scoredAnswers noteResults) as Hscores'
      by (by apply scoredAnswers_filter).
    pose proof (totalScoreOf_bounds _ Hscores') as HS.
    assert (Z.of_nat (length noteResults) < 2 ^ 32)%Z as Hlen'.
    { pose proof (length_filter (λ result, resultNoteId result = id)
                    (getQuizResults st)) as Hle.
      fold noteResults in Hle. lia. }
    destruct (percentage_tenths _ _ HS Hlen') as (n & Hn & Hrange & Hclose & _).
    exists n. split; [exact Hn|]. split; [exact Hrange|]. split; [exact Hclose|].
    lia.
  - by vm_compute.
  - by vm_compute.
  - by vm_compute.
  - intros S. reflexivity.
Qed.

(** C5, as the claim states it, fails: the three results of the sample
    store have the total score -1, so the exact percentage is 100/3, and the
    average score computed is 33.3; the double that [toFixed(1)] rounds is
    not 33.3 either. *)
Lemma percentage_not_exact :
  scoredAnswers (getQuizResults sampleStore) ∧
  totalMarks (calculateStats sampleStore) = (-1)%Z ∧
  questionsAttempted (calculateStats sampleStore) = 3 ∧
  averageScore (calculateStats sampleStore) = Some 333%Z ∧
  (333 * (2 * 3) ≠ 1000 * (-1 + 3))%Z ∧
  JsNumber.mul (JsNumber.div (JsNumber.ofZ (-1 + 3)) (JsNumber.ofZ (2 * 3)))
    (JsNumber.ofZ 100)
  = S754_finite false 4691249611844266 (-47) ∧
  (10 * 4691249611844266 ≠ 333 * 2 ^ 47)%Z.
Proof.
  split_and!.
  - unfold scoredAnswers. vm_compute.
    repeat (constructor; [first [left; reflexivity | right; reflexivity]|]).
    constructor.
  - by vm_compute.
  - by vm_compute.
  - by vm_compute.
  - lia.
  - by vm_compute.
  - lia.
Qed.

(** The theorem on the sample store. *)
Lemma percentage_rounded_witness :
  scoredAnswers (getQuizResults sampleStore) ∧
  (Z.of_nat (length (getQuizResults sampleStore)) < 2 ^ 32)%Z ∧
  ∃ n, averageScore (calculateStats sampleStore) = Some n ∧ (0 ≤ n ≤ 1000)%Z.
Proof.
  assert (scoredAnswers (getQuizResults sampleStore)) as Hscores
    by (unfold scoredAnswers; vm_compute;
        repeat (constructor; [first [left; reflexivity | right; reflexivity]|]);
        constructor).
  assert (Z.of_nat (length (getQuizResults sampleStore)) < 2 ^ 32)%Z as Hlen
    by (vm_compute; reflexivity).
  split; [exact Hscores|]. split; [exact Hlen|].
  destruct (proj1 (percentage_rounded sampleStore Hscores Hlen))
    as (n & Hn & Hrange & _).
  exists n. split; [exact Hn | exact Hrange].
Defined.

(** ** The statistics of the answers the quiz records *)

Lemma length_filter_split {A} (P : A → Prop) `{!∀ x, Decision (P x)}
    (l : list A) :
  length (filter P l) + length (filter (λ x, ¬ P x) l) = length l.
Proof.
  induction l as [|x l IH]; [done|].
  rewrite !filter_cons. destruct (decide (P x)) as [Hx|Hx].
  - rewrite decide_False by tauto. simpl. lia.
  - rewrite decide_True by done. simpl. lia.
Qed.

Lemma totalScoreOf_consistent (results : list QuizResult) :
  consistentScores results →
  totalScoreOf results
  = (Z.of_nat (length (filter (λ r, isCorrect r = true) results))
     - Z.of_nat (length (filter (λ r, isCorrect r ≠ true) results)))%Z.
Proof.
  unfold totalScoreOf. intros Hscores.
  enough (∀ acc : Z,
            foldl (λ acc result, acc + score result)%Z acc results
            = (acc
               + Z.of_nat (length (filter (λ r, isCorrect r = true) results))
               - Z.of_nat (length (filter (λ r, isCorrect r ≠ true) results)))%Z)
    as Hacc by (rewrite Hacc; lia).
  induction Hscores as [|r results Hr _ IH]; intros acc; [simpl; lia|].
  cbn [foldl]. rewrite IH, !filter_cons, Hr.
  destruct (isCorrect r).
  - rewrite decide_True, decide_False by (try done; tauto). simpl length. lia.
  - rewrite decide_False, decide_True by done. simpl length. lia.
Qed.

Lemma consistentScores_scored (results : list QuizResult) :
  consistentScores results → scoredAnswers results.
Proof.
  unfold consistentScores, scoredAnswers. intros Hall.
  eapply Forall_impl; [exact Hall|].
  intros r Hr. simpl in Hr. rewrite Hr. destruct (isCorrect r); tauto.
Qed.

(** X17.  The counts of [calculateStats] add up: the correct and the
    incorrect answers are together the questions attempted.  When every
    stored result carries the score of its correctness (fewer than [2^32]
    results), the total marks are the correct answers less the incorrect
    ones, and the average score is the share of correct answers in percent,
    rounded to one decimal: a number of tenths within half a tenth (plus
    [10^-12] of a tenth) of [1000 * correct / attempted]. *)
Theorem calculateStats_counts (st : LocalStorage) :
  let stats := calculateStats st in
  correctAnswers stats + incorrectAnswers stats = questionsAttempted stats ∧
  (consistentScores (getQuizResults st) →
   (Z.of_nat (length (getQuizResults st)) < 2 ^ 32)%Z →
   totalMarks stats
   = (Z.of_nat (correctAnswers stats) - Z.of_nat (incorrectAnswers stats))%Z ∧
   ∃ n, averageScore stats = Some n ∧ (0 ≤ n ≤ 1000)%Z ∧
        (Z.abs (n * Z.of_nat (questionsAttempted stats)
                - 1000 * Z.of_nat (correctAnswers stats)) * 10 ^ 12
         ≤ Z.of_nat (questionsAttempted stats) * (5 * 10 ^ 11 + 1))%Z).
Proof.
  intros stats. unfold stats, calculateStats.
  cbn [correctAnswers incorrectAnswers questionsAttempted totalMarks
       averageScore].
  set (results := getQuizResults st).
  pose proof (length_filter_split (λ r, isCorrect r = true) results) as Hsplit.
  split; [exact Hsplit|].
  intros Hscores Hlen.
  pose proof (totalScoreOf_consistent results Hscores) as Htotal.
  split; [exact Htotal|].
  pose proof (totalScoreOf_bounds _ (consistentScores_scored _ Hscores)) as HS.
  destruct (percentage_tenths _ _ HS Hlen) as (n & Hn & Hrange & Hclose & _).
  exists n. split; [exact Hn|]. split; [exact Hrange|].
  unfold withinHalfTenth in Hclose. rewrite Htotal in Hclose.
  set (c := length (filter (λ r, isCorrect r = true) results)) in *.
  set (i := length (filter (λ r, isCorrect r ≠ true) results)) in *.
  set (N := length results) in *.
  assert (Z.of_nat N = Z.of_nat c + Z.of_nat i)%Z as HN by lia.
  replace (n * (2 * Z.of_nat N)
           - 1000 * (Z.of_nat c - Z.of_nat i + Z.of_nat N))%Z
    with (2 * (n * Z.of_nat N - 1000 * Z.of_nat c))%Z in Hclose by lia.
  rewrite Z.abs_mul in Hclose. change (Z.abs 2) with 2%Z in Hclose.
  lia.
Qed.

Lemma calculateStats_counts_witness :
  consistentScores (getQuizResults sampleStore) ∧
  (Z.of_nat (length (getQuizResults sampleStore)) < 2 ^ 32)%Z ∧
  totalMarks (calculateStats sampleStore)
  = (Z.of_nat (correctAnswers (calculateStats sampleStore))
     - Z.of_nat (incorrectAnswers (calculateStats sampleStore)))%Z.
Proof.
  assert (consistentScores (getQuizResults sampleStore)) as Hscores
    by (unfold consistentScores; vm_compute;
        repeat (constructor; [reflexivity|]); constructor).
  assert (Z.of_nat (length (getQuizResults sampleStore)) < 2 ^ 32)%Z as Hlen
    by (vm_compute; reflexivity).
  split; [exact Hscores|]. split; [exact Hlen|].
  exact (proj1 (proj2 (calculateStats_counts sampleStore) Hscores Hlen)).
Defined.

(** ** The dashboard after a note is reset or deleted *)

Lemma filter_eq_filter_ne (l : list QuizResult) (id other : Z) :
  other ≠ id →
  filter (λ result, resultNoteId result = other)
    (filter (λ result, resultNoteId result ≠ id) l)
  = filter (λ result, resultNoteId result = other) l.
Proof.
  intros Hne. induction l as [|r l IH]; [done|].
  rewrite (filter_cons (λ result, resultNoteId result ≠ id)).
  destruct (decide (resultNoteId r ≠ id)) as [Hr|Hr].
  - rewrite !filter_cons, IH. done.
  - rewrite IH, filter_cons, decide_False; [done|].
    intros Heq. apply Hr. congruence.
Qed.

Lemma filter_eq_filter_same (l : list QuizResult) (id : Z) :
  filter (λ result, resultNoteId result = id)
    (filter (λ result, resultNoteId result ≠ id) l) = [].
Proof.
  induction l as [|r l IH]; [done|].
  rewrite (filter_cons (λ result, resultNoteId result ≠ id)).
  destruct (decide (resultNoteId r ≠ id)) as [Hr|Hr]; [|done].
  by rewrite filter_cons, decide_False, IH.
Qed.

Lemma getNotePerformance_filtered st st' id :
  getQuizResults st'
  = filter (λ result, resultNoteId result ≠ id) (getQuizResults st) →
  getNotePerformance st' id = None ∧
  (∀ other, other ≠ id →
            getNotePerformance st' other = getNotePerformance st other) ∧
  questionsAttempted (calculateStats st')
  + length (filter (λ result, resultNoteId result = id) (getQuizResults st))
  = questionsAttempted (calculateStats st).
Proof.
  intros Hresults. unfold getNotePerformance, calculateStats.
  cbn [questionsAttempted]. rewrite Hresults. split_and!.
  - by rewrite filter_eq_filter_same.
  - intros other Hother. by rewrite filter_eq_filter_ne.
  - pose proof (length_filter_split (λ result, resultNoteId result = id)
                  (getQuizResults st)) as Hsplit.
    rewrite <-Hsplit. apply Nat.add_comm.
Qed.

(** X18.  After [resetNoteQuizData] of a note, and after
    [deleteNoteFromHistory] of it, the note has no performance ([null]), the
    performance of every other note is what it was, and the questions
    attempted of the statistics are fewer by the results the note had. *)
Theorem getNotePerformance_after_reset st id :
  let results :=
    filter (λ result, resultNoteId result = id) (getQuizResults st) in
  (getNotePerformance (resetNoteQuizData st id) id = None ∧
   (∀ other, other ≠ id →
      getNotePerformance (resetNoteQuizData st id) other
      = getNotePerformance st other) ∧
   questionsAttempted (calculateStats (resetNoteQuizData st id))
   + length results = questionsAttempted (calculateStats st)) ∧
  (getNotePerformance (deleteNoteFromHistory st id) id = None ∧
   (∀ other, other ≠ id →
      getNotePerformance (deleteNoteFromHistory st id) other
      = getNotePerformance st other) ∧
   questionsAttempted (calculateStats (deleteNoteFromHistory st id))
   + length results = questionsAttempted (calculateStats st)).
Proof.
  intros results. split.
  - apply getNotePerformance_filtered.
    apply StorageFacts.getQuizResults_resetNoteQuizData.
  - apply getNotePerformance_filtered.
    apply StorageFacts.getQuizResults_deleteNoteFromHistory.
Qed.

(** ** The recent activity *)

Lemma slice_last {A} (l : list A) (k : nat) :
  0 < k →
  TextProcessing.slice l (- Z.of_nat k) (Z.of_nat (length l))
  = drop (length l - k) l.
Proof.
  intros Hk. unfold TextProcessing.slice. cbn zeta.
  rewrite (proj2 (Z.ltb_lt (- Z.of_nat k) 0)) by lia.
  rewrite (proj2 (Z.ltb_ge (Z.of_nat (length l)) 0)) by lia.
  rewrite Z.min_id.
  replace (Z.to_nat (Z.max (Z.of_nat (length l) + - Z.of_nat k) 0))
    with (length l - k) by lia.
  apply take_ge. rewrite length_drop. lia.
Qed.

Lemma recentActivity_lookup (notesList : list Note) (i : nat) :
  i < 5 → i < length notesList →
  recentActivity notesList !! i
  = (λ note,
       mkActivity
         (if decide (title (noteData note) = []) then lit "Untitled"
          else title (noteData note))
         (if decide (subject (noteData note) = []) then lit "General"
          else subject (noteData note))
         (length (flashcards (noteData note)))
         (length (questions (noteData note))))
    <$> notesList !! (length notesList - 1 - i).
Proof.
  intros Hi Hlen. unfold recentActivity. change (-5)%Z with (- Z.of_nat 5)%Z.
  rewrite slice_last by lia. rewrite list_lookup_fmap.
  rewrite reverse_lookup by (rewrite length_drop; lia).
  rewrite lookup_drop, length_drop.
  replace (length notesList - 5 + (length notesList - (length notesList - 5) - S i))
    with (length notesList - 1 - i) by lia.
  destruct (notesList !! (length notesList - 1 - i)) as [note|]; [|done].
  cbn [fmap option_fmap option_map]. unfold AiService.orElse. f_equal. f_equal.
  - by destruct (title (noteData note)).
  - by destruct (subject (noteData note)).
Qed.

Lemma length_recentActivity (notesList : list Note) :
  length (recentActivity notesList) = 5 `min` length notesList.
Proof.
  unfold recentActivity. change (-5)%Z with (- Z.of_nat 5)%Z.
  rewrite slice_last by lia.
  rewrite length_fmap, length_reverse, length_drop. lia.
Qed.

(** X19.  The recent activity of the dashboard lists the last five notes of
    the history, the last one first: it has as many entries as the history
    has notes, up to five, and entry [i] is made of the note [i] places
    before the end of the history, with its title (or "Untitled" when it is
    empty), its subject (or "General") and its numbers of flashcards and
    questions.  [saveNoteToHistory] puts a new note at the front of the
    history: when the history holds five to 49 notes, the recent activity
    after a note is saved is the one before, and the saved note is not the
    source of any of its entries. *)
Theorem recentActivity_after_save st note nowId nowDate saved st' :
  saveNoteToHistory st note nowId nowDate = inr (saved, st') →
  5 ≤ length (getNotesHistory st) < 50 →
  (∀ notesList,
     length (recentActivity notesList) = 5 `min` length notesList ∧
     ∀ i, i < 5 → i < length notesList →
       ∃ source,
         notesList !! (length notesList - 1 - i) = Some source ∧
         recentActivity notesList !! i
         = Some (mkActivity
                   (if decide (title (noteData source) = [])
                    then lit "Untitled" else title (noteData source))
                   (if decide (subject (noteData source) = [])
                    then lit "General" else subject (noteData source))
                   (length (flashcards (noteData source)))
                   (length (questions (noteData source))))) ∧
  getNotesHistory st' = saved :: getNotesHistory st ∧
  length (recentActivity (getNotesHistory st')) = 5 ∧
  recentActivity (getNotesHistory st') = recentActivity (getNotesHistory st) ∧
  (∀ i, i < 5 →
     getNotesHistory st' !! (length (getNotesHistory st') - 1 - i)
     = getNotesHistory st !! (length (getNotesHistory st) - 1 - i) ∧
     length (getNotesHistory st') - 1 - i ≠ 0).
Proof.
  intros Hsave Hlen.
  assert (getNotesHistory st' = saved :: getNotesHistory st) as Hafter.
  { rewrite (StorageFacts.getNotesHistory_saveNoteToHistory _ _ _ _ _ _ Hsave).
    apply take_ge. cbn [length]. lia. }
  split_and!.
  - intros notesList. split; [apply length_recentActivity|].
    intros i Hi Hilen.
    destruct (lookup_lt_is_Some_2 notesList (length notesList - 1 - i))
      as [source Hsource]; [lia|].
    exists source. split; [done|].
    by rewrite recentActivity_lookup, Hsource.
  - done.
  - rewrite length_recentActivity, Hafter. cbn [length]. lia.
  - rewrite Hafter. set (l := getNotesHistory st) in *.
    unfold recentActivity. change (-5)%Z with (- Z.of_nat 5)%Z.
    rewrite !slice_last by lia.
    cbn [length]. replace (S (length l) - 5) with (S (length l - 5)) by lia.
    done.
  - intros i Hi. rewrite Hafter. cbn [length]. split; [|lia].
    replace (S (length (getNotesHistory st)) - 1 - i)
      with (S (length (getNotesHistory st) - 1 - i)) by lia.
    done.
Qed.

(** The theorem on the store of five notes: the first entry of the recent
    activity, before and after a sixth note is saved, is the oldest note. *)
Lemma recentActivity_after_save_witness :
  5 ≤ length (getNotesHistory sampleStoreFive) < 50 ∧
  ∃ saved st',
    saveNoteToHistory sampleStoreFive (sampleNoteData "Sixth") 1700000004000
      1700000004001 = inr (saved, st') ∧
    recentActivity (getNotesHistory st')
    = recentActivity (getNotesHistory sampleStoreFive) ∧
    (activityTitle <$> recentActivity (getNotesHistory sampleStoreFive))
    = [lit "First"; lit "Second"; lit "More"; lit "More"; lit "More"].
Proof.
  assert (5 ≤ length (getNotesHistory sampleStoreFive) < 50) as Hlen
    by (vm_compute; lia).
  split; [exact Hlen|].
  destruct (saveNoteToHistory sampleStoreFive (sampleNoteData "Sixth")
              1700000004000 1700000004001)
    as [e|[saved st']] eqn:Hsave; [vm_compute in Hsave; discriminate Hsave|].
  exists saved, st'. split; [reflexivity|].
  destruct (recentActivity_after_save sampleStoreFive
              (sampleNoteData "Sixth") 1700000004000 1700000004001
              saved st' Hsave Hlen) as (_ & _ & _ & Hsame & _).
  split; [exact Hsame|]. vm_compute. reflexivity.
Defined.

End DashboardFacts.

(* ===================================================================== *)
(** * Properties of the user management dialog *)
(* ===================================================================== *)

Module UserManagementFacts.
Import AiService Storage UserManagement.

(** X2.  When [handleCreateUser] shows no error, and the identifier the
    clock gives is not the one of a stored user, the current user is the new
    user: its name and email are the trimmed fields of the form, neither is
    empty, the field of the email holds an at sign and no stored user had
    that email; the new user reads no note, no quiz result and the default
    settings.  When the handler shows an error the store is unchanged. *)
Theorem handleCreateUser_selects_new_user st newName newEmail nowId nowDate
    err st' :
  nowId ∉ userId <$> getAllUsers st →
  UserManagement.handleCreateUser st newName newEmail nowId nowDate = (err, st') →
  match err with
  | Some _ => st' = st
  | None =>
      getCurrentUser st'
      = Some (mkUserProfile nowId (trim newName) (trim newEmail) nowDate) ∧
      trim newName ≠ [] ∧ trim newEmail ≠ [] ∧
      includes (lit "@") newEmail = true ∧
      (trim newEmail ∉ userEmail <$> getAllUsers st) ∧
      getAllUsers st'
      = getAllUsers st
        ++ [mkUserProfile nowId (trim newName) (trim newEmail) nowDate] ∧
      getNotesHistory st' = [] ∧
      getQuizResults st' = [] ∧
      getSettings st' = defaultSettings
  end.
Proof.
  intros Hfresh. unfold handleCreateUser.
  destruct (trim newName) as [|c name] eqn:Hname;
    [intros [= <- <-]; done|].
  destruct (trim newEmail) as [|d email] eqn:Hemail;
    [intros [= <- <-]; done|].
  cbn [truthy negb orb].
  destruct (includes (lit "@") newEmail) eqn:Hat;
    [|intros [= <- <-]; done].
  cbn [negb]. unfold createUser.
  destruct (list_find _ (getAllUsers st)) as [[i u]|] eqn:Hfind;
    [intros [= <- <-]; done|].
  intros [= <- <-]. cbn [userId].
  apply list_find_None in Hfind. rewrite Forall_forall in Hfind.
  set (newUser := mkUserProfile nowId (c :: name) (d :: email) nowDate).
  match goal with
  | |- getCurrentUser ?s = _ ∧ _ =>
      assert (getCurrentUser s = Some newUser) as Hcur
  end.
  { unfold getCurrentUser, switchUser, getAllUsers in *.
    cbn [currentUser usersList].
    destruct (list_find (λ u, userId u = nowId) (usersList st ++ [newUser]))
      as [[j v]|] eqn:Hj.
    - apply list_find_Some in Hj as (Hj & Hv & Hfirst). simpl. f_equal.
      destruct (decide (j < length (usersList st))) as [Hlt|Hge].
      + rewrite lookup_app_l in Hj by done. exfalso. apply Hfresh.
        apply list_elem_of_fmap. exists v. split; [done|].
        by eapply list_elem_of_lookup_2.
      + rewrite lookup_app_r in Hj by lia.
        destruct (j - length (usersList st)) as [|k]; simpl in Hj;
          [congruence|by rewrite lookup_nil in Hj].
    - apply list_find_None in Hj. rewrite Forall_app, Forall_singleton in Hj.
      by destruct Hj as [_ []]. }
  unfold getNotesHistory, getQuizResults, getSettings. rewrite Hcur.
  cbn [userId newUser]. unfold getUserData, switchUser. cbn [userBlobs].
  rewrite lookup_insert_eq. split_and!; try done.
  intros (u & Hu & Hin)%list_elem_of_fmap. by apply (Hfind u Hin).
Qed.

Lemma handleCreateUser_selects_new_user_witness :
  (1700000100000%Z ∉ userId <$> getAllUsers sampleStore) ∧
  getCurrentUser
    (snd (UserManagement.handleCreateUser sampleStore (lit " Ravi ")
            (lit "ravi@example.org ") 1700000100000 1700000100001))
  = Some (mkUserProfile 1700000100000 (trim (lit " Ravi "))
            (trim (lit "ravi@example.org ")) 1700000100001).
Proof.
  assert (1700000100000%Z ∉ userId <$> getAllUsers sampleStore) as Hfresh.
  { vm_compute. intros Hin. apply elem_of_cons in Hin as [Hin|Hin];
      [discriminate Hin|]. by apply elem_of_nil in Hin. }
  split; [exact Hfresh|].
  exact (proj1 (handleCreateUser_selects_new_user sampleStore (lit " Ravi ")
                  (lit "ravi@example.org ") 1700000100000 1700000100001
                  None _ Hfresh eq_refl)).
Defined.

End UserManagementFacts.

(* ===================================================================== *)
(** * Properties of the processing pipeline (App.jsx) *)
(* ===================================================================== *)

Module AppFacts.
Import AiService TextProcessing App.

(** X28.  The first step of [processInput] normalizes the text and hands the
    normalized text to [chunkText], which normalizes again.  For a text in
    which every carriage return is taken away by the first replacement, the
    chunks are those of the text itself, the word count is the number of
    words [chunkText] counts, every chunk counts at most 1500 words, and
    there is one chunk, the normalized text, exactly when the word count is
    at most 1500. *)
Theorem analyze_coherent (inputText : jsstring) :
  13%N ∉ replaceCrLf inputText →
  ∃ chunks,
    analyze inputText
    = (normalizeText inputText,
       length (splitWs (normalizeText inputText)), Some chunks) ∧
    chunkText inputText 1500 25 = Some chunks ∧
    (∀ chunk, chunk ∈ chunks → countWords chunk ≤ 1500) ∧
    (length chunks = 1 ↔ length (splitWs (normalizeText inputText)) ≤ 1500) ∧
    (length chunks = 1 → chunks = [normalizeText inputText]).
Proof.
  intros Hcr. unfold analyze. cbn zeta.
  rewrite TextProcessingFacts.countWords_normalizeText.
  assert (chunkText (normalizeText inputText) 1500 25
          = chunkText inputText 1500 25) as ->.
  { unfold chunkText.
    by rewrite (TextProcessingFacts.normalizeText_twice inputText Hcr). }
  destruct (TextProcessingFacts.chunkText_default_cases inputText)
    as [[Hshort Hrun]|(Hlong & k & Hk & Hrun & Hbound)]; cbn zeta in *.
  - exists [normalizeText inputText]. rewrite Hrun.
    split_and!; [done|done| |done|done].
    intros chunk ->%list_elem_of_singleton.
    by rewrite TextProcessingFacts.countWords_normalizeText.
  - eexists. rewrite Hrun. split_and!; [done|done| | |].
    + intros chunk (i & -> & Hi)%list_elem_of_fmap.
      apply elem_of_seq in Hi. apply Hbound. lia.
    + rewrite length_fmap, length_seq. lia.
    + rewrite length_fmap, length_seq. lia.
Qed.

Lemma analyze_coherent_witness :
  (13%N ∉ replaceCrLf ([97; 13; 10; 10; 10; 32; 9]%N ++ lit " b ")) ∧
  ∃ chunks,
    analyze ([97; 13; 10; 10; 10; 32; 9]%N ++ lit " b ")
    = (normalizeText ([97; 13; 10; 10; 10; 32; 9]%N ++ lit " b "),
       length (splitWs
                 (normalizeText ([97; 13; 10; 10; 10; 32; 9]%N ++ lit " b "))),
       Some chunks).
Proof.
  assert (13%N ∉ replaceCrLf ([97; 13; 10; 10; 10; 32; 9]%N ++ lit " b "))
    as Hcr.
  { vm_compute. intros Hin.
    repeat (apply elem_of_cons in Hin as [Hin|Hin]; [discriminate Hin|]).
    by apply elem_of_nil in Hin. }
  split; [exact Hcr|].
  destruct (analyze_coherent _ Hcr) as (chunks & Hrun & _).
  exists chunks. exact Hrun.
Defined.

Lemma splitLinesFrom_no_lf cur s piece :
  10%N ∉ cur → piece ∈ splitLinesFrom cur s → 10%N ∉ piece.
Proof.
  revert cur. induction s as [|c s IH]; intros cur Hcur.
  - cbn [splitLinesFrom]. by intros ->%list_elem_of_singleton.
  - cbn [splitLinesFrom]. destruct (c =? 10)%N eqn:Hc.
    + intros [->|Hin]%elem_of_cons; [done|].
      apply (IH []); [apply not_elem_of_nil|done].
    + apply IH. apply N.eqb_neq in Hc.
      intros [Hin|Hin%list_elem_of_singleton]%elem_of_app; [done|congruence].
Qed.

Lemma elem_of_stripBullet line c : c ∈ stripBullet line → c ∈ line.
Proof.
  unfold stripBullet. destruct line as [|d rest]; [done|].
  destruct ((d =? 45)%N || (d =? 8226)%N || (d =? 42)%N); [|done].
  intros Hin. right.
  destruct (JsStringFacts.trimStart_suffix rest) as (w & Hs & _).
  rewrite Hs. apply elem_of_app. by right.
Qed.

(** X29.  Every key point [processInput] reads off the model output is not
    empty, has no white space at either end and holds no line feed: it is a
    line of the output without its leading hyphen, bullet or asterisk,
    trimmed.  There are at most as many key points as lines. *)
Theorem parseKeyPoints_entries (keyPointsText : jsstring) :
  (∀ point, point ∈ parseKeyPoints keyPointsText →
     point ≠ [] ∧ trim point = point ∧
     (∀ c, head point = Some c → is_space c = false) ∧
     (∀ c, last point = Some c → is_space c = false) ∧
     (10%N ∉ point) ∧
     ∃ line, line ∈ splitLines keyPointsText ∧ trim line ≠ [] ∧
             point = trim (stripBullet line)) ∧
  length (parseKeyPoints keyPointsText) ≤ length (splitLines keyPointsText).
Proof.
  unfold parseKeyPoints, nonBlankLines. split.
  - intros point [Hlen (line & -> & Hline)%list_elem_of_fmap]%list_elem_of_filter.
    apply list_elem_of_filter in Hline as [Htruthy Hline].
    split_and!.
    + intros Hnil. rewrite Hnil in Hlen. simpl in Hlen. lia.
    + apply JsStringFacts.trim_idemp.
    + apply JsStringFacts.trim_head.
    + apply JsStringFacts.trim_last.
    + intros Hin%TextProcessingFacts.elem_of_trim%elem_of_stripBullet.
      revert Hin. eapply splitLinesFrom_no_lf; [apply not_elem_of_nil|].
      exact Hline.
    + exists line. split_and!; [done| |done].
      intros Hnil. rewrite Hnil in Htruthy. done.
  - etrans; [apply length_filter|]. rewrite length_fmap. apply length_filter.
Qed.

End AppFacts.
